(** * rare-sniper: the scan pipeline, embedded and verified

    A shallow embedding of the JavaScript sources

    - [utils/analyzer.js]  ([normalizeNFT], [countTraits], [findRareNFTs]),
    - [utils/logger.js]    ([requestError]),
    - [api/magiceden.js]   (the paginated and the single-record fetchers),
    - [utils/cache.js]     (snapshot and seen-set persistence),
    - [index.js]           ([processCollection], [main], the interrupt
                           handler),
    - [utils/notifications.js]  ([sendRareSummaryDiscordNotification]),

    followed by the properties the specification states about them and by
    further properties of the code.

    Conventions of the embedding.
    - A JavaScript number is an IEEE-754 binary64 value: Rocq's primitive
      [float].  Counts and lengths, which the code only ever increments from
      zero, are [nat] and are converted where the code does arithmetic on
      them.  Times are whole milliseconds, in [Z].
    - Trait types and trait values are strings.  [nft.traits], whose key
      order decides the order of [traitTypes], is the list of its own
      properties in the order [Object.keys] gives them.  The objects that
      are only used as look-up tables ([traitCounts], [traitCounts[type]],
      [nft.rarity]) are finite maps of their own properties.
    - A look-up that finds no own property falls through to
      [Object.prototype].  This is modelled where the outcome is again a
      string, a stat or nothing: the assignment of a trait type in
      [normalizeNFT] and the look-up of a value in its column in
      [findRareNFTs].  Where the inherited member would itself become a
      trait value or a count (a trait type named like a member of
      [Object.prototype] in [traitValue], such a type or value in
      [countTraits]) the embedding follows the own properties only, and the
      statements that depend on it carry the hypothesis [plainTypes] or
      [plainNames].
    - A thrown exception is the [None] of an [option].  The remote endpoint,
      the clock and the file system are explicit arguments; what a run does
      to the outside is recorded in a trace.  A [while] loop takes fuel, and
      running out of fuel is distinct from every result.
    - [log] only prints and is left out, and so is the request throttle,
      which only delays. *)

From Stdlib Require Import ZArith Lia.
From Stdlib Require Import Floats.PrimFloat Floats.SpecFloat Floats.FloatOps.
From Stdlib Require Import Floats.FloatAxioms.
From Stdlib Require Import Numbers.Cyclic.Int63.Uint63.
From stdpp Require Import base option list gmap strings fin_maps pretty.
From stdpp Require Import sorting.

(* ===================================================================== *)
(** * JavaScript numbers *)
(* ===================================================================== *)

Module JSNumber.

(** A non-negative integer below 2^53 as a number. *)
Definition of_Z (z : Z) : float := PrimFloat.of_uint63 (Uint63.of_Z z).
Definition of_nat (n : nat) : float := of_Z (Z.of_nat n).

(** [x.toFixed(2)] for a finite [x >= 0]: the integer [n] for which
    [n / 100 - x] is as close to zero as possible, the larger one on a tie
    (ECMA-262, Number.prototype.toFixed); the string it prints is the
    decimal [n / 100].  [x] is taken at its exact value [m * 2^e]. *)
Definition toFixed2 (x : float) : Z :=
  match Prim2SF x with
  | S754_finite false m e =>
      if (0 <=? e)%Z then (100 * (Z.pos m * 2 ^ e))%Z
      else ((200 * Z.pos m + 2 ^ (- e)) / 2 ^ (1 - e))%Z
  | _ => 0%Z
  end.

(** [parseFloat] of the decimal with two digits that denotes [n / 100]:
    the double nearest to it, which is what the correctly rounded division
    of the two exactly represented integers gives. *)
Definition parseFloat_hundredths (n : Z) : float :=
  PrimFloat.div (of_Z n) (of_Z 100).

(** The exact value of a finite number, as a fraction [num / den]. *)
Definition exact (x : float) : option (Z * Z) :=
  match Prim2SF x with
  | S754_zero _ => Some (0, 1)%Z
  | S754_finite s m e =>
      let sm := if s then Z.neg m else Z.pos m in
      if (0 <=? e)%Z then Some (sm * 2 ^ e, 1)%Z else Some (sm, 2 ^ (- e))%Z
  | _ => None
  end.

End JSNumber.

(* ===================================================================== *)
(** * utils/analyzer.js *)
(* ===================================================================== *)

Module Analyzer.

(** ** Plain objects with string keys *)

(** The own property names of [Object.prototype], which every plain object
    inherits.  A look-up [o[k]] that finds no own property [k] answers the
    inherited member when [k] is one of these names (a function, or
    [Object.prototype] itself for [__proto__]: an object, truthy, with
    neither a [count] nor a [percentage]), and [undefined] otherwise. *)
Definition protoNames : list string :=
  ["constructor"; "__defineGetter__"; "__defineSetter__"; "hasOwnProperty";
   "__lookupGetter__"; "__lookupSetter__"; "isPrototypeOf";
   "propertyIsEnumerable"; "toString"; "valueOf"; "__proto__";
   "toLocaleString"]%string.

(** The own properties of an object, in the order [Object.keys] lists
    them. *)
Fixpoint obj_get {V} (o : list (string * V)) (k : string) : option V :=
  match o with
  | [] => None
  | (k', v) :: o' => if decide (k' = k) then Some v else obj_get o' k
  end.

Definition obj_keys {V} (o : list (string * V)) : list string := o.*1.

Definition digit (c : Ascii.ascii) : option N :=
  let n := Ascii.N_of_ascii c in
  if (48 <=? n)%N && (n <=? 57)%N then Some (n - 48)%N else None.

Fixpoint digits (s : string) (acc : N) : option N :=
  match s with
  | EmptyString => Some acc
  | String c s' =>
      match digit c with
      | Some d => digits s' (10 * acc + d)%N
      | None => None
      end
  end.

(** An array index: a key that is the decimal (no sign, no leading zero)
    of an integer from 0 to 2^32 - 2.  [Object.keys] lists the keys that are
    array indices first, in ascending numeric order, and then the other keys
    in the order in which they were created. *)
Definition arrayIndex (k : string) : option N :=
  match digits k 0 with
  | Some n =>
      if decide ((n < 4294967295)%N ∧ pretty n = k) then Some n else None
  | None => None
  end.

(** A new array-index key [k], of index [i], goes before the first key that
    is not an array index or has a greater index. *)
Fixpoint obj_insert_index {V} (o : list (string * V)) (i : N) (k : string)
    (v : V) : list (string * V) :=
  match o with
  | [] => [(k, v)]
  | (k', v') :: o' =>
      match arrayIndex k' with
      | Some j =>
          if (j <? i)%N then (k', v') :: obj_insert_index o' i k v
          else (k, v) :: o
      | None => (k, v) :: o
      end
  end.

(** An existing key keeps its place and takes the new value. *)
Fixpoint obj_update {V} (o : list (string * V)) (k : string) (v : V)
  : list (string * V) :=
  match o with
  | [] => []
  | (k', v') :: o' =>
      if decide (k' = k) then (k, v) :: o' else (k', v') :: obj_update o' k v
  end.

(** [o[k] = v] for a string [v].  The key [__proto__] reaches the setter
    inherited from [Object.prototype], which ignores a value that is
    neither an object nor null: nothing is stored.  Every other inherited
    member is a writable data property, so the assignment creates an own
    property as for any other key. *)
Definition obj_set (o : list (string * string)) (k : string) (v : string)
  : list (string * string) :=
  if decide (k = "__proto__"%string) then o
  else
    match obj_get o k with
    | Some _ => obj_update o k v
    | None =>
        match arrayIndex k with
        | Some i => obj_insert_index o i k v
        | None => o ++ [(k, v)]
        end
    end.

(** ** Data *)

Record Attribute := { trait_type : string; attr_value : string }.

(** A token record as the remote API returns it. *)
Record RawNFT := {
  raw_mintAddress : string;
  raw_name : string;
  raw_image : string;
  raw_price : option Z;
  raw_seller : option string;
  raw_tokenAddress : string;
  raw_attributes : option (list Attribute)
}.

(** [{count, percentage}] *)
Record TraitStat := { count : nat; percentage : float }.

Inductive Reason :=
| OneOfOneTrait                    (* 'One of one trait' *)
| BelowThreshold (t : float).      (* `Below ${percentThreshold}% threshold` *)

(** An entry of [nft.rarity].  [count] and [percentage] are read off what
    the look-up found and are [undefined] ([None]) when that was an
    inherited member; [reason] is set for a rare entry only. *)
Record RarityDetail := {
  rd_value : string;
  rd_count : option nat;
  rd_percentage : option float;
  rd_rare : bool;
  rd_reason : option Reason
}.

Record NFT := {
  mintAddress : string;
  name : string;
  image : string;
  price : option Z;
  seller : option string;
  tokenAddress : string;
  rarity : gmap string RarityDetail;
  traits : list (string * string)
}.

Definition set_rarity (nft : NFT) (r : gmap string RarityDetail) : NFT :=
  {| mintAddress := mintAddress nft; name := name nft; image := image nft;
     price := price nft; seller := seller nft;
     tokenAddress := tokenAddress nft; rarity := r; traits := traits nft |}.

Definition set_listing (nft : NFT) (p : option Z) (s : option string) : NFT :=
  {| mintAddress := mintAddress nft; name := name nft; image := image nft;
     price := p; seller := s;
     tokenAddress := tokenAddress nft; rarity := rarity nft;
     traits := traits nft |}.

(** The result of [countTraits]. *)
Record TraitAnalysis := {
  traitCounts : gmap string (gmap string TraitStat);
  traitTypes : list string
}.

(** [config.raritySettings] *)
Record RaritySettings := {
  oneOfOneThreshold : bool;
  percentThreshold : float
}.

(** ** normalizeNFT *)

Definition normalizeNFT (nft : option RawNFT) : option NFT :=
  match nft with
  | None => None
  | Some nft =>
      match raw_attributes nft with
      | None => None
      | Some attrs =>
          Some {| mintAddress := raw_mintAddress nft;
                  name := raw_name nft;
                  image := raw_image nft;
                  price := raw_price nft;
                  seller := raw_seller nft;
                  tokenAddress := raw_tokenAddress nft;
                  rarity := ∅;
                  traits :=
                    foldl (fun t attr =>
                             obj_set t (trait_type attr) (attr_value attr))
                          [] attrs |}
      end
  end.

(** ** countTraits *)

(** [Set.prototype.add] on a set kept in insertion order. *)
Definition set_add (s : list string) (x : string) : list string :=
  if decide (x ∈ s) then s else s ++ [x].

(** First pass: collect all trait types. *)
Definition collectTraitTypes (nfts : list NFT) : list string :=
  foldl (fun tt nft => foldl set_add tt (obj_keys (traits nft))) [] nfts.

(** [nft.traits[type] || 'None']: an absent trait and the empty string are
    both falsy.  For a [type] that is not the name of a member of
    [Object.prototype]; for such a name an item without the trait answers
    the inherited member, not ['None']. *)
Definition traitValue (nft : NFT) (type : string) : string :=
  match obj_get (traits nft) type with
  | Some v => if decide (v = ""%string) then "None"%string else v
  | None => "None"%string
  end.

(** Second pass: one empty table per trait type. *)
Definition initCounts (tt : list string) : gmap string (gmap string nat) :=
  foldl (fun tc type => <[type := ∅]> tc) ∅ tt.

(** [traitCounts[type][value] = (traitCounts[type][value] || 0) + 1].
    Every type the loops visit was initialised, so the table is there.  For
    a [value] that is not the name of a member of [Object.prototype]; for
    such a name the first read answers the inherited member and the count
    becomes a string. *)
Definition increment (tc : gmap string (gmap string nat))
    (type value : string) : gmap string (gmap string nat) :=
  alter (fun m => <[value := S (default 0 (m !! value))]> m) type tc.

(** Third pass: count occurrences of each trait value. *)
Definition countValues (tt : list string) (nfts : list NFT)
    (tc : gmap string (gmap string nat)) : gmap string (gmap string nat) :=
  foldl (fun tc nft =>
           foldl (fun tc type => increment tc type (traitValue nft type))
                 tc tt)
        tc nfts.

(** [parseFloat(((count / totalNFTs) * 100).toFixed(2))] *)
Definition percentageOf (cnt totalNFTs : nat) : float :=
  JSNumber.parseFloat_hundredths
    (JSNumber.toFixed2
       (PrimFloat.mul
          (PrimFloat.div (JSNumber.of_nat cnt) (JSNumber.of_nat totalNFTs))
          (JSNumber.of_Z 100))).

Definition mkStat (totalNFTs cnt : nat) : TraitStat :=
  {| count := cnt; percentage := percentageOf cnt totalNFTs |}.

(** Fourth pass: every number of every table becomes [{count, percentage}].
    The source overwrites the numbers in place; the typed model writes the
    records into a table with the same keys. *)
Definition calcPercentages (totalNFTs : nat) (tt : list string)
    (tc : gmap string (gmap string nat))
  : gmap string (gmap string TraitStat) :=
  foldl (fun acc type =>
           <[type := mkStat totalNFTs <$> default ∅ (tc !! type)]> acc)
        ∅ tt.

Definition countTraits (nfts : list NFT) : TraitAnalysis :=
  let totalNFTs := length nfts in
  let tt := collectTraitTypes nfts in
  let tc := countValues tt nfts (initCounts tt) in
  {| traitCounts := calcPercentages totalNFTs tt tc; traitTypes := tt |}.

(** ** findRareNFTs *)

(** The body of [traitTypes.forEach] for one item: the local [isRare] and
    [rarityDetails] are the state; reading [traitCounts[type][value]] when
    [traitCounts[type]] is undefined throws a TypeError.  When the column
    has no own entry for the value and the value is the name of a member of
    [Object.prototype], [traitStats] is that member: it is truthy, its
    [count] is not 1 and its [percentage], [undefined], is [<=] no number,
    so the last branch is taken. *)
Definition checkTrait (cfg : RaritySettings)
    (tc : gmap string (gmap string TraitStat)) (nft : NFT)
    (st : bool * gmap string RarityDetail) (type : string)
  : option (bool * gmap string RarityDetail) :=
  let '(isRare, rarityDetails) := st in
  let value := traitValue nft type in
  match tc !! type with
  | None => None
  | Some table =>
      match table !! value with
      | Some traitStats =>
          if oneOfOneThreshold cfg && (count traitStats =? 1)%nat then
            Some (true,
                  <[type := {| rd_value := value; rd_count := Some 1;
                               rd_percentage := Some (percentage traitStats);
                               rd_rare := true;
                               rd_reason := Some OneOfOneTrait |}]>
                    rarityDetails)
          else if PrimFloat.leb (percentage traitStats) (percentThreshold cfg)
          then
            Some (true,
                  <[type := {| rd_value := value;
                               rd_count := Some (count traitStats);
                               rd_percentage := Some (percentage traitStats);
                               rd_rare := true;
                               rd_reason :=
                                 Some (BelowThreshold (percentThreshold cfg))
                            |}]>
                    rarityDetails)
          else
            Some (isRare,
                  <[type := {| rd_value := value;
                               rd_count := Some (count traitStats);
                               rd_percentage := Some (percentage traitStats);
                               rd_rare := false;
                               rd_reason := None |}]>
                    rarityDetails)
      | None =>
          if decide (value ∈ protoNames) then
            Some (isRare,
                  <[type := {| rd_value := value; rd_count := None;
                               rd_percentage := None; rd_rare := false;
                               rd_reason := None |}]>
                    rarityDetails)
          else Some (isRare, rarityDetails)
      end
  end.

(** A [forEach] whose body may throw. *)
Fixpoint forEach {St A} (body : St → A → option St) (l : list A) (s : St)
  : option St :=
  match l with
  | [] => Some s
  | x :: l' =>
      match body s x with
      | Some s' => forEach body l' s'
      | None => None
      end
  end.

(** [isRare] and [rarityDetails] of one item after the loop over
    [traitTypes]. *)
Definition checkTraits (cfg : RaritySettings) (ta : TraitAnalysis)
    (nft : NFT) : option (bool * gmap string RarityDetail) :=
  forEach (checkTrait cfg (traitCounts ta) nft) (traitTypes ta) (false, ∅).

(** The body of [nfts.forEach].  The items are shared objects: a rare one
    is mutated ([nft.rarity = rarityDetails]) and that very object is
    pushed.  The state is the array as the caller sees it afterwards and
    [rareNFTs]. *)
Definition checkNFT (cfg : RaritySettings) (ta : TraitAnalysis)
    (st : list NFT * list NFT) (nft : NFT) : option (list NFT * list NFT) :=
  let '(heap, rareNFTs) := st in
  match checkTraits cfg ta nft with
  | None => None
  | Some (isRare, rarityDetails) =>
      if isRare then
        let nft' := set_rarity nft rarityDetails in
        Some (heap ++ [nft'], rareNFTs ++ [nft'])
      else Some (heap ++ [nft], rareNFTs)
  end.

Definition findRareNFTs_run (cfg : RaritySettings) (nfts : list NFT)
    (ta : TraitAnalysis) : option (list NFT * list NFT) :=
  forEach (checkNFT cfg ta) nfts ([], []).

(** The returned [rareNFTs]. *)
Definition findRareNFTs (cfg : RaritySettings) (nfts : list NFT)
    (ta : TraitAnalysis) : option (list NFT) :=
  snd <$> findRareNFTs_run cfg nfts ta.

End Analyzer.

(* ===================================================================== *)
(** * utils/logger.js *)
(* ===================================================================== *)

Module Logger.

(** The requests of [api/magiceden.js], by URL:
    [/collections/:symbol], [/collections/:symbol/stats],
    [/collections/:symbol/listings?offset=..&limit=..],
    [/collections/:symbol/activities?offset=..&limit=..], [/tokens/:mint]. *)
Inductive Request :=
| GetCollection (symbol : string)
| GetStats (symbol : string)
| GetListings (symbol : string) (offset limit : nat)
| GetActivities (symbol : string) (offset limit : nat)
| GetToken (mint : string).

(** What a run does to the outside, in order: the requests it issues and the
    waits it makes.  Console output is not recorded. *)
Inductive Event :=
| Get (r : Request)
| Wait (ms : Z).

Definition World := list Event.

Definition isGet (e : Event) : bool :=
  match e with Get _ => true | Wait _ => false end.

(** The number of requests issued so far. *)
Definition issued (w : World) : nat := length (List.filter isGet w).

(** [err.response] of a rejected request; [resp_config] is [resp.config]
    (its [url]). *)
Record Response := {
  status : Z;
  statusText : string;
  resp_config : option string
}.

Record AxiosError := {
  response : option Response;
  message : string
}.

(** [requestError(source, err)]: whether to retry the request. *)
Definition requestError (source : string) (err : AxiosError) (w : World)
  : bool * World :=
  match response err with
  | Some resp =>
      if (status resp =? 429)%Z && bool_decide (is_Some (resp_config resp))
      then (true, w ++ [Wait 5000])
      else (false, w)
  | None => (false, w)
  end.

End Logger.

(* ===================================================================== *)
(** * api/magiceden.js *)
(* ===================================================================== *)

Module MagicEden.
Import Analyzer Logger.

Record CollectionInfo := { info_symbol : string; info_name : string }.
Record CollectionStats := { floorPrice : option Z; listedCount : option Z }.
Record Listing := {
  tokenMint : string;
  listing_price : option Z;
  listing_seller : option string
}.
(** An activity record; [act_tokenMint] is absent on some. *)
Record Activity := { act_tokenMint : option string }.

(** The remote endpoint.  A reply is the body ([None]: a null body) or the
    error the request is rejected with; it may depend on how many requests
    were issued before. *)
Record Server := {
  collectionInfo : nat → string → option CollectionInfo + AxiosError;
  collectionStats : nat → string → option CollectionStats + AxiosError;
  listings :
    nat → string → nat → nat → option (list Listing) + AxiosError;
  activities :
    nat → string → nat → nat → option (list Activity) + AxiosError;
  token : nat → string → option RawNFT + AxiosError
}.

Definition getCollectionInfo (srv : Server) (symbol : string) (w : World)
  : option CollectionInfo * World :=
  let w1 := w ++ [Get (GetCollection symbol)] in
  match collectionInfo srv (issued w) symbol with
  | inl data => (data, w1)
  | inr e =>
      let '(_, w2) := requestError "getCollectionInfo" e w1 in (None, w2)
  end.

Definition getCollectionStats (srv : Server) (symbol : string) (w : World)
  : option CollectionStats * World :=
  let w1 := w ++ [Get (GetStats symbol)] in
  match collectionStats srv (issued w) symbol with
  | inl data => (data, w1)
  | inr e =>
      let '(_, w2) := requestError "getCollectionStats" e w1 in (None, w2)
  end.

Definition getNFTMetadata (srv : Server) (mintAddress : string) (w : World)
  : option RawNFT * World :=
  let w1 := w ++ [Get (GetToken mintAddress)] in
  match token srv (issued w) mintAddress with
  | inl data => (data, w1)
  | inr e =>
      let '(_, w2) := requestError "getNFTMetadata" e w1 in (None, w2)
  end.

Definition limit : nat := 500.

(** The [while (hasMore)] loop of [getCollectionListings]; [fuel] bounds the
    number of iterations, [None] is a loop still running when it is used up. *)
Fixpoint listingsLoop (fuel : nat) (srv : Server) (symbol : string)
    (allListings : list Listing) (offset : nat) (w : World)
  : option (list Listing * World) :=
  match fuel with
  | 0 => None
  | S fuel' =>
      let w1 := w ++ [Get (GetListings symbol offset limit)] in
      match listings srv (issued w) symbol offset limit with
      | inl (Some ((_ :: _) as data)) =>
          let allListings' := allListings ++ data in
          let offset' := offset + limit in
          if length data <? limit then Some (allListings', w1)
          else listingsLoop fuel' srv symbol allListings' offset' w1
      | inl _ => Some (allListings, w1)
      | inr e =>
          let '(retry, w2) := requestError "getCollectionListings" e w1 in
          if retry then listingsLoop fuel' srv symbol allListings offset w2
          else Some (allListings, w2)
      end
  end.

Definition getCollectionListings (fuel : nat) (srv : Server) (symbol : string)
    (w : World) : option (list Listing * World) :=
  listingsLoop fuel srv symbol [] 0 w.

(** [[...new Set(data.filter(a => a.tokenMint).map(a => a.tokenMint))]];
    the empty string is falsy. *)
Definition uniqueTokens (data : list Activity) : list string :=
  foldl set_add []
    (omap (fun a => match act_tokenMint a with
                    | Some m => if decide (m = ""%string) then None else Some m
                    | None => None
                    end) data).

(** [for (const mint of uniqueTokens)]: the collected records, whether the
    loop left [hasMore] alone, the world. *)
Fixpoint fetchTokens (srv : Server) (maxNFTsToFetch : nat)
    (mints : list string) (allNFTs : list RawNFT) (w : World)
  : list RawNFT * bool * World :=
  match mints with
  | [] => (allNFTs, true, w)
  | mint :: mints' =>
      if maxNFTsToFetch <=? length allNFTs then (allNFTs, false, w)
      else if existsb (fun nft => bool_decide (raw_mintAddress nft = mint))
                      allNFTs
      then fetchTokens srv maxNFTsToFetch mints' allNFTs w
      else
        match getNFTMetadata srv mint w with
        | (Some metadata, w') =>
            fetchTokens srv maxNFTsToFetch mints' (allNFTs ++ [metadata]) w'
        | (None, w') => fetchTokens srv maxNFTsToFetch mints' allNFTs w'
        end
  end.

(** The [while (hasMore)] loop of [getAllCollectionNFTs]. *)
Fixpoint allNFTsLoop (fuel : nat) (srv : Server) (maxNFTsToFetch : nat)
    (symbol : string) (allNFTs : list RawNFT) (offset : nat) (w : World)
  : option (list RawNFT * World) :=
  match fuel with
  | 0 => None
  | S fuel' =>
      let w1 := w ++ [Get (GetActivities symbol offset limit)] in
      match activities srv (issued w) symbol offset limit with
      | inl (Some ((_ :: _) as data)) =>
          let '(allNFTs', hasMore, w2) :=
            fetchTokens srv maxNFTsToFetch (uniqueTokens data) allNFTs w1 in
          let offset' := offset + limit in
          let hasMore' :=
            if (length data <? limit) || (maxNFTsToFetch <=? length allNFTs')
            then false else hasMore in
          if hasMore'
          then allNFTsLoop fuel' srv maxNFTsToFetch symbol allNFTs' offset' w2
          else Some (allNFTs', w2)
      | inl _ => Some (allNFTs, w1)
      | inr e =>
          let '(retry, w2) := requestError "getAllCollectionNFTs" e w1 in
          if retry
          then allNFTsLoop fuel' srv maxNFTsToFetch symbol allNFTs offset w2
          else Some (allNFTs, w2)
      end
  end.

Definition getAllCollectionNFTs (fuel : nat) (srv : Server)
    (maxNFTsToFetch : nat) (symbol : string) (w : World)
  : option (list RawNFT * World) :=
  allNFTsLoop fuel srv maxNFTsToFetch symbol [] 0 w.

End MagicEden.

(* ===================================================================== *)
(** * utils/cache.js *)
(* ===================================================================== *)

Module Cache.
Import Analyzer.

(** What [JSON.parse] makes of a file: the array [saveToCache] wrote or the
    array [saveSeenRareNFTs] wrote. *)
Inductive Json :=
| JSnapshot (data : list RawNFT)
| JSeen (mints : list string).

(** A file of the cache directory.  [mtime] is
    [fs.statSync(path).mtime.getTime()], in milliseconds ([None]: [statSync]
    throws); [parsed] is [JSON.parse(fs.readFileSync(path, 'utf8'))] ([None]:
    reading or parsing throws). *)
Record File := { mtime : option Z; parsed : option Json }.

(** The cache directory, by file path. *)
Definition FileSystem := gmap string File.

(** [config.collectionAnalysis]; [cacheExpireHours] is a whole number of
    hours, so that the product below is exact. *)
Record CollectionAnalysis := {
  cacheFullCollectionData : bool;
  cacheExpireHours : Z;
  maxNFTsToFetch : nat
}.

Definition CACHE_DIR : string := "cache/".

Definition getCacheFilePath (collectionSymbol : string) : string :=
  CACHE_DIR +:+ collectionSymbol +:+ ".json".

Definition getSeenRareNFTsPath (collectionSymbol : string) : string :=
  CACHE_DIR +:+ collectionSymbol +:+ "_seen.json".

(** [now] is [new Date().getTime()]. *)
Definition cacheExists (cfg : CollectionAnalysis) (disk : gmap string File)
    (now : Z) (collectionSymbol : string) : bool :=
  let cachePath := getCacheFilePath collectionSymbol in
  match disk !! cachePath with
  | None => false
  | Some file =>
      match mtime file with
      | None => false
      | Some fileModifiedTime =>
          let currentTime := now in
          let cacheExpirationMs :=
            (cacheExpireHours cfg * 60 * 60 * 1000)%Z in
          if (cacheExpirationMs <? currentTime - fileModifiedTime)%Z
          then false
          else true
      end
  end.

(** [fs.writeFileSync(path, JSON.stringify(data))] at time [now];
    [writable = false]: the write throws. *)
Definition writeFileSync (disk : gmap string File) (writable : bool)
    (now : Z) (path : string) (data : Json) : option (gmap string File) :=
  if writable
  then Some (<[path := {| mtime := Some now; parsed := Some data |}]> disk)
  else None.

Definition saveToCache (cfg : CollectionAnalysis) (disk : gmap string File)
    (writable : bool) (now : Z) (collectionSymbol : string)
    (data : list RawNFT) : bool * gmap string File :=
  if negb (cacheFullCollectionData cfg) then (false, disk)
  else
    match writeFileSync disk writable now (getCacheFilePath collectionSymbol)
                        (JSnapshot data) with
    | Some disk' => (true, disk')
    | None => (false, disk)
    end.

Definition loadFromCache (cfg : CollectionAnalysis) (disk : gmap string File)
    (now : Z) (collectionSymbol : string) : option Json :=
  if negb (cacheFullCollectionData cfg) then None
  else if negb (cacheExists cfg disk now collectionSymbol) then None
  else
    match disk !! getCacheFilePath collectionSymbol with
    | Some file => parsed file
    | None => None
    end.

Definition saveSeenRareNFTs (disk : gmap string File) (writable : bool)
    (now : Z) (collectionSymbol : string) (seenRareNFTs : list string)
  : bool * gmap string File :=
  match writeFileSync disk writable now (getSeenRareNFTsPath collectionSymbol)
                      (JSeen seenRareNFTs) with
  | Some disk' => (true, disk')
  | None => (false, disk)
  end.

(** [new Set(seenArray)].  A snapshot file read here is an array of objects,
    none of which is ever equal to a mint address string. *)
Definition loadSeenRareNFTs (disk : gmap string File)
    (collectionSymbol : string) : list string :=
  match disk !! getSeenRareNFTsPath collectionSymbol with
  | None => []
  | Some file =>
      match parsed file with
      | Some (JSeen seenArray) => foldl set_add [] seenArray
      | Some (JSnapshot _) => []
      | None => []
      end
  end.

(** [removable = false]: [fs.unlinkSync] throws. *)
Definition clearCache (disk : gmap string File) (removable : bool)
    (collectionSymbol : string) : bool * gmap string File :=
  let cachePath := getCacheFilePath collectionSymbol in
  match disk !! cachePath with
  | Some _ => if removable then (true, delete cachePath disk) else (false, disk)
  | None => (true, disk)
  end.

End Cache.

(* ===================================================================== *)
(** * index.js *)
(* ===================================================================== *)

Module Index.
Import Analyzer Logger MagicEden Cache.

Record Config := {
  raritySettings : RaritySettings;
  collectionAnalysis : CollectionAnalysis
}.

(** What a run meets: the endpoint, the wall clock and whether the cache
    directory takes a write, each as of the number of requests issued. *)
Record Env := {
  remote : Server;
  clock : nat → Z;
  writable : nat → bool
}.

(** The module variable [seenRareNFTs] (a [Set], in insertion order), the
    cache directory, the world, and the calls
    [sendRareSummaryDiscordNotification(newRareNFTs, collectionInfo.name)]
    made so far. *)
Record State := {
  seenRareNFTs : list string;
  disk : gmap string File;
  world : World;
  notified : list (list NFT * string)
}.

(** The elements of a parsed cache file as [normalizeNFT] sees them: a
    string has no [attributes]. *)
Definition arrayOf (j : Json) : list (option RawNFT) :=
  match j with
  | JSnapshot data => Some <$> data
  | JSeen mints => (fun _ => None) <$> mints
  end.

(** [for (const listing of listedNFTs)] *)
Fixpoint fetchListed (srv : Server) (listedNFTs : list Listing)
    (normalizedListedNFTs : list NFT) (w : World) : list NFT * World :=
  match listedNFTs with
  | [] => (normalizedListedNFTs, w)
  | listing :: rest =>
      let '(nftDetails, w') := getNFTMetadata srv (tokenMint listing) w in
      match nftDetails with
      | Some details =>
          match normalizeNFT (Some details) with
          | Some normalized =>
              fetchListed srv rest
                (normalizedListedNFTs ++
                   [set_listing normalized (listing_price listing)
                                (listing_seller listing)]) w'
          | None => fetchListed srv rest normalizedListedNFTs w'
          end
      | None => fetchListed srv rest normalizedListedNFTs w'
      end
  end.

(** The body of [rareListedNFTs.forEach]: skip a mint already seen, else push
    the item to [newRareNFTs] and add its mint to the seen set. *)
Definition noteRare (st : list string * list NFT) (nft : NFT)
  : list string * list NFT :=
  let '(seen, newRareNFTs) := st in
  if decide (mintAddress nft ∈ seen) then (seen, newRareNFTs)
  else (set_add seen (mintAddress nft), newRareNFTs ++ [nft]).

(** Lines 100-151: report the rare listed items. *)
Definition reportRare (env : Env) (collectionSymbol : string)
    (info : CollectionInfo) (rareListedNFTs : list NFT) (st : State) : State :=
  match rareListedNFTs with
  | [] => st
  | _ :: _ =>
      let '(seen, newRareNFTs) :=
        foldl noteRare (seenRareNFTs st, []) rareListedNFTs in
      let t := issued (world st) in
      let '(_, disk') :=
        saveSeenRareNFTs (disk st) (writable env t) (clock env t)
                         collectionSymbol seen in
      let notified' :=
        match newRareNFTs with
        | [] => notified st
        | _ :: _ => notified st ++ [(newRareNFTs, info_name info)]
        end in
      {| seenRareNFTs := seen; disk := disk'; world := world st;
         notified := notified' |}
  end.

Definition set_world (st : State) (w : World) : State :=
  {| seenRareNFTs := seenRareNFTs st; disk := disk st; world := w;
     notified := notified st |}.

Definition set_disk (st : State) (d : gmap string File) : State :=
  {| seenRareNFTs := seenRareNFTs st; disk := d; world := world st;
     notified := notified st |}.

(** Lines 34-51: the full collection, from the cache or from the API (and
    then saved to the cache when non-empty). *)
Definition fullCollection (fuel : nat) (cfg : Config) (env : Env)
    (collectionSymbol : string) (st : State)
  : option (list (option RawNFT) * State) :=
  let ca := collectionAnalysis cfg in
  let cachedNFTs :=
    loadFromCache ca (disk st) (clock env (issued (world st)))
                  collectionSymbol in
  match arrayOf <$> cachedNFTs with
  | Some ((_ :: _) as cached) => Some (cached, st)
  | _ =>
      match getAllCollectionNFTs fuel (remote env) (maxNFTsToFetch ca)
                                 collectionSymbol (world st) with
      | None => None
      | Some (allNFTs, w) =>
          let st := set_world st w in
          match allNFTs with
          | _ :: _ =>
              let t := issued w in
              let '(_, disk') :=
                saveToCache ca (disk st) (writable env t) (clock env t)
                            collectionSymbol allNFTs in
              Some (Some <$> allNFTs, set_disk st disk')
          | [] => Some ([], st)
          end
      end
  end.

(** One scan cycle.  [None]: a paginated fetch is still looping when [fuel]
    is used up.  An exception inside the [try] ends the cycle with the state
    reached. *)
Definition processCollection (fuel : nat) (cfg : Config) (env : Env)
    (collectionSymbol : string) (st : State) : option State :=
  let srv := remote env in
  let '(collectionInfo, w1) :=
    getCollectionInfo srv collectionSymbol (world st) in
  let st := set_world st w1 in
  match collectionInfo with
  | None => Some st
  | Some info =>
      match fullCollection fuel cfg env collectionSymbol st with
      | None => None
      | Some ([], st) => Some st
      | Some ((_ :: _) as allNFTs, st) =>
          let normalizedAllNFTs := omap normalizeNFT allNFTs in
          let traitAnalysis := countTraits normalizedAllNFTs in
          match getCollectionListings fuel srv collectionSymbol (world st) with
          | None => None
          | Some ([], w3) => Some (set_world st w3)
          | Some ((_ :: _) as listedNFTs, w3) =>
              let '(normalizedListedNFTs, w4) :=
                fetchListed srv listedNFTs [] w3 in
              let st := set_world st w4 in
              match findRareNFTs (raritySettings cfg) normalizedListedNFTs
                                 traitAnalysis with
              | Some rareListedNFTs =>
                  Some (reportRare env collectionSymbol info
                                   rareListedNFTs st)
              | None => Some st
              end
          end
      end
  end.

(** [setupIntervalRuns]: the state a process starts from. *)
Definition startup (d : gmap string File) (collectionSymbol : string)
  : State :=
  {| seenRareNFTs := loadSeenRareNFTs d collectionSymbol;
     disk := d; world := []; notified := [] |}.

(** ** The scheduler *)

(** [isScanRunning], and for the record: the calls of [processCollection]
    that have not settled, the cycles started, the runs skipped. *)
Record Scheduler := {
  isScanRunning : bool;
  active : nat;
  started : nat;
  skipped : nat
}.

Definition idle : Scheduler :=
  {| isScanRunning := false; active := 0; started := 0; skipped := 0 |}.

(** [main] up to its [await]: runs to completion when the startup code or
    the timer calls it. *)
Definition main_enter (s : Scheduler) : Scheduler :=
  if isScanRunning s then
    {| isScanRunning := isScanRunning s; active := active s;
       started := started s; skipped := S (skipped s) |}
  else
    {| isScanRunning := true; active := S (active s);
       started := S (started s); skipped := skipped s |}.

(** [main] after its [await]: [catch] when the cycle threw, then
    [finally]. *)
Definition main_leave (threw : bool) (s : Scheduler) : Scheduler :=
  {| isScanRunning := false; active := pred (active s);
     started := started s; skipped := skipped s |}.

(** What the event loop delivers: a trigger (the startup call or a timer
    tick), or the settling of a running cycle. *)
Inductive Tick :=
| Trigger
| Settled (threw : bool).

(** The event loop delivering one tick; a cycle can only settle while one
    is running. *)
Definition deliver (s : Scheduler) (tick : Tick) : option Scheduler :=
  match tick with
  | Trigger => Some (main_enter s)
  | Settled threw =>
      if decide (0 < active s) then Some (main_leave threw s) else None
  end.

Fixpoint run (ticks : list Tick) (s : Scheduler) : option Scheduler :=
  match ticks with
  | [] => Some s
  | tick :: ticks' =>
      match deliver s tick with
      | Some s' => run ticks' s'
      | None => None
      end
  end.

(** [n] scan cycles, one after the other. *)
Fixpoint cycles (fuel : nat) (cfg : Config) (env : Env)
    (collectionSymbol : string) (n : nat) (st : State) : option State :=
  match n with
  | 0 => Some st
  | S n' =>
      match processCollection fuel cfg env collectionSymbol st with
      | Some st' => cycles fuel cfg env collectionSymbol n' st'
      | None => None
      end
  end.

End Index.

Import Analyzer Logger MagicEden Cache Index.

(* ===================================================================== *)
(** * Vocabulary of the statements, and the data of the examples *)
(* ===================================================================== *)

(** The first pass of [countTraits], from any set of types. *)
Definition collectFrom (tt : list string) (nfts : list NFT) : list string :=
  foldl (fun tt nft => foldl set_add tt (obj_keys (traits nft))) tt nfts.

(** The number of items whose value for [type] is [v]. *)
Definition occurrences (nfts : list NFT) (type v : string) : nat :=
  length (filter (λ nft, traitValue nft type = v) nfts).

(** One column of the third pass. *)
Definition tallyFrom (nfts : list NFT) (type : string) (m : gmap string nat)
  : gmap string nat :=
  foldl (fun m nft =>
           let value := traitValue nft type in
           <[value := S (default 0 (m !! value))]> m)
        m nfts.

(** The counts of one table, added up. *)
Definition totalCount (table : gmap string TraitStat) : nat :=
  map_fold (fun _ st acc => count st + acc) 0 table.

(** The same before the fourth pass. *)
Definition sumCounts (m : gmap string nat) : nat :=
  map_fold (fun _ c acc => c + acc) 0 m.

(** The percentage as the specification words it: exactly
    [count / total * 100], as a fraction ... *)
Definition spec_percentage_exact (cnt total : nat) (p : float) : Prop :=
  ∃ num den, JSNumber.exact p = Some (num, den) ∧
    (num * Z.of_nat total = 100 * Z.of_nat cnt * den)%Z.

(** ... or as the unrounded double expression. *)
Definition spec_percentage_double (cnt total : nat) : float :=
  PrimFloat.mul
    (PrimFloat.div (JSNumber.of_nat cnt) (JSNumber.of_nat total))
    (JSNumber.of_Z 100).

(** The percentage as the code rounds it: the double nearest to [h / 100],
    as [parseFloat] reads the two decimals, for the integer [h] nearest to a
    hundred times the exact value of the double [count / total * 100], the
    larger one on a tie, as [toFixed(2)] prints it. *)
Definition roundedPercentage (cnt total : nat) (p : float) : Prop :=
  ∃ h : Z,
    p = PrimFloat.div (JSNumber.of_Z h) (JSNumber.of_Z 100) ∧
    ∀ num den,
      JSNumber.exact (spec_percentage_double cnt total) = Some (num, den) →
      (0 ≤ num)%Z →
      (0 < den)%Z ∧
      (2 * h * den - den ≤ 200 * num < 2 * h * den + den)%Z.

(** The stored hundredths are the integer nearest to [10000 cnt / total]:
    the check, for one pair and for every pair up to a bound. *)
Definition nearRatio (cnt total : nat) : bool :=
  let x := spec_percentage_double cnt total in
  match JSNumber.exact x with
  | Some (num, den) =>
      (0 <=? num)%Z &&
      (2 * Z.abs (JSNumber.toFixed2 x * Z.of_nat total
                  - 10000 * Z.of_nat cnt)
         <=? Z.of_nat total)%Z
  | None => false
  end.

Definition allNearRatio (bound : nat) : bool :=
  forallb (fun total =>
             forallb (fun cnt => nearRatio cnt total) (seq 1 total))
          (seq 1 bound).

Definition plainNFT (mint : string) (t : list (string * string)) : NFT :=
  {| mintAddress := mint; name := mint; image := ""; price := None;
     seller := None; tokenAddress := mint; rarity := ∅; traits := t |}.

Definition threeHats : list NFT :=
  [plainNFT "m1" [("Hat", "Red")]%string;
   plainNFT "m2" [("Hat", "Blue"); ("Eyes", "")]%string;
   plainNFT "m3" [("Eyes", "Green")]%string].

(** Every listed trait type has its table: what [countTraits] returns, and
    what [findRareNFTs] needs in order not to throw. *)
Definition wellFormed (ta : TraitAnalysis) : Prop :=
  ∀ type, type ∈ traitTypes ta → is_Some (traitCounts ta !! type).

(** [traitCounts[type][value]] for the item's value. *)
Definition statOf (tc : gmap string (gmap string TraitStat)) (nft : NFT)
    (type : string) : option TraitStat :=
  tc !! type ≫= (.!! traitValue nft type).

(** The annotation [checkTrait] writes for a stat. *)
Definition annotate (cfg : RaritySettings) (value : string)
    (st : TraitStat) : RarityDetail :=
  if oneOfOneThreshold cfg && (count st =? 1)%nat then
    {| rd_value := value; rd_count := Some 1;
       rd_percentage := Some (percentage st);
       rd_rare := true; rd_reason := Some OneOfOneTrait |}
  else if PrimFloat.leb (percentage st) (percentThreshold cfg) then
    {| rd_value := value; rd_count := Some (count st);
       rd_percentage := Some (percentage st); rd_rare := true;
       rd_reason := Some (BelowThreshold (percentThreshold cfg)) |}
  else
    {| rd_value := value; rd_count := Some (count st);
       rd_percentage := Some (percentage st); rd_rare := false;
       rd_reason := None |}.

(** The annotation it writes when the look-up found a member inherited from
    [Object.prototype] instead of a stat. *)
Definition inheritedDetail (value : string) : RarityDetail :=
  {| rd_value := value; rd_count := None; rd_percentage := None;
     rd_rare := false; rd_reason := None |}.

(** What [checkTrait] writes for the item's value of [type], if anything,
    when the table has the column. *)
Definition annotationOf (cfg : RaritySettings)
    (tc : gmap string (gmap string TraitStat)) (nft : NFT) (type : string)
  : option RarityDetail :=
  match statOf tc nft type with
  | Some st => Some (annotate cfg (traitValue nft type) st)
  | None =>
      if decide (traitValue nft type ∈ protoNames)
      then Some (inheritedDetail (traitValue nft type))
      else None
  end.

(** The test the specification puts on a stat. *)
Definition marksRare (cfg : RaritySettings) (st : TraitStat) : bool :=
  oneOfOneThreshold cfg && (count st =? 1)%nat
  || PrimFloat.leb (percentage st) (percentThreshold cfg).

(** An item one of whose listed trait types has, for the item's value, a
    stat that passes the test. *)
Definition rareItem (cfg : RaritySettings) (ta : TraitAnalysis) (nft : NFT)
  : bool :=
  existsb (fun type =>
             match statOf (traitCounts ta) nft type with
             | Some st => marksRare cfg st
             | None => false
             end)
          (traitTypes ta).

(** No listed trait type is the name of a member of [Object.prototype].
    For such a type [nft.traits[type]] may answer the inherited member
    instead of a string, and [rarityDetails[type] = ...] may store nothing,
    which [traitValue] and the table of annotations do not cover. *)
Definition plainTypes (ta : TraitAnalysis) : Prop :=
  Forall (fun type => type ∉ protoNames) (traitTypes ta).

(** No trait type and no trait value of the items is the name of a member
    of [Object.prototype].  For such a name the look-ups of [countTraits]
    answer the inherited member, and the count becomes a string. *)
Definition plainNames (nfts : list NFT) : Prop :=
  Forall (fun nft =>
            Forall (fun kv => (fst kv ∉ protoNames) ∧ (snd kv ∉ protoNames))
                   (traits nft))
         nfts.

(** An item after [findRareNFTs] has visited it. *)
Definition visited (cfg : RaritySettings) (ta : TraitAnalysis) (nft : NFT)
  : NFT :=
  match checkTraits cfg ta nft with
  | Some (true, rarityDetails) => set_rarity nft rarityDetails
  | _ => nft
  end.

(** What [checkNFT] pushes for an item, if anything. *)
Definition pushed (cfg : RaritySettings) (ta : TraitAnalysis) (nft : NFT)
  : option NFT :=
  match checkTraits cfg ta nft with
  | Some (true, rarityDetails) => Some (set_rarity nft rarityDetails)
  | _ => None
  end.

Definition defaultRarity : RaritySettings :=
  {| oneOfOneThreshold := true; percentThreshold := 1%float |}.

Definition greenHat : NFT := plainNFT "m4" [("Hat", "Green")]%string.

(** An item whose hat is named like a member of [Object.prototype]. *)
Definition constructorHat : NFT :=
  plainNFT "m5" [("Hat", "constructor"); ("Eyes", "Green")]%string.

(** An HTTP 429 response, carrying the request's config as axios responses
    do. *)
Definition rateLimited (err : AxiosError) : Prop :=
  ∃ resp, response err = Some resp ∧ status resp = 429%Z ∧
          is_Some (resp_config resp).

(** A failure with any other status, or without a response. *)
Definition otherFailure (err : AxiosError) : Prop :=
  ∀ resp, response err = Some resp → status resp ≠ 429%Z.

Definition err429 : AxiosError :=
  {| response := Some {| status := 429; statusText := "Too Many Requests";
                         resp_config := Some "https://api/..."%string |};
     message := "Request failed with status code 429" |}.

Definition someToken (mint : string) : RawNFT :=
  {| raw_mintAddress := mint; raw_name := mint; raw_image := "";
     raw_price := None; raw_seller := None; raw_tokenAddress := mint;
     raw_attributes := Some [] |}.

(** An endpoint that answers the first [n] requests with 429 and every later
    one with an empty page (a token record, for a token). *)
Definition limitedFor (n : nat) : Server :=
  {| collectionInfo i s :=
       if i <? n then inr err429
       else inl (Some {| info_symbol := s; info_name := s |});
     collectionStats i _ :=
       if i <? n then inr err429
       else inl (Some {| floorPrice := None; listedCount := None |});
     listings i _ _ _ := if i <? n then inr err429 else inl (Some []);
     activities i _ _ _ := if i <? n then inr err429 else inl (Some []);
     token i mint := if i <? n then inr err429 else inl (Some (someToken mint))
  |}.

(** An endpoint that answers every request with 429, forever. *)
Definition always429 : Server :=
  {| collectionInfo _ _ := inr err429;
     collectionStats _ _ := inr err429;
     listings _ _ _ _ := inr err429;
     activities _ _ _ _ := inr err429;
     token _ _ := inr err429 |}.

(** [n] rounds of request and 5 s wait, then the request once more. *)
Fixpoint retried (n : nat) (r : Request) : World :=
  match n with
  | 0 => [Get r]
  | S n' => Get r :: Wait 5000 :: retried n' r
  end.

Definition singleFlight (s : Scheduler) : Prop :=
  active s ≤ 1 ∧ (isScanRunning s = true ↔ active s = 1).

(** The mint addresses handed to the sink by a list of notifications. *)
Definition notifiedMints (batches : list (list NFT * string)) : list string :=
  batches ≫= (fun b => mintAddress <$> fst b).

(** The seen-set file holds what the process has in memory. *)
Definition persisted (symbol : string) (st : State) : Prop :=
  NoDup (seenRareNFTs st) ∧
  loadSeenRareNFTs (disk st) symbol = seenRareNFTs st.

(** [st'] comes after [st]: the seen set has grown by exactly the mints
    notified in between, each notified once and none seen before. *)
Definition extends (st st' : State) : Prop :=
  ∃ batches,
    notified st' = notified st ++ batches ∧
    NoDup (notifiedMints batches) ∧
    (∀ m, m ∈ seenRareNFTs st' ↔
          m ∈ seenRareNFTs st ∨ m ∈ notifiedMints batches) ∧
    (∀ m, m ∈ notifiedMints batches → m ∉ seenRareNFTs st).

(** A collection of three tokens, of which [m1] is listed. *)
Definition demoToken (mint : string) : RawNFT :=
  {| raw_mintAddress := mint; raw_name := mint; raw_image := "";
     raw_price := None; raw_seller := None; raw_tokenAddress := mint;
     raw_attributes :=
       Some [ {| trait_type := "Hat";
                 attr_value := if decide (mint = "m1"%string)
                               then "Crown"%string else "Cap"%string |} ] |}.

Definition demoServer : Server :=
  {| collectionInfo _ s :=
       inl (Some {| info_symbol := s; info_name := "Demo" |});
     collectionStats _ _ :=
       inl (Some {| floorPrice := None; listedCount := None |});
     listings _ _ offset _ :=
       if offset =? 0
       then inl (Some [ {| tokenMint := "m1"; listing_price := Some 5%Z;
                           listing_seller := None |} ])
       else inl (Some []);
     activities _ _ offset _ :=
       if offset =? 0
       then inl (Some [ {| act_tokenMint := Some "m1"%string |};
                        {| act_tokenMint := Some "m2"%string |};
                        {| act_tokenMint := Some "m1"%string |};
                        {| act_tokenMint := Some "m3"%string |} ])
       else inl (Some []);
     token _ mint := inl (Some (demoToken mint)) |}.

Definition demoEnv : Env :=
  {| remote := demoServer; clock := fun _ => 0%Z; writable := fun _ => true |}.

Definition demoConfig : Config :=
  {| raritySettings := defaultRarity;
     collectionAnalysis :=
       {| cacheFullCollectionData := true; cacheExpireHours := 168;
          maxNFTsToFetch := 100 |} |}.

(* ===================================================================== *)
(** * index.js, the interrupt handler *)
(* ===================================================================== *)


(* ===================================================================== *)
(** * utils/notifications.js *)
(* ===================================================================== *)

Module Notifications.

(** [config.notifications.discord] *)
Record Discord := {
  enabled : bool;
  webhookUrl : option string;
  username : option string
}.

(** [config.notifications]; the section and its [discord] entry may each be
    missing, which the optional chaining [?.] allows for. *)
Record Settings := { discord : option Discord }.

(** A string used as a condition: [undefined] and [''] are falsy. *)
Definition truthy (s : option string) : option string :=
  match s with
  | Some s => if decide (s = ""%string) then None else Some s
  | None => None
  end.

(** The two texts that interpolate a JavaScript number keep the number
    instead of its decimal rendering. *)
Inductive PriceText :=
| InSOL (price : Z)        (* `${nft.price / 1000000000} SOL` *)
| NotListed.               (* 'Not listed' *)

(** [rareTraits.join('\n')], one line
    [**trait**: value (percentage%, reason)] per entry, or ['None'].  The
    lines are kept as the table of the entries they are made from. *)
Inductive TraitsText :=
| RareLines (rareTraits : gmap string RarityDetail)
| NoRareTraits.

Record ItemEmbed := {
  item_title : string;
  item_url : string;
  item_thumbnail : string;
  item_price : PriceText;          (* fields[0], 'Price' *)
  item_rareTraits : TraitsText;    (* fields[1], 'Rare Traits' *)
  item_color : Z
}.

Record SummaryEmbed := {
  summary_title : string;
  summary_description : string;
  summary_color : Z;
  summary_footer : string * string;   (* text, icon_url *)
  summary_timestamp : Z               (* [new Date()], in milliseconds *)
}.

Inductive Embed :=
| Summary (e : SummaryEmbed)
| Item (e : ItemEmbed).

(** The body of the POST request. *)
Record Payload := {
  p_username : string;
  p_content : string;
  p_embeds : list Embed
}.

Definition newline : string := String (Ascii.ascii_of_nat 10) EmptyString.

(** The callback of [nfts.slice(0, 10).map]. *)
Definition itemEmbed (nft : NFT) : ItemEmbed :=
  let price :=
    match price nft with
    | Some p => if (p =? 0)%Z then NotListed else InSOL p
    | None => NotListed
    end in
  let rareTraits :=
    filter (fun entry => rd_rare (snd entry) = true) (rarity nft) in
  {| item_title := name nft;
     item_url := "https://magiceden.io/item-details/" +:+ mintAddress nft;
     item_thumbnail := image nft;
     item_price := price;
     item_rareTraits :=
       if 0 <? size rareTraits then RareLines rareTraits else NoRareTraits;
     item_color := 0x00FFFF |}.

(** `Found ${nfts.length} rare NFTs in collection **${collectionName}**` *)
Definition foundText (n : nat) (collectionName : string) : string :=
  "Found " +:+ pretty n +:+ " rare NFTs in collection **"
           +:+ collectionName +:+ "**".

(** `\n(Showing 10 of ${nfts.length} rare NFTs)` *)
Definition showingText (n : nat) : string :=
  newline +:+ "(Showing 10 of " +:+ pretty n +:+ " rare NFTs)".

(** [sendRareSummaryDiscordNotification]: the answer and the POST requests
    made.  [post url payload] tells whether the request of [axios.post] is
    fulfilled; a rejected one is caught and answered with [false]. *)
Definition sendRareSummaryDiscordNotification
    (notifications : option Settings) (post : string → Payload → bool)
    (now : Z) (nfts : list NFT) (collectionName : string)
  : bool * list (string * Payload) :=
  match notifications ≫= discord with
  | None => (false, [])
  | Some d =>
      if negb (enabled d) || (length nfts =? 0) then (false, [])
      else
        match truthy (webhookUrl d) with
        | None => (false, [])
        | Some url =>
            let embeds := itemEmbed <$> take 10 nfts in
            let description := foundText (length nfts) collectionName in
            let description :=
              if 10 <? length nfts
              then description +:+ showingText (length nfts)
              else description in
            let summaryEmbed :=
              {| summary_title := "Rare NFT Summary for " +:+ collectionName;
                 summary_description := description;
                 summary_color := 0x00FFFF;
                 summary_footer :=
                   ("Rare Sniper"%string,
                    "https://magiceden.io/favicon.ico"%string);
                 summary_timestamp := now |} in
            let payload :=
              {| p_username :=
                   default "Rare Sniper"%string (truthy (username d));
                 p_content := foundText (length nfts) collectionName;
                 p_embeds := Summary summaryEmbed :: (Item <$> embeds) |} in
            (post url payload, [(url, payload)])
        end
  end.

End Notifications.

Import Notifications.

(* ===================================================================== *)
(** * Vocabulary of the further properties *)
(* ===================================================================== *)

(** One key comes before another in the ascending order of array indices. *)
Definition indexLt (a b : string) : Prop :=
  match arrayIndex a, arrayIndex b with
  | Some i, Some j => (i < j)%N
  | _, _ => False
  end.

(** The keys that are neither array indices nor [__proto__], each once, in
    the order of first appearance. *)
Definition stringKeys (names : list string) : list string :=
  foldl set_add []
        (filter (fun k => arrayIndex k = None ∧ k ≠ "__proto__"%string)
                names).

(** [obj_insert_index], on the keys alone. *)
Fixpoint insert_key (keys : list string) (i : N) (k : string)
  : list string :=
  match keys with
  | [] => [k]
  | k' :: keys' =>
      match arrayIndex k' with
      | Some j => if (j <? i)%N then k' :: insert_key keys' i k else k :: keys
      | None => k :: keys
      end
  end.

(** The same settings with the one-of-one rule switched on. *)
Definition withOneOfOne (cfg : RaritySettings) : RaritySettings :=
  {| oneOfOneThreshold := true; percentThreshold := percentThreshold cfg |}.

(** An endpoint that serves the listings of a collection by offset and never
    fails. *)
Definition servesListings (srv : Server) (symbol : string)
    (pages : nat → list Listing) : Prop :=
  ∀ i offset, listings srv i symbol offset limit = inl (Some (pages offset)).

(** The pages at offsets [j * limit] for [n] consecutive [j] from [from]. *)
Definition pagesFrom (pages : nat → list Listing) (from n : nat)
  : list Listing :=
  seq from n ≫= (fun j => pages (j * limit)).

Definition pageRequests (symbol : string) (from n : nat) : World :=
  (fun j => Get (GetListings symbol (j * limit) limit)) <$> seq from n.

(** An endpoint whose token records carry the mint address they were asked
    for. *)
Definition answersMint (srv : Server) : Prop :=
  ∀ i mint nft, token srv i mint = inl (Some nft) → raw_mintAddress nft = mint.

(** Two pages of listings: a full one and a single listing. *)
Definition twoPages (offset : nat) : list Listing :=
  let l := {| tokenMint := "m"; listing_price := None;
              listing_seller := None |} in
  if offset =? 0 then replicate limit l else [l].

Definition twoPageServer : Server :=
  {| collectionInfo _ _ := inl None; collectionStats _ _ := inl None;
     listings _ _ offset _ := inl (Some (twoPages offset));
     activities _ _ _ _ := inl None; token _ _ := inl None |}.

(** [w'] continues [w] by events that all satisfy [P]. *)
Definition continues (P : Event → Prop) (w w' : World) : Prop :=
  ∃ new, w' = w ++ new ∧ Forall P new.

(** Not a request for a page of activities. *)
Definition notActivities (e : Event) : Prop :=
  ∀ symbol offset lim, e ≠ Get (GetActivities symbol offset lim).

(** An item carries at least one annotation marked rare. *)
Definition hasRareTrait (nft : NFT) : Prop :=
  ∃ type d, rarity nft !! type = Some d ∧ rd_rare d = true.

(** The item embeds of a payload, in order. *)
Definition itemEmbeds (p : Payload) : list ItemEmbed :=
  omap (fun e => match e with Item i => Some i | Summary _ => None end)
       (p_embeds p).

(** The notifier is switched on and has an address to post to. *)
Definition postsTo (notifications : option Settings) (url : string) : Prop :=
  ∃ d, notifications ≫= discord = Some d ∧ enabled d = true ∧
       truthy (webhookUrl d) = Some url.

(** A notifier that posts to a fixed address, under the default name. *)
Definition demoNotifications : option Settings :=
  Some {| discord :=
            Some {| enabled := true;
                    webhookUrl := Some "https://discord.test/hook"%string;
                    username := None |} |}.

(** The state the demo process is in after its first cycle. *)
Definition afterFirstCycle : State :=
  default (startup ∅ "demo")
          (processCollection 1 demoConfig demoEnv "demo" (startup ∅ "demo")).

(* ===================================================================== *)
(** * Properties *)
(* ===================================================================== *)

(** ** The embedding at work *)

Section Examples.

Example normalizeNFT_no_attributes :
  normalizeNFT None = None ∧
  normalizeNFT (Some {| raw_mintAddress := "m"; raw_name := "n";
                        raw_image := ""; raw_price := None;
                        raw_seller := None; raw_tokenAddress := "t";
                        raw_attributes := None |}) = None.
Proof. split; reflexivity. Qed.

(** A repeated [trait_type] keeps its place and takes the later value. *)
Example normalizeNFT_repeated_trait :
  traits <$>
    normalizeNFT
      (Some {| raw_mintAddress := "m"; raw_name := "n"; raw_image := "";
               raw_price := None; raw_seller := None; raw_tokenAddress := "t";
               raw_attributes :=
                 Some [ {| trait_type := "Hat"; attr_value := "Red" |};
                        {| trait_type := "Eyes"; attr_value := "Blue" |};
                        {| trait_type := "Hat"; attr_value := "Cap" |} ] |})
  = Some [("Hat", "Cap"); ("Eyes", "Blue")]%string.
Proof. reflexivity. Qed.

(** 1 of 3 is stored as 33.33, 1 of 32 (3.125, a tie) as 3.13, 3 of 3 as
    100. *)
Example percentageOf_rounds :
  percentageOf 1 3 = JSNumber.parseFloat_hundredths 3333 ∧
  percentageOf 1 32 = JSNumber.parseFloat_hundredths 313 ∧
  percentageOf 3 3 = JSNumber.of_Z 100 ∧
  percentageOf 1 4 = JSNumber.of_Z 25.
Proof. repeat split; vm_compute; reflexivity. Qed.

(** The item without eyes and the item with the empty string for eyes both
    count as ["None"]. *)
Example countTraits_threeHats :
  traitTypes (countTraits threeHats) = ["Hat"; "Eyes"]%string ∧
  traitCounts (countTraits threeHats) !! "Eyes"%string ≫= (.!! "None"%string)
    = Some {| count := 2; percentage := percentageOf 2 3 |} ∧
  traitCounts (countTraits threeHats) !! "Hat"%string ≫= (.!! "None"%string)
    = Some {| count := 1; percentage := percentageOf 1 3 |} ∧
  traitCounts (countTraits threeHats) !! "Hat"%string ≫= (.!! "Green"%string)
    = None.
Proof. repeat split; vm_compute; reflexivity. Qed.

(** The order of [traitTypes] follows the order of the items. *)
Example countTraits_traitTypes_order :
  traitTypes (countTraits (rev threeHats)) = ["Eyes"; "Hat"]%string.
Proof. vm_compute. reflexivity. Qed.

(** Two pages: a full one, then a short one; the second request asks for
    offset 500. *)
Example getCollectionListings_two_pages :
  let l := {| tokenMint := "m"; listing_price := None;
              listing_seller := None |} in
  let srv :=
    {| collectionInfo _ _ := inl None; collectionStats _ _ := inl None;
       listings _ _ offset _ :=
         inl (Some (if offset =? 0 then replicate limit l else [l]));
       activities _ _ _ _ := inl None; token _ _ := inl None |} in
  getCollectionListings 2 srv "demo" [] =
  Some (replicate limit l ++ [l],
        [Get (GetListings "demo" 0 500); Get (GetListings "demo" 500 500)]).
Proof. vm_compute. reflexivity. Qed.

(** With [maxNFTsToFetch = 2] the enumeration stops after two tokens. *)
Example getAllCollectionNFTs_capped :
  getAllCollectionNFTs 1 demoServer 2 "demo" [] =
  Some ([demoToken "m1"; demoToken "m2"],
        [Get (GetActivities "demo" 0 500); Get (GetToken "m1");
         Get (GetToken "m2")]).
Proof. vm_compute. reflexivity. Qed.

(** The first cycle enumerates the collection, finds the crown of [m1] to be
    one of one and notifies it; the second cycle reads the snapshot from the
    cache, meets [m1] again and notifies nothing. *)
Example processCollection_demo :
  (fun st => (seenRareNFTs st, world st, notifiedMints (notified st))) <$>
    cycles 1 demoConfig demoEnv "demo" 2 (startup ∅ "demo")
  = Some (["m1"],
          [Get (GetCollection "demo"); Get (GetActivities "demo" 0 500);
           Get (GetToken "m1"); Get (GetToken "m2"); Get (GetToken "m3");
           Get (GetListings "demo" 0 500); Get (GetToken "m1");
           Get (GetCollection "demo"); Get (GetListings "demo" 0 500);
           Get (GetToken "m1")],
          ["m1"])%string.
Proof. vm_compute. reflexivity. Qed.

End Examples.

Section CountTraitsFacts.

Lemma elem_of_set_add (s : list string) (x y : string) :
  y ∈ set_add s x ↔ y ∈ s ∨ y = x.
Proof.
  unfold set_add. case_decide as Hin.
  - split; [by left | intros [?| ->]; done].
  - rewrite elem_of_app, list_elem_of_singleton. done.
Qed.

Lemma NoDup_set_add (s : list string) (x : string) :
  NoDup s → NoDup (set_add s x).
Proof.
  intros Hs. unfold set_add. case_decide as Hin; [done|].
  apply NoDup_app. split_and!; [done | | apply NoDup_singleton].
  intros y Hy ->%list_elem_of_singleton. done.
Qed.

Lemma elem_of_foldl_set_add (l s : list string) (y : string) :
  y ∈ foldl set_add s l ↔ y ∈ s ∨ y ∈ l.
Proof.
  revert s. induction l as [|x l IH]; intros s; simpl.
  - rewrite elem_of_nil. tauto.
  - rewrite IH, elem_of_set_add, elem_of_cons. tauto.
Qed.

Lemma NoDup_foldl_set_add (l s : list string) :
  NoDup s → NoDup (foldl set_add s l).
Proof.
  revert s. induction l as [|x l IH]; intros s Hs; simpl; [done|].
  by apply IH, NoDup_set_add.
Qed.

Lemma elem_of_collectFrom (nfts : list NFT) (tt : list string) (y : string) :
  y ∈ collectFrom tt nfts ↔
  y ∈ tt ∨ ∃ nft, nft ∈ nfts ∧ y ∈ obj_keys (traits nft).
Proof.
  revert tt. induction nfts as [|nft nfts IH]; intros tt; simpl.
  - split; [by left | intros [?|(? & []%elem_of_nil & _)]; done].
  - unfold collectFrom in *. simpl. rewrite IH, elem_of_foldl_set_add.
    split.
    + intros [[?|?]|(n & ? & ?)];
        [by left | right; exists nft | right; exists n];
        (split; [|done]); [left | by right].
    + intros [?|(n & [->|?]%elem_of_cons & ?)];
        [by left; left | by left; right | right; by exists n].
Qed.

Lemma NoDup_collectFrom (nfts : list NFT) (tt : list string) :
  NoDup tt → NoDup (collectFrom tt nfts).
Proof.
  revert tt. induction nfts as [|nft nfts IH]; intros tt Htt; simpl; [done|].
  by apply IH, NoDup_foldl_set_add.
Qed.

Lemma elem_of_collectTraitTypes (nfts : list NFT) (y : string) :
  y ∈ collectTraitTypes nfts ↔
  ∃ nft, nft ∈ nfts ∧ y ∈ obj_keys (traits nft).
Proof.
  change (collectTraitTypes nfts) with (collectFrom [] nfts).
  rewrite elem_of_collectFrom, elem_of_nil. tauto.
Qed.

Lemma NoDup_collectTraitTypes (nfts : list NFT) :
  NoDup (collectTraitTypes nfts).
Proof. apply (NoDup_collectFrom nfts []), NoDup_nil_2. Qed.

End CountTraitsFacts.

Section CountValuesFacts.

Lemma foldl_insert_lookup {V} (g : string → V) (tt : list string)
    (acc : gmap string V) (type : string) :
  foldl (fun acc t => <[t := g t]> acc) acc tt !! type =
  if decide (type ∈ tt) then Some (g type) else acc !! type.
Proof.
  revert acc. induction tt as [|t tt IH]; intros acc.
  - rewrite decide_False; [done | apply not_elem_of_nil].
  - cbn [foldl]. rewrite IH. destruct (decide (type ∈ tt)) as [Hin|Hin].
    + rewrite decide_True; [done | by right].
    + destruct (decide (t = type)) as [->|Hne].
      * rewrite decide_True; [by rewrite lookup_insert_eq | by left].
      * rewrite decide_False; [by rewrite lookup_insert_ne|].
        intros [?|?]%elem_of_cons; congruence.
Qed.

Lemma initCounts_lookup (tt : list string) (type : string) :
  initCounts tt !! type = if decide (type ∈ tt) then Some ∅ else None.
Proof.
  unfold initCounts.
  rewrite (foldl_insert_lookup (fun _ => (∅ : gmap string nat))).
  by rewrite lookup_empty.
Qed.

Lemma increment_each_lookup (f : string → string) (tt : list string)
    (tc : gmap string (gmap string nat)) (type : string) :
  NoDup tt →
  foldl (fun tc t => increment tc t (f t)) tc tt !! type =
  if decide (type ∈ tt)
  then (fun m => <[f type := S (default 0 (m !! f type))]> m) <$> tc !! type
  else tc !! type.
Proof.
  intros Hnd. revert tc.
  induction Hnd as [|t tt Hnotin Hnd IH]; intros tc.
  - rewrite decide_False; [done | apply not_elem_of_nil].
  - cbn [foldl]. rewrite IH. unfold increment. rewrite lookup_alter.
    destruct (decide (t = type)) as [->|Hne].
    + rewrite (decide_False _ _ Hnotin). rewrite decide_True; [done | by left].
    + destruct (decide (type ∈ tt)) as [Hin|Hin].
      * rewrite decide_True; [done | by right].
      * rewrite decide_False; [done|].
        intros [?|?]%elem_of_cons; congruence.
Qed.

Lemma countValues_lookup (tt : list string) (nfts : list NFT)
    (tc : gmap string (gmap string nat)) (type : string) :
  NoDup tt →
  countValues tt nfts tc !! type =
  if decide (type ∈ tt) then tallyFrom nfts type <$> tc !! type
  else tc !! type.
Proof.
  intros Hnd. revert tc. induction nfts as [|nft nfts IH]; intros tc.
  - cbn. case_decide; [|done]. by destruct (tc !! type).
  - unfold countValues in *. cbn [foldl]. rewrite IH.
    rewrite (increment_each_lookup (traitValue nft)) by done.
    case_decide; [|done]. by destruct (tc !! type).
Qed.

Lemma occurrences_cons (nft : NFT) (nfts : list NFT) (type v : string) :
  occurrences (nft :: nfts) type v =
  (if decide (traitValue nft type = v) then 1 else 0) + occurrences nfts type v.
Proof.
  unfold occurrences. rewrite filter_cons. by case_decide.
Qed.

Lemma tallyFrom_lookup (nfts : list NFT) (type v : string)
    (m : gmap string nat) :
  tallyFrom nfts type m !! v =
  match m !! v with
  | Some c => Some (c + occurrences nfts type v)
  | None =>
      if decide (occurrences nfts type v = 0) then None
      else Some (occurrences nfts type v)
  end.
Proof.
  revert m. induction nfts as [|nft nfts IH]; intros m.
  - cbn. destruct (m !! v); [f_equal; unfold occurrences; simpl; lia | done].
  - unfold tallyFrom in *. cbn [foldl].
    rewrite IH, occurrences_cons, lookup_insert.
    destruct (decide (traitValue nft type = v)) as [->|Hne].
    + destruct (m !! v) as [c|]; cbn [default].
      * f_equal. unfold id. lia.
      * rewrite decide_False by lia. f_equal.
    + destruct (m !! v); done.
Qed.

Lemma tally_lookup (nfts : list NFT) (type v : string) :
  tallyFrom nfts type ∅ !! v =
  if decide (occurrences nfts type v = 0) then None
  else Some (occurrences nfts type v).
Proof. by rewrite tallyFrom_lookup, lookup_empty. Qed.

Lemma countTraits_lookup (nfts : list NFT) (type : string) :
  traitCounts (countTraits nfts) !! type =
  if decide (type ∈ collectTraitTypes nfts)
  then Some (mkStat (length nfts) <$> tallyFrom nfts type ∅)
  else None.
Proof.
  unfold countTraits, calcPercentages. simpl.
  rewrite (foldl_insert_lookup
             (fun t => mkStat (length nfts) <$>
                default ∅ (countValues (collectTraitTypes nfts) nfts
                             (initCounts (collectTraitTypes nfts)) !! t))).
  rewrite lookup_empty. case_decide as Hin; [|done].
  rewrite countValues_lookup by apply NoDup_collectTraitTypes.
  rewrite decide_True, initCounts_lookup, decide_True by done. done.
Qed.

Lemma countTraits_stat (nfts : list NFT) (type v : string) :
  type ∈ collectTraitTypes nfts →
  traitCounts (countTraits nfts) !! type ≫= (.!! v) =
  if decide (occurrences nfts type v = 0) then None
  else Some (mkStat (length nfts) (occurrences nfts type v)).
Proof.
  intros Hin. rewrite countTraits_lookup, decide_True by done. simpl.
  rewrite lookup_fmap, tally_lookup. by case_decide.
Qed.
End CountValuesFacts.

Section CountTraitsTotals.

Lemma sumCounts_insert_None (m : gmap string nat) (v : string) (c : nat) :
  m !! v = None → sumCounts (<[v := c]> m) = c + sumCounts m.
Proof.
  intros Hv. unfold sumCounts.
  rewrite map_fold_insert_L; [done | intros; lia | done].
Qed.

Lemma sumCounts_increment (m : gmap string nat) (v : string) :
  sumCounts (<[v := S (default 0 (m !! v))]> m) = S (sumCounts m).
Proof.
  destruct (m !! v) as [c|] eqn:Hv; cbn [default].
  - rewrite <-(insert_delete_eq m v (S c)).
    rewrite sumCounts_insert_None by apply lookup_delete_eq.
    rewrite <-(insert_delete_id m v c) at 2 by done.
    rewrite sumCounts_insert_None by apply lookup_delete_eq. unfold id. lia.
  - by rewrite sumCounts_insert_None.
Qed.

Lemma sumCounts_tallyFrom (nfts : list NFT) (type : string)
    (m : gmap string nat) :
  sumCounts (tallyFrom nfts type m) = sumCounts m + length nfts.
Proof.
  revert m. induction nfts as [|nft nfts IH]; intros m.
  - cbn. lia.
  - unfold tallyFrom in *. cbn [foldl length].
    rewrite IH, sumCounts_increment. lia.
Qed.

Lemma totalCount_mkStat (n : nat) (m : gmap string nat) :
  totalCount (mkStat n <$> m) = sumCounts m.
Proof. unfold totalCount. by rewrite map_fold_fmap. Qed.

Lemma occurrences_Permutation (nfts nfts' : list NFT) (type v : string) :
  nfts ≡ₚ nfts' → occurrences nfts type v = occurrences nfts' type v.
Proof. intros Hp. unfold occurrences. by rewrite Hp. Qed.

Lemma collectTraitTypes_Permutation (nfts nfts' : list NFT) :
  nfts ≡ₚ nfts' → collectTraitTypes nfts ≡ₚ collectTraitTypes nfts'.
Proof.
  intros Hp. apply NoDup_Permutation; try apply NoDup_collectTraitTypes.
  intros type. rewrite !elem_of_collectTraitTypes.
  by setoid_rewrite Hp.
Qed.

End CountTraitsTotals.

Section CountTraitsClaims.

(** [toFixed2] answers the integer nearest to [100 x], the larger one on a
    tie, for every finite [x >= 0]. *)
Lemma toFixed2_nearest (x : float) (num den : Z) :
  JSNumber.exact x = Some (num, den) → (0 ≤ num)%Z →
  (0 < den)%Z ∧
  (2 * JSNumber.toFixed2 x * den - den ≤ 200 * num
   < 2 * JSNumber.toFixed2 x * den + den)%Z.
Proof.
  unfold JSNumber.exact, JSNumber.toFixed2.
  destruct (Prim2SF x) as [s| | |s m e]; try done.
  - intros [= <- <-] _. lia.
  - destruct (Z.leb_spec 0 e) as [He|He]; intros [= <- <-] Hnum.
    + assert (Hp : (0 < 2 ^ e)%Z) by (apply Z.pow_pos_nonneg; lia).
      destruct s; [nia|]. lia.
    + assert (Hp : (0 < 2 ^ (- e))%Z) by (apply Z.pow_pos_nonneg; lia).
      destruct s; [lia|]. split; [done|].
      replace (1 - e)%Z with (Z.succ (- e)) by lia.
      rewrite Z.pow_succ_r by lia.
      set (D := (2 ^ (- e))%Z) in *.
      pose proof (Z.div_mod (200 * Z.pos m + D) (2 * D) ltac:(lia)) as Hdm.
      pose proof (Z.mod_pos_bound (200 * Z.pos m + D) (2 * D) ltac:(lia))
        as Hmod.
      set (q := ((200 * Z.pos m + D) / (2 * D))%Z) in *.
      nia.
Qed.

Lemma percentageOf_rounded (cnt total : nat) :
  roundedPercentage cnt total (percentageOf cnt total).
Proof.
  exists (JSNumber.toFixed2 (spec_percentage_double cnt total)).
  split; [done|]. apply toFixed2_nearest.
Qed.

(** For collections of up to 64 items the double [count / total * 100] is
    finite and the stored percentage is the two-decimal number nearest to
    the true ratio. *)
Lemma percentageOf_near_ratio (cnt total : nat) :
  total ≤ 64 → 1 ≤ cnt ≤ total →
  ∃ h num den,
    percentageOf cnt total
      = PrimFloat.div (JSNumber.of_Z h) (JSNumber.of_Z 100) ∧
    JSNumber.exact (spec_percentage_double cnt total) = Some (num, den) ∧
    (0 ≤ num)%Z ∧
    (2 * Z.abs (h * Z.of_nat total - 10000 * Z.of_nat cnt)
     ≤ Z.of_nat total)%Z.
Proof.
  intros Ht Hc.
  assert (Hall : allNearRatio 64 = true) by (vm_compute; reflexivity).
  unfold allNearRatio in Hall. rewrite forallb_forall in Hall.
  specialize (Hall total). rewrite forallb_forall in Hall.
  assert (Hn : nearRatio cnt total = true).
  { apply Hall; apply in_seq; lia. }
  unfold nearRatio in Hn.
  destruct (JSNumber.exact (spec_percentage_double cnt total))
    as [[num den]|] eqn:Hex; [|done].
  apply andb_true_iff in Hn as [H0 Hn].
  exists (JSNumber.toFixed2 (spec_percentage_double cnt total)), num, den.
  split_and!; [done | done | lia | lia].
Qed.

(** C3, as stated, fails: with three items of which one wears a red hat the
    stored percentage is 33.33 (the double nearest to it,
    [0x1.0aa3d70a3d70ap+5]), which is neither the fraction 100/3 nor the
    double that [1 / 3 * 100] evaluates to. *)
Lemma countTraits_percentage_not_exact :
  ∃ st, traitCounts (countTraits threeHats) !! "Hat"%string
          ≫= (.!! "Red"%string) = Some st ∧
        count st = 1 ∧
        percentage st = 0x1.0aa3d70a3d70ap+5%float ∧
        ¬ spec_percentage_exact (count st) (length threeHats)
            (percentage st) ∧
        percentage st ≠ spec_percentage_double (count st) (length threeHats).
Proof.
  eexists. split; [vm_compute; reflexivity|]. split; [reflexivity|].
  split; [vm_compute; reflexivity|]. split.
  - intros (num & den & Hex & Heq). vm_compute in Hex.
    injection Hex as <- <-. vm_compute in Heq. discriminate.
  - intros H. apply (f_equal Prim2SF) in H. vm_compute in H. discriminate.
Qed.

(** C3 (amended): for items none of whose trait types and trait values is
    named like a member of [Object.prototype], the tables of [countTraits]
    hold, for every observed trait type and every value some item has for
    it (["None"] for an item without the trait), the number of such items,
    at least 1, and that number as a percentage of all items ROUNDED TO TWO
    DECIMALS, [parseFloat(((count / total) * 100).toFixed(2))]: the double
    nearest to [h / 100] for the integer [h] nearest to a hundred times the
    double [count / total * 100]; the counts of a table add up to the number
    of items; no items, no tables. *)
Theorem countTraits_tables (nfts : list NFT) :
  plainNames nfts →
  (∀ type, type ∈ traitTypes (countTraits nfts) ↔
           ∃ nft, nft ∈ nfts ∧ type ∈ obj_keys (traits nft)) ∧
  (∀ type, type ∉ traitTypes (countTraits nfts) →
           traitCounts (countTraits nfts) !! type = None) ∧
  (∀ type, type ∈ traitTypes (countTraits nfts) →
     ∃ table, traitCounts (countTraits nfts) !! type = Some table ∧
       (∀ v st, table !! v = Some st ↔
          1 ≤ occurrences nfts type v ∧
          st = {| count := occurrences nfts type v;
                  percentage :=
                    percentageOf (occurrences nfts type v) (length nfts) |}) ∧
       (∀ v st, table !! v = Some st →
          roundedPercentage (count st) (length nfts) (percentage st)) ∧
       totalCount table = length nfts) ∧
  (∀ nft type, type ∉ protoNames → obj_get (traits nft) type = None →
               traitValue nft type = "None"%string) ∧
  countTraits [] = {| traitCounts := ∅; traitTypes := [] |}.
Proof.
  intros _. split_and!.
  - intros type. apply elem_of_collectTraitTypes.
  - intros type Hnot. rewrite countTraits_lookup. by rewrite decide_False.
  - intros type Hin. eexists. split.
    { rewrite countTraits_lookup. by rewrite decide_True. }
    split_and!.
    + intros v st. rewrite lookup_fmap, tally_lookup.
      case_decide as Hz; cbn; [split; [done | lia]|].
      split; [intros [= <-]; split; [lia | done] | intros [_ ->]; done].
    + intros v st. rewrite lookup_fmap, tally_lookup.
      case_decide as Hz; cbn; [done|]. intros [= <-]. cbn.
      apply percentageOf_rounded.
    + rewrite totalCount_mkStat, sumCounts_tallyFrom.
      unfold sumCounts. by rewrite map_fold_empty.
  - intros nft type _ Hnone. unfold traitValue. by rewrite Hnone.
  - reflexivity.
Qed.

Lemma countTraits_tables_witness :
  plainNames threeHats ∧
  ∃ table,
    traitCounts (countTraits threeHats) !! "Hat"%string = Some table ∧
    (∀ v st, table !! v = Some st →
       roundedPercentage (count st) (length threeHats) (percentage st)) ∧
    totalCount table = length threeHats.
Proof.
  assert (Hp : plainNames threeHats) by (unfold plainNames; compute_done).
  split; [exact Hp|].
  destruct (countTraits_tables threeHats Hp) as (_ & _ & Htab & _).
  destruct (Htab "Hat"%string) as (table & Ht & _ & Hround & Htotal).
  { apply list_elem_of_In. vm_compute. by left. }
  exists table. split; [exact Ht|]. split; [exact Hround | exact Htotal].
Defined.

(** C8: [countTraits] is a function of the items only, and permuting them
    changes no table: [traitCounts] is the same map; [traitTypes], the
    iteration order the tables were filled in, holds the same types. *)
Theorem countTraits_order_independent (nfts nfts' : list NFT) :
  nfts ≡ₚ nfts' →
  traitCounts (countTraits nfts') = traitCounts (countTraits nfts) ∧
  traitTypes (countTraits nfts') ≡ₚ traitTypes (countTraits nfts).
Proof.
  intros Hp. split; [|symmetry; by apply collectTraitTypes_Permutation].
  apply map_eq. intros type. rewrite !countTraits_lookup.
  destruct (decide (type ∈ collectTraitTypes nfts)) as [Hin|Hin].
  - rewrite decide_True
      by (by rewrite <-(collectTraitTypes_Permutation _ _ Hp)).
    f_equal. apply map_eq. intros v.
    rewrite !lookup_fmap, !tally_lookup.
    rewrite <-(occurrences_Permutation _ _ type v Hp).
    by rewrite (Permutation_length Hp).
  - rewrite decide_False; [done|].
    by rewrite <-(collectTraitTypes_Permutation _ _ Hp).
Qed.

Lemma countTraits_order_independent_witness :
  traitCounts (countTraits (rev threeHats)) =
    traitCounts (countTraits threeHats) ∧
  traitTypes (countTraits (rev threeHats)) ≡ₚ
    traitTypes (countTraits threeHats).
Proof.
  apply (countTraits_order_independent threeHats (rev threeHats)).
  apply Permutation_rev.
Defined.

End CountTraitsClaims.

Section FindRareFacts.
Context (cfg : RaritySettings).

(** [x <= x] holds for every number but NaN. *)
Lemma number_leb_refl (x : float) :
  PrimFloat.is_nan x = false → PrimFloat.leb x x = true.
Proof.
  unfold PrimFloat.is_nan. intros H. apply negb_false_iff in H.
  rewrite FloatAxioms.eqb_spec in H. rewrite FloatAxioms.leb_spec.
  unfold SFeqb in H. unfold SFleb.
  by destruct (SFcompare (Prim2SF x) (Prim2SF x)) as [[]|].
Qed.

(** The three tests [checkTrait] makes, case by case. *)
Ltac case_annotate cfg st :=
  unfold annotate;
  destruct (oneOfOneThreshold cfg);
  destruct (Nat.eqb_spec (count st) 1);
  destruct (PrimFloat.leb (percentage st) (percentThreshold cfg));
  cbn.

Lemma annotate_rare (value : string) (st : TraitStat) :
  rd_rare (annotate cfg value st) = true ↔
  (oneOfOneThreshold cfg = true ∧ count st = 1) ∨
  PrimFloat.leb (percentage st) (percentThreshold cfg) = true.
Proof. case_annotate cfg st; intuition congruence. Qed.

Lemma annotate_fields (value : string) (st : TraitStat) :
  rd_value (annotate cfg value st) = value ∧
  rd_count (annotate cfg value st) = Some (count st) ∧
  rd_percentage (annotate cfg value st) = Some (percentage st).
Proof.
  case_annotate cfg st; split_and!; try done; by f_equal.
Qed.

Lemma annotate_reason (value : string) (st : TraitStat) :
  rd_reason (annotate cfg value st) =
  if oneOfOneThreshold cfg && (count st =? 1)%nat then Some OneOfOneTrait
  else if PrimFloat.leb (percentage st) (percentThreshold cfg)
       then Some (BelowThreshold (percentThreshold cfg))
       else None.
Proof.
  unfold annotate.
  destruct (oneOfOneThreshold cfg && (count st =? 1)%nat); [done|].
  by destruct (PrimFloat.leb (percentage st) (percentThreshold cfg)).
Qed.

Lemma annotationOf_rare (tc : gmap string (gmap string TraitStat))
    (nft : NFT) (type : string) (d : RarityDetail) :
  annotationOf cfg tc nft type = Some d → rd_rare d = true →
  ∃ st, statOf tc nft type = Some st ∧
        d = annotate cfg (traitValue nft type) st.
Proof.
  unfold annotationOf. destruct (statOf tc nft type) as [st|].
  - intros [= <-] _. by exists st.
  - case_decide; [|done]. by intros [= <-].
Qed.

Lemma checkTrait_step (tc : gmap string (gmap string TraitStat)) (nft : NFT)
    (isRare : bool) (details : gmap string RarityDetail) (type : string) :
  checkTrait cfg tc nft (isRare, details) type =
  match tc !! type with
  | None => None
  | Some table =>
      match annotationOf cfg tc nft type with
      | Some d => Some (isRare || rd_rare d, <[type := d]> details)
      | None => Some (isRare, details)
      end
  end.
Proof.
  unfold checkTrait, annotationOf, statOf, annotate, inheritedDetail.
  destruct (tc !! type) as [table|]; [|done]. cbn [mbind option_bind].
  destruct (table !! traitValue nft type) as [st|].
  - destruct (oneOfOneThreshold cfg && (count st =? 1)%nat);
      [by rewrite orb_true_r|].
    destruct (PrimFloat.leb (percentage st) (percentThreshold cfg));
      cbn [rd_rare]; [by rewrite orb_true_r | by rewrite orb_false_r].
  - case_decide; [|done]. cbn [rd_rare]. by rewrite orb_false_r.
Qed.

(** The loop over [traitTypes], from any state. *)
Lemma forEach_checkTrait (tc : gmap string (gmap string TraitStat))
    (nft : NFT) (tt : list string) (r0 : bool)
    (d0 : gmap string RarityDetail) :
  (∀ type, type ∈ tt → is_Some (tc !! type)) →
  ∃ r d, forEach (checkTrait cfg tc nft) tt (r0, d0) = Some (r, d) ∧
    (∀ type, d !! type =
       if decide (type ∈ tt) then
         match annotationOf cfg tc nft type with
         | Some a => Some a
         | None => d0 !! type
         end
       else d0 !! type) ∧
    (r = true ↔
     r0 = true ∨
     ∃ type a, type ∈ tt ∧ annotationOf cfg tc nft type = Some a ∧
       rd_rare a = true).
Proof.
  revert r0 d0. induction tt as [|t tt IH]; intros r0 d0 Hwf.
  - exists r0, d0. split; [done|]. split.
    + intros type. by rewrite decide_False by apply not_elem_of_nil.
    + split; [by left|]. intros [?|(? & ? & []%elem_of_nil & _)]. done.
  - cbn [forEach]. rewrite checkTrait_step.
    destruct (Hwf t) as [table Ht]; [by left|]. rewrite Ht.
    assert (Hwf' : ∀ type, type ∈ tt → is_Some (tc !! type))
      by (intros; apply Hwf; by right).
    destruct (annotationOf cfg tc nft t) as [a|] eqn:Ha.
    + destruct (IH (r0 || rd_rare a) (<[t := a]> d0) Hwf')
        as (r & d & -> & Hd & Hr).
      exists r, d. split; [done|]. split.
      * intros type. rewrite Hd, lookup_insert.
        destruct (decide (type ∈ tt)) as [Hin|Hin].
        { rewrite (decide_True (P := type ∈ t :: tt)) by (by right).
          destruct (annotationOf cfg tc nft type) eqn:Hs; [done|].
          case_decide as Heq; [|done]. subst type. congruence. }
        destruct (decide (t = type)) as [->|Hne].
        { rewrite (decide_True (P := type ∈ type :: tt)) by (by left).
          by rewrite Ha. }
        rewrite (decide_False (P := type ∈ t :: tt)); [done|].
        intros [?|?]%elem_of_cons; congruence.
      * rewrite Hr, orb_true_iff. split.
        { intros [[?|Hrare]|(type & a' & ? & ? & ?)].
          - by left.
          - right. exists t, a. split; [by left|]. done.
          - right. exists type, a'. split; [by right|]. done. }
        intros [?|(type & a' & [->|Hin]%elem_of_cons & Hs & Hrare)].
        { by left; left. }
        { left; right. congruence. }
        right. by exists type, a'.
    + destruct (IH r0 d0 Hwf') as (r & d & -> & Hd & Hr).
      exists r, d. split; [done|]. split.
      * intros type. rewrite Hd.
        destruct (decide (type ∈ tt)) as [Hin|Hin].
        { by rewrite decide_True by (by right). }
        destruct (decide (t = type)) as [->|Hne].
        { rewrite decide_True by (by left). by rewrite Ha. }
        rewrite decide_False; [done|].
        intros [?|?]%elem_of_cons; congruence.
      * rewrite Hr. split.
        { intros [?|(type & a' & ? & ? & ?)]; [by left|].
          right. exists type, a'. split; [by right|]. done. }
        intros [?|(type & a' & [->|Hin]%elem_of_cons & Hs & Hrare)].
        { by left. }
        { congruence. }
        right. by exists type, a'.
Qed.

Lemma checkTraits_spec (ta : TraitAnalysis) (nft : NFT) :
  wellFormed ta →
  ∃ isRare details, checkTraits cfg ta nft = Some (isRare, details) ∧
    (∀ type, details !! type =
       if decide (type ∈ traitTypes ta)
       then annotationOf cfg (traitCounts ta) nft type
       else None) ∧
    (isRare = true ↔
     ∃ type d, details !! type = Some d ∧ rd_rare d = true).
Proof.
  intros Hwf.
  destruct (forEach_checkTrait (traitCounts ta) nft (traitTypes ta) false ∅
              Hwf) as (r & d & Hrun & Hd & Hr).
  exists r, d. split; [done|].
  assert (Hd' : ∀ type, d !! type =
       if decide (type ∈ traitTypes ta)
       then annotationOf cfg (traitCounts ta) nft type
       else None).
  { intros type. rewrite Hd, lookup_empty. case_decide; [|done].
    by destruct (annotationOf _ _ _ _). }
  split; [done|]. rewrite Hr. split.
  - intros [?|(type & a & Hin & Hs & Hrare)]; [done|].
    exists type, a. split; [|done]. by rewrite Hd', decide_True, Hs.
  - intros (type & dd & Hl & Hrare). right. rewrite Hd' in Hl.
    case_decide as Hin; [|done]. by exists type, dd.
Qed.

End FindRareFacts.

Section FindRareRun.
Context (cfg : RaritySettings) (ta : TraitAnalysis).

Lemma checkTraits_set_rarity (nft : NFT) (r : gmap string RarityDetail) :
  checkTraits cfg ta (set_rarity nft r) = checkTraits cfg ta nft.
Proof. reflexivity. Qed.

Lemma visited_checkTraits (nft : NFT) :
  checkTraits cfg ta (visited cfg ta nft) = checkTraits cfg ta nft.
Proof.
  unfold visited. by destruct (checkTraits cfg ta nft) as [[[] d]|] eqn:E.
Qed.

Lemma visited_idemp (nft : NFT) :
  visited cfg ta (visited cfg ta nft) = visited cfg ta nft.
Proof.
  unfold visited at 1. rewrite visited_checkTraits. unfold visited.
  by destruct (checkTraits cfg ta nft) as [[[] d]|] eqn:E.
Qed.

Lemma pushed_visited (nft : NFT) :
  pushed cfg ta (visited cfg ta nft) = pushed cfg ta nft.
Proof.
  unfold pushed. rewrite visited_checkTraits. unfold visited.
  by destruct (checkTraits cfg ta nft) as [[[] d]|] eqn:E.
Qed.

Lemma pushed_fixed (nft x : NFT) :
  pushed cfg ta nft = Some x →
  pushed cfg ta x = Some x ∧ visited cfg ta x = x.
Proof.
  unfold pushed, visited.
  destruct (checkTraits cfg ta nft) as [[[] d]|] eqn:E; intros [= <-].
  rewrite checkTraits_set_rarity, E. done.
Qed.

(** The loop over the items, from any state. *)
Lemma forEach_checkNFT (nfts heap rare heap' rare' : list NFT) :
  forEach (checkNFT cfg ta) nfts (heap, rare) = Some (heap', rare') ↔
  Forall (fun nft => is_Some (checkTraits cfg ta nft)) nfts ∧
  heap' = heap ++ (visited cfg ta <$> nfts) ∧
  rare' = rare ++ omap (pushed cfg ta) nfts.
Proof.
  revert heap rare. induction nfts as [|nft nfts IH]; intros heap rare.
  - cbn. rewrite !app_nil_r. split.
    + intros [= <- <-]. done.
    + intros (_ & -> & ->). done.
  - cbn [forEach]. unfold checkNFT at 1. rewrite Forall_cons.
    cbn [fmap list_fmap omap list_omap].
    assert (Hv : visited cfg ta nft =
                 match checkTraits cfg ta nft with
                 | Some (true, d) => set_rarity nft d | _ => nft end) by done.
    assert (Hp : pushed cfg ta nft =
                 match checkTraits cfg ta nft with
                 | Some (true, d) => Some (set_rarity nft d) | _ => None end)
      by done.
    rewrite Hv, Hp. clear Hv Hp.
    destruct (checkTraits cfg ta nft) as [[[] d]|] eqn:E.
    + rewrite IH, <-!app_assoc. cbn [app].
      split; [intros (?&?&?)|intros ((?&?)&?&?)]; eauto.
    + rewrite IH, <-!app_assoc. cbn [app].
      split; [intros (?&?&?)|intros ((?&?)&?&?)]; eauto.
    + split; [done|]. by intros [[[] []] _].
Qed.

Lemma findRareNFTs_run_spec (nfts heap' rare' : list NFT) :
  findRareNFTs_run cfg nfts ta = Some (heap', rare') ↔
  Forall (fun nft => is_Some (checkTraits cfg ta nft)) nfts ∧
  heap' = visited cfg ta <$> nfts ∧ rare' = omap (pushed cfg ta) nfts.
Proof. apply forEach_checkNFT. Qed.

Lemma omap_pushed_visited (nfts : list NFT) :
  omap (pushed cfg ta) (visited cfg ta <$> nfts) = omap (pushed cfg ta) nfts.
Proof.
  induction nfts as [|nft nfts IH]; [done|].
  cbn [fmap list_fmap omap list_omap]. by rewrite pushed_visited, IH.
Qed.

Lemma visited_visited (nfts : list NFT) :
  visited cfg ta <$> (visited cfg ta <$> nfts) = visited cfg ta <$> nfts.
Proof.
  rewrite <-list_fmap_compose. apply list_fmap_ext.
  intros ? nft _. apply visited_idemp.
Qed.

Lemma omap_pushed_fixed (nfts : list NFT) :
  omap (pushed cfg ta) (omap (pushed cfg ta) nfts)
    = omap (pushed cfg ta) nfts ∧
  visited cfg ta <$> omap (pushed cfg ta) nfts = omap (pushed cfg ta) nfts.
Proof.
  induction nfts as [|nft nfts [IH1 IH2]]; [done|].
  cbn [omap list_omap]. destruct (pushed cfg ta nft) as [x|] eqn:E; [|done].
  destruct (pushed_fixed _ _ E) as [Hp Hv].
  cbn [omap list_omap fmap list_fmap]. rewrite Hp, Hv. by rewrite IH1, IH2.
Qed.

Lemma Forall_checked_visited (nfts : list NFT) :
  Forall (fun nft => is_Some (checkTraits cfg ta nft)) nfts →
  Forall (fun nft => is_Some (checkTraits cfg ta nft))
         (visited cfg ta <$> nfts).
Proof.
  intros H. apply Forall_fmap. eapply Forall_impl; [exact H|].
  intros nft Hn. cbn. by rewrite visited_checkTraits.
Qed.

Lemma Forall_checked_pushed (nfts : list NFT) :
  Forall (fun nft => is_Some (checkTraits cfg ta nft))
         (omap (pushed cfg ta) nfts).
Proof.
  apply Forall_forall. intros x (nft & _ & Hx)%list_elem_of_omap.
  unfold pushed in Hx.
  destruct (checkTraits cfg ta nft) as [[[] d]|] eqn:E; try done.
  injection Hx as <-. rewrite checkTraits_set_rarity, E. done.
Qed.

End FindRareRun.

Section FindRareClaims.

Lemma countTraits_wellFormed (nfts : list NFT) : wellFormed (countTraits nfts).
Proof.
  intros type Hin. rewrite countTraits_lookup.
  rewrite decide_True by exact Hin. by eexists.
Qed.

Lemma wellFormed_checked (cfg : RaritySettings) (ta : TraitAnalysis)
    (nfts : list NFT) :
  wellFormed ta →
  Forall (fun nft => is_Some (checkTraits cfg ta nft)) nfts.
Proof.
  intros Hwf. apply Forall_forall. intros nft _.
  destruct (checkTraits_spec cfg ta nft Hwf) as (r & d & -> & _). by eexists.
Qed.

Lemma forEach_checkTrait_Some (cfg : RaritySettings)
    (tc : gmap string (gmap string TraitStat)) (nft : NFT)
    (tt : list string) (st st' : bool * gmap string RarityDetail) :
  forEach (checkTrait cfg tc nft) tt st = Some st' →
  ∀ type, type ∈ tt → is_Some (tc !! type).
Proof.
  revert st. induction tt as [|t tt IH]; intros [r d] Hrun type Hin.
  - by apply elem_of_nil in Hin.
  - cbn [forEach] in Hrun. rewrite checkTrait_step in Hrun.
    destruct (tc !! t) as [table|] eqn:Ht; [|done].
    apply elem_of_cons in Hin as [->|Hin]; [by eexists|].
    destruct (annotationOf cfg tc nft t); by eapply IH.
Qed.

(** A call that gets past one item met a table with all its columns. *)
Lemma checkTraits_Some_wellFormed (cfg : RaritySettings)
    (ta : TraitAnalysis) (nft : NFT) :
  is_Some (checkTraits cfg ta nft) → wellFormed ta.
Proof.
  intros [st' Hrun] type Hin.
  by eapply (forEach_checkTrait_Some cfg (traitCounts ta) nft).
Qed.

Lemma pushed_Some (cfg : RaritySettings) (ta : TraitAnalysis) (nft x : NFT) :
  pushed cfg ta nft = Some x ↔
  ∃ details, checkTraits cfg ta nft = Some (true, details) ∧
             x = set_rarity nft details.
Proof.
  unfold pushed. destruct (checkTraits cfg ta nft) as [[[] d]|]; split;
    try done; try (by intros (? & ? & _)).
  - intros [= <-]. by exists d.
  - intros (d' & [= <-] & ->). done.
Qed.

Lemma rd_rare_annotate (cfg : RaritySettings) (value : string)
    (st : TraitStat) :
  rd_rare (annotate cfg value st) = marksRare cfg st.
Proof.
  unfold annotate, marksRare.
  destruct (oneOfOneThreshold cfg && (count st =? 1)%nat); [done|].
  by destruct (PrimFloat.leb (percentage st) (percentThreshold cfg)).
Qed.

Lemma rareItem_true (cfg : RaritySettings) (ta : TraitAnalysis) (nft : NFT) :
  rareItem cfg ta nft = true ↔
  ∃ type st, type ∈ traitTypes ta ∧
    statOf (traitCounts ta) nft type = Some st ∧ marksRare cfg st = true.
Proof.
  unfold rareItem. rewrite existsb_exists. split.
  - intros (type & Hin%list_elem_of_In & Hm).
    destruct (statOf (traitCounts ta) nft type) as [st|] eqn:Hs; [|done].
    by exists type, st.
  - intros (type & st & Hin & Hs & Hm). exists type.
    split; [by apply list_elem_of_In|]. by rewrite Hs.
Qed.

(** What the annotations of a pushed item are. *)
Lemma pushed_rarity (cfg : RaritySettings) (ta : TraitAnalysis)
    (nft x : NFT) :
  pushed cfg ta nft = Some x →
  wellFormed ta ∧ x = set_rarity nft (rarity x) ∧
  (∀ type, rarity x !! type =
     if decide (type ∈ traitTypes ta)
     then annotationOf cfg (traitCounts ta) nft type else None) ∧
  ∃ type d, rarity x !! type = Some d ∧ rd_rare d = true.
Proof.
  intros (details & Hrun & ->)%pushed_Some.
  assert (Hwf : wellFormed ta)
    by (apply (checkTraits_Some_wellFormed cfg ta nft); by eexists).
  destruct (checkTraits_spec cfg ta nft Hwf) as (r & d & Hrun' & Hd & Hr).
  assert (r = true ∧ d = details) as [-> ->] by (split; congruence).
  split_and!; [done | done | done | by apply Hr].
Qed.

Lemma pushed_is_Some (cfg : RaritySettings) (ta : TraitAnalysis)
    (nft : NFT) :
  wellFormed ta →
  is_Some (pushed cfg ta nft) ↔ rareItem cfg ta nft = true.
Proof.
  intros Hwf. rewrite rareItem_true.
  destruct (checkTraits_spec cfg ta nft Hwf) as (r & d & Hrun & Hd & Hr).
  split.
  - intros [x (details & Hrun' & _)%pushed_Some].
    assert (r = true) as -> by congruence.
    destruct (proj1 Hr eq_refl) as (type & dd & Hl & Hrare).
    rewrite Hd in Hl. case_decide as Hin; [|done].
    destruct (annotationOf_rare cfg _ _ _ _ Hl Hrare) as (st & Hs & ->).
    exists type, st. split_and!; [done | done |].
    by rewrite <-(rd_rare_annotate cfg (traitValue nft type)).
  - intros (type & st & Hin & Hs & Hm).
    assert (r = true) as ->.
    { apply Hr. exists type, (annotate cfg (traitValue nft type) st).
      split; [|by rewrite rd_rare_annotate].
      rewrite Hd, decide_True by done. unfold annotationOf. by rewrite Hs. }
    eexists. apply pushed_Some. by eexists.
Qed.

(** The returned list, item by item: the items that pass the test, in
    order, each with nothing but its [rarity] replaced. *)
Lemma omap_pushed_filter (cfg : RaritySettings) (ta : TraitAnalysis)
    (nfts : list NFT) :
  wellFormed ta →
  Forall2 (fun x nft => x = set_rarity nft (rarity x))
          (omap (pushed cfg ta) nfts)
          (filter (fun nft => rareItem cfg ta nft = true) nfts).
Proof.
  intros Hwf. induction nfts as [|nft nfts IH]; [by constructor|].
  cbn [omap list_omap]. rewrite filter_cons.
  pose proof (pushed_is_Some cfg ta nft Hwf) as Hiff.
  destruct (pushed cfg ta nft) as [x|] eqn:E.
  - rewrite decide_True by (apply Hiff; by eexists).
    constructor; [|done]. by destruct (pushed_rarity _ _ _ _ E) as (_ & ? & _).
  - rewrite decide_False; [done|].
    intros Hr. apply Hiff in Hr as [? ?]. done.
Qed.

(** C1: for a table none of whose trait types is named like a member of
    [Object.prototype], [findRareNFTs] returns whenever the table has a
    column for each of its trait types (otherwise it throws).  Whenever it
    returns, the returned list holds, in order, exactly the items one of
    whose listed traits has a stat with (the one-of-one flag set and count
    1) or percentage [<=] the threshold, each with nothing but its [rarity]
    replaced.  In the [rarity] of a returned item every listed trait type
    whose column has a stat for the item's value carries that value, count
    and percentage, is marked rare exactly when (the flag is set and the
    count is 1) or the percentage is [<=] the threshold, equality included,
    and gives one-of-one as the reason whenever that condition holds and
    below-threshold otherwise; every mark rests on such a stat, and there is
    at least one. *)
Theorem findRareNFTs_classification (cfg : RaritySettings)
    (nfts : list NFT) (ta : TraitAnalysis) :
  plainTypes ta →
  (wellFormed ta → is_Some (findRareNFTs cfg nfts ta)) ∧
  (∀ rareNFTs,
     findRareNFTs cfg nfts ta = Some rareNFTs →
     Forall2 (fun x nft => x = set_rarity nft (rarity x)) rareNFTs
             (filter (fun nft => rareItem cfg ta nft = true) nfts) ∧
     (∀ x, x ∈ rareNFTs →
        (∀ type table st,
           type ∈ traitTypes ta →
           traitCounts ta !! type = Some table →
           table !! traitValue x type = Some st →
           ∃ d, rarity x !! type = Some d ∧
             rd_value d = traitValue x type ∧
             rd_count d = Some (count st) ∧
             rd_percentage d = Some (percentage st) ∧
             (rd_rare d = true ↔
              (oneOfOneThreshold cfg = true ∧ count st = 1) ∨
              PrimFloat.leb (percentage st) (percentThreshold cfg) = true) ∧
             (percentage st = percentThreshold cfg →
              PrimFloat.is_nan (percentThreshold cfg) = false →
              rd_rare d = true) ∧
             (oneOfOneThreshold cfg = true ∧ count st = 1 →
              rd_reason d = Some OneOfOneTrait) ∧
             (¬ (oneOfOneThreshold cfg = true ∧ count st = 1) →
              PrimFloat.leb (percentage st) (percentThreshold cfg) = true →
              rd_reason d = Some (BelowThreshold (percentThreshold cfg))) ∧
             (rd_rare d = false → rd_reason d = None)) ∧
        (∀ type d,
           rarity x !! type = Some d → rd_rare d = true →
           ∃ table st, type ∈ traitTypes ta ∧
             traitCounts ta !! type = Some table ∧
             table !! traitValue x type = Some st) ∧
        (∃ type d, rarity x !! type = Some d ∧ rd_rare d = true))).
Proof.
  intros _. split.
  { intros Hwf. unfold findRareNFTs.
    assert (Hrun : findRareNFTs_run cfg nfts ta =
                   Some (visited cfg ta <$> nfts, omap (pushed cfg ta) nfts))
      by (apply findRareNFTs_run_spec; eauto using wellFormed_checked).
    rewrite Hrun. by eexists. }
  intros rareNFTs Hret. unfold findRareNFTs in Hret.
  destruct (findRareNFTs_run cfg nfts ta) as [[h r]|] eqn:E; [|done].
  injection Hret as ->.
  apply findRareNFTs_run_spec in E as (Hall & _ & ->).
  split.
  { destruct nfts as [|nft nfts]; [by constructor|].
    apply omap_pushed_filter.
    apply (checkTraits_Some_wellFormed cfg ta nft).
    by apply (proj1 (Forall_forall _ _) Hall); left. }
  intros x (nft & Hnft & Hp)%list_elem_of_omap.
  destruct (pushed_rarity _ _ _ _ Hp) as (Hwf & Hx & Hd & Hone).
  assert (Hv : ∀ type, traitValue x type = traitValue nft type)
    by (intros type; by rewrite Hx).
  split_and!; [| |done].
  - intros type table st Hin Htable Hst. rewrite Hv in Hst |- *.
    exists (annotate cfg (traitValue nft type) st).
    split.
    { rewrite Hd, decide_True by done. unfold annotationOf, statOf.
      rewrite Htable. cbn. by rewrite Hst. }
    destruct (annotate_fields cfg (traitValue nft type) st) as (-> & -> & ->).
    split_and!; try done.
    + apply annotate_rare.
    + intros Heq Hnan. apply annotate_rare. right. rewrite Heq.
      by apply number_leb_refl.
    + intros [H1 H2]. rewrite annotate_reason, H1, H2. done.
    + intros Hno Hle. rewrite annotate_reason, Hle.
      destruct (oneOfOneThreshold cfg) eqn:H1; [|done].
      destruct (Nat.eqb_spec (count st) 1); [|done]. by destruct Hno.
    + rewrite annotate_reason. intros Hf.
      assert (Hn : ¬ rd_rare (annotate cfg (traitValue nft type) st) = true)
        by (by rewrite Hf).
      rewrite annotate_rare in Hn.
      destruct (oneOfOneThreshold cfg) eqn:H1;
        destruct (Nat.eqb_spec (count st) 1);
        destruct (PrimFloat.leb (percentage st) (percentThreshold cfg));
        cbn; try done; exfalso; apply Hn; auto.
  - intros type d Hl Hrare. rewrite Hd in Hl.
    case_decide as Hin; [|done].
    destruct (annotationOf_rare cfg _ _ _ _ Hl Hrare) as (st & Hs & _).
    unfold statOf in Hs.
    destruct (traitCounts ta !! type) as [table|] eqn:Ht; [|done].
    exists table, st. rewrite Hv. done.
Qed.

End FindRareClaims.

Section FindRareIdempotence.

Lemma findRareNFTs_classification_witness :
  plainTypes (countTraits threeHats) ∧
  ∃ rareNFTs,
    findRareNFTs defaultRarity threeHats (countTraits threeHats)
      = Some rareNFTs ∧
    mintAddress <$> rareNFTs = ["m1"; "m2"; "m3"]%string ∧
    ∀ x, x ∈ rareNFTs →
         ∃ type d, rarity x !! type = Some d ∧ rd_rare d = true.
Proof.
  assert (Hp : plainTypes (countTraits threeHats))
    by (unfold plainTypes; compute_done).
  split; [exact Hp|].
  destruct (findRareNFTs_classification defaultRarity threeHats
              (countTraits threeHats) Hp) as [Hret Hspec].
  destruct (Hret (countTraits_wellFormed threeHats)) as [rareNFTs Hrun].
  exists rareNFTs. split; [exact Hrun|].
  destruct (Hspec rareNFTs Hrun) as [_ Hall]. split.
  - assert (E : findRareNFTs defaultRarity threeHats (countTraits threeHats)
               = Some rareNFTs) by exact Hrun.
    vm_compute in E. injection E as <-. reflexivity.
  - intros x Hx. by destruct (Hall x Hx) as (_ & _ & ?).
Defined.

(** C9: classification is idempotent.  Against a well-formed table the call
    returns; and whenever a call returns, calling [findRareNFTs] again on the
    same item objects (which the first call has annotated in place) with the
    same table leaves every object as it is and returns the same list, and
    reclassifying the returned items returns them unchanged. *)
Theorem findRareNFTs_idempotent (cfg : RaritySettings) (nfts : list NFT)
    (ta : TraitAnalysis) :
  (wellFormed ta → is_Some (findRareNFTs_run cfg nfts ta)) ∧
  (∀ heap rareNFTs,
     findRareNFTs_run cfg nfts ta = Some (heap, rareNFTs) →
     findRareNFTs_run cfg heap ta = Some (heap, rareNFTs) ∧
     findRareNFTs_run cfg rareNFTs ta = Some (rareNFTs, rareNFTs) ∧
     findRareNFTs cfg heap ta = findRareNFTs cfg nfts ta ∧
     findRareNFTs cfg rareNFTs ta = findRareNFTs cfg nfts ta).
Proof.
  split.
  { intros Hwf. eexists. apply findRareNFTs_run_spec.
    eauto using wellFormed_checked. }
  intros heap rareNFTs Hrun.
  assert (H1 : findRareNFTs_run cfg heap ta = Some (heap, rareNFTs)).
  { apply findRareNFTs_run_spec in Hrun as (Hall & -> & ->).
    apply findRareNFTs_run_spec. split_and!.
    - by apply Forall_checked_visited.
    - by rewrite visited_visited.
    - by rewrite omap_pushed_visited. }
  assert (H2 : findRareNFTs_run cfg rareNFTs ta = Some (rareNFTs, rareNFTs)).
  { apply findRareNFTs_run_spec in Hrun as (Hall & -> & ->).
    apply findRareNFTs_run_spec.
    destruct (omap_pushed_fixed cfg ta nfts) as [Hp Hv]. split_and!.
    - apply Forall_checked_pushed.
    - by rewrite Hv.
    - by rewrite Hp. }
  unfold findRareNFTs. rewrite H1, H2, Hrun. done.
Qed.

(** A value the column of its trait type does not list gets no annotation,
    unless it is the name of a member of [Object.prototype]: then the
    look-up finds that member and the trait is annotated, as not rare and
    without count and percentage.  Either way the item can only be rare
    through another trait type, whatever the one-of-one flag and the
    threshold are. *)
Lemma checkTraits_value_without_stat (cfg : RaritySettings)
    (ta : TraitAnalysis) (nft : NFT) (type : string)
    (table : gmap string TraitStat) :
  wellFormed ta →
  type ∈ traitTypes ta →
  traitCounts ta !! type = Some table →
  table !! traitValue nft type = None →
  ∃ isRare details, checkTraits cfg ta nft = Some (isRare, details) ∧
    details !! type =
      (if decide (traitValue nft type ∈ protoNames)
       then Some (inheritedDetail (traitValue nft type)) else None) ∧
    (isRare = true →
     ∃ type' d,
       type' ≠ type ∧ details !! type' = Some d ∧ rd_rare d = true).
Proof.
  intros Hwf Hin Htable Hnone.
  destruct (checkTraits_spec cfg ta nft Hwf) as (r & d & Hrun & Hd & Hr).
  exists r, d. split; [done|].
  assert (Hty : d !! type =
            if decide (traitValue nft type ∈ protoNames)
            then Some (inheritedDetail (traitValue nft type)) else None).
  { rewrite Hd, decide_True by done. unfold annotationOf, statOf.
    rewrite Htable. cbn. by rewrite Hnone. }
  split; [done|].
  intros (type' & dd & Hl & Hrare)%Hr. exists type', dd.
  split; [|done]. intros ->. rewrite Hty in Hl.
  case_decide; [|done]. injection Hl as <-. done.
Qed.

(** C10 does not hold of the code.  An item wearing the hat ["constructor"]
    is classified against the table of [threeHats], whose Hat column has no
    entry for that value: [traitCounts['Hat']['constructor']] answers the
    function inherited from [Object.prototype], the test [if (traitStats)]
    passes, and the item, returned for its one-of-one eyes, carries an
    annotation for Hat, marked not rare and without count and
    percentage. *)
Theorem findRareNFTs_inherited_member_annotated :
  (∃ table,
     traitCounts (countTraits threeHats) !! "Hat"%string = Some table ∧
     table !! traitValue constructorHat "Hat" = None) ∧
  ∃ x,
    findRareNFTs defaultRarity [constructorHat] (countTraits threeHats)
      = Some [x] ∧
    rarity x !! "Hat"%string
      = Some {| rd_value := "constructor"; rd_count := None;
                rd_percentage := None; rd_rare := false;
                rd_reason := None |} ∧
    ∃ d, rarity x !! "Eyes"%string = Some d ∧ rd_rare d = true.
Proof.
  split.
  - destruct (traitCounts (countTraits threeHats) !! "Hat"%string)
      as [table|] eqn:Htable; [|vm_compute in Htable; discriminate].
    exists table. split; [done|].
    assert (H : traitCounts (countTraits threeHats) !! "Hat"%string
                  ≫= (.!! traitValue constructorHat "Hat") = None)
      by (vm_compute; reflexivity).
    rewrite Htable in H. exact H.
  - destruct (findRareNFTs defaultRarity [constructorHat]
                (countTraits threeHats)) as [[|x [|y l]]|] eqn:E;
      try (vm_compute in E; discriminate).
    exists x. split; [done|].
    vm_compute in E. injection E as <-.
    split; [vm_compute; reflexivity|].
    eexists. split; [vm_compute; reflexivity | reflexivity].
Qed.

End FindRareIdempotence.

Section RemoteClaims.

Lemma requestError_rateLimited (source : string) (err : AxiosError)
    (w : World) :
  rateLimited err → requestError source err w = (true, w ++ [Wait 5000]).
Proof.
  intros (resp & Hresp & Hstatus & Hcfg). unfold requestError.
  rewrite Hresp, Hstatus. cbn. by rewrite bool_decide_eq_true_2.
Qed.

Lemma requestError_otherFailure (source : string) (err : AxiosError)
    (w : World) :
  otherFailure err → requestError source err w = (false, w).
Proof.
  intros Hother. unfold requestError.
  destruct (response err) as [resp|] eqn:Hresp; [|done].
  specialize (Hother resp Hresp).
  destruct (Z.eqb_spec (status resp) 429); [done|]. done.
Qed.

Lemma rateLimited_err429 : rateLimited err429.
Proof. eexists. split; [reflexivity|]. split; [reflexivity|]. by eexists. Qed.

Lemma issued_app (w w' : World) : issued (w ++ w') = issued w + issued w'.
Proof. unfold issued. by rewrite List.filter_app, length_app. Qed.

(** C5, as stated, fails: a single-record fetch that meets a 429 waits the
    5 seconds and returns null after ONE request, although the endpoint
    would have answered the request had it been issued again. *)
Lemma single_record_fetch_not_reissued :
  getNFTMetadata (limitedFor 1) "m1" [] =
    (None, [Get (GetToken "m1"); Wait 5000]) ∧
  token (limitedFor 1) 1 "m1" = inl (Some (someToken "m1")) ∧
  rateLimited err429.
Proof.
  split; [reflexivity|]. split; [reflexivity|]. apply rateLimited_err429.
Qed.

(** C5 (amended): on a 429 response the handler waits 5 seconds and signals
    retryable, on any other failure it signals not retryable at once.  A
    paginated fetch continues, after a 429, with the same page (same offset,
    nothing gathered or lost) and, after any other failure, stops and returns
    what it has gathered.  A single-record fetch issues its request once and
    returns null on EVERY failure, a 429 included (then after the wait). *)
Theorem remote_failure_policy (srv : Server) (symbol : string) (w : World)
    (err : AxiosError) :
  (rateLimited err →
   ∀ source, requestError source err w = (true, w ++ [Wait 5000])) ∧
  (otherFailure err →
   ∀ source, requestError source err w = (false, w)) ∧
  (∀ fuel allListings offset,
     listings srv (issued w) symbol offset limit = inr err →
     (rateLimited err →
      listingsLoop (S fuel) srv symbol allListings offset w =
      listingsLoop fuel srv symbol allListings offset
        (w ++ [Get (GetListings symbol offset limit); Wait 5000])) ∧
     (otherFailure err →
      listingsLoop (S fuel) srv symbol allListings offset w =
      Some (allListings, w ++ [Get (GetListings symbol offset limit)]))) ∧
  (∀ fuel maxNFTs allNFTs offset,
     activities srv (issued w) symbol offset limit = inr err →
     (rateLimited err →
      allNFTsLoop (S fuel) srv maxNFTs symbol allNFTs offset w =
      allNFTsLoop fuel srv maxNFTs symbol allNFTs offset
        (w ++ [Get (GetActivities symbol offset limit); Wait 5000])) ∧
     (otherFailure err →
      allNFTsLoop (S fuel) srv maxNFTs symbol allNFTs offset w =
      Some (allNFTs, w ++ [Get (GetActivities symbol offset limit)]))) ∧
  (collectionInfo srv (issued w) symbol = inr err →
   (rateLimited err →
    getCollectionInfo srv symbol w =
    (None, w ++ [Get (GetCollection symbol); Wait 5000])) ∧
   (otherFailure err →
    getCollectionInfo srv symbol w =
    (None, w ++ [Get (GetCollection symbol)]))) ∧
  (collectionStats srv (issued w) symbol = inr err →
   (rateLimited err →
    getCollectionStats srv symbol w =
    (None, w ++ [Get (GetStats symbol); Wait 5000])) ∧
   (otherFailure err →
    getCollectionStats srv symbol w = (None, w ++ [Get (GetStats symbol)]))) ∧
  (∀ mint,
     token srv (issued w) mint = inr err →
     (rateLimited err →
      getNFTMetadata srv mint w =
      (None, w ++ [Get (GetToken mint); Wait 5000])) ∧
     (otherFailure err →
      getNFTMetadata srv mint w = (None, w ++ [Get (GetToken mint)]))).
Proof.
  split_and!.
  - intros H source. by apply requestError_rateLimited.
  - intros H source. by apply requestError_otherFailure.
  - intros fuel allListings offset Hreply. split; intros H; cbn [listingsLoop];
      rewrite Hreply.
    + rewrite requestError_rateLimited by done. by rewrite <-app_assoc.
    + by rewrite requestError_otherFailure.
  - intros fuel maxNFTs allNFTs offset Hreply. split; intros H;
      cbn [allNFTsLoop]; rewrite Hreply.
    + rewrite requestError_rateLimited by done. by rewrite <-app_assoc.
    + by rewrite requestError_otherFailure.
  - intros Hreply. unfold getCollectionInfo. rewrite Hreply. split; intros H.
    + rewrite requestError_rateLimited by done. by rewrite <-app_assoc.
    + by rewrite requestError_otherFailure.
  - intros Hreply. unfold getCollectionStats. rewrite Hreply. split; intros H.
    + rewrite requestError_rateLimited by done. by rewrite <-app_assoc.
    + by rewrite requestError_otherFailure.
  - intros mint Hreply. unfold getNFTMetadata. rewrite Hreply. split; intros H.
    + rewrite requestError_rateLimited by done. by rewrite <-app_assoc.
    + by rewrite requestError_otherFailure.
Qed.

Lemma listingsLoop_always429 (fuel : nat) (symbol : string)
    (allListings : list Listing) (offset : nat) (w : World) :
  listingsLoop fuel always429 symbol allListings offset w = None.
Proof.
  revert w. induction fuel as [|fuel IH]; intros w; [done|].
  cbn [listingsLoop always429 listings].
  rewrite requestError_rateLimited by apply rateLimited_err429. apply IH.
Qed.

Lemma allNFTsLoop_always429 (fuel maxNFTs : nat) (symbol : string)
    (allNFTs : list RawNFT) (offset : nat) (w : World) :
  allNFTsLoop fuel always429 maxNFTs symbol allNFTs offset w = None.
Proof.
  revert w. induction fuel as [|fuel IH]; intros w; [done|].
  cbn [allNFTsLoop always429 activities].
  rewrite requestError_rateLimited by apply rateLimited_err429. apply IH.
Qed.

Lemma listingsLoop_limitedFor (k n : nat) (symbol : string)
    (allListings : list Listing) (offset : nat) (w : World) :
  issued w + k = n →
  listingsLoop (S k) (limitedFor n) symbol allListings offset w =
  Some (allListings, w ++ retried k (GetListings symbol offset limit)).
Proof.
  revert w. induction k as [|k IH]; intros w Hn.
  - cbn [listingsLoop limitedFor listings].
    rewrite (proj2 (Nat.ltb_ge _ _)) by lia. done.
  - cbn [listingsLoop limitedFor listings] in *.
    rewrite (proj2 (Nat.ltb_lt _ _)) by lia.
    rewrite requestError_rateLimited by apply rateLimited_err429.
    rewrite IH.
    + cbn [retried]. by rewrite <-!app_assoc.
    + rewrite !issued_app. cbn. lia.
Qed.

Lemma allNFTsLoop_limitedFor (k n maxNFTs : nat) (symbol : string)
    (allNFTs : list RawNFT) (offset : nat) (w : World) :
  issued w + k = n →
  allNFTsLoop (S k) (limitedFor n) maxNFTs symbol allNFTs offset w =
  Some (allNFTs, w ++ retried k (GetActivities symbol offset limit)).
Proof.
  revert w. induction k as [|k IH]; intros w Hn.
  - cbn [allNFTsLoop limitedFor activities].
    rewrite (proj2 (Nat.ltb_ge _ _)) by lia. done.
  - cbn [allNFTsLoop limitedFor activities] in *.
    rewrite (proj2 (Nat.ltb_lt _ _)) by lia.
    rewrite requestError_rateLimited by apply rateLimited_err429.
    rewrite IH.
    + cbn [retried]. by rewrite <-!app_assoc.
    + rewrite !issued_app. cbn. lia.
Qed.

Lemma listingsLoop_limitedFor_short (fuel n : nat) (symbol : string)
    (allListings : list Listing) (offset : nat) (w : World) :
  issued w + fuel ≤ n →
  listingsLoop fuel (limitedFor n) symbol allListings offset w = None.
Proof.
  revert w. induction fuel as [|fuel IH]; intros w Hn; [done|].
  cbn [listingsLoop limitedFor listings] in *.
  rewrite (proj2 (Nat.ltb_lt _ _)) by lia.
  rewrite requestError_rateLimited by apply rateLimited_err429.
  apply IH. rewrite !issued_app. cbn. lia.
Qed.

Lemma allNFTsLoop_limitedFor_short (fuel n maxNFTs : nat) (symbol : string)
    (allNFTs : list RawNFT) (offset : nat) (w : World) :
  issued w + fuel ≤ n →
  allNFTsLoop fuel (limitedFor n) maxNFTs symbol allNFTs offset w = None.
Proof.
  revert w. induction fuel as [|fuel IH]; intros w Hn; [done|].
  cbn [allNFTsLoop limitedFor activities] in *.
  rewrite (proj2 (Nat.ltb_lt _ _)) by lia.
  rewrite requestError_rateLimited by apply rateLimited_err429.
  apply IH. rewrite !issued_app. cbn. lia.
Qed.

(** C6, as stated, fails: against an endpoint that answers 429 forever
    neither paginated fetch ever returns. *)
Lemma paginated_fetch_never_returns :
  ¬ (∃ fuel result,
       getCollectionListings fuel always429 "mkrs" [] = Some result) ∧
  ¬ (∃ fuel result,
       getAllCollectionNFTs fuel always429 100 "mkrs" [] = Some result).
Proof.
  split; intros (fuel & result & H).
  - unfold getCollectionListings in H.
    by rewrite listingsLoop_always429 in H.
  - unfold getAllCollectionNFTs in H.
    by rewrite allNFTsLoop_always429 in H.
Qed.

(** C6 (amended): the retries of a paginated fetch are NOT capped.  Each 429
    makes the loop wait 5 seconds and ask for the same page again, as often
    as the endpoint answers 429: after [n] such answers the fetch has made
    [n] retries, and it returns once the page is served; against an endpoint
    that answers 429 forever it never returns. *)
Theorem paginated_fetch_retries_every_429 (n maxNFTs : nat)
    (symbol : string) :
  getCollectionListings (S n) (limitedFor n) symbol [] =
    Some ([], retried n (GetListings symbol 0 limit)) ∧
  getAllCollectionNFTs (S n) (limitedFor n) maxNFTs symbol [] =
    Some ([], retried n (GetActivities symbol 0 limit)) ∧
  (∀ fuel, fuel ≤ n →
     getCollectionListings fuel (limitedFor n) symbol [] = None ∧
     getAllCollectionNFTs fuel (limitedFor n) maxNFTs symbol [] = None) ∧
  (∀ fuel w,
     getCollectionListings fuel always429 symbol w = None ∧
     getAllCollectionNFTs fuel always429 maxNFTs symbol w = None).
Proof.
  split_and!.
  - unfold getCollectionListings. by rewrite (listingsLoop_limitedFor n n).
  - unfold getAllCollectionNFTs. by rewrite (allNFTsLoop_limitedFor n n).
  - intros fuel Hfuel. split.
    + by apply listingsLoop_limitedFor_short.
    + by apply allNFTsLoop_limitedFor_short.
  - intros fuel w. split.
    + apply listingsLoop_always429.
    + apply allNFTsLoop_always429.
Qed.

End RemoteClaims.

Section CacheClaims.

Lemma cache_paths_differ (symbol : string) :
  getCacheFilePath symbol ≠ getSeenRareNFTsPath symbol.
Proof.
  unfold getCacheFilePath, getSeenRareNFTsPath. intros H.
  apply (inj (String.app CACHE_DIR)) in H.
  apply (inj (String.app symbol)) in H. discriminate.
Qed.

Lemma cacheExists_true (cfg : CollectionAnalysis) (disk : gmap string File)
    (now : Z) (symbol : string) :
  cacheExists cfg disk now symbol = true ↔
  ∃ file t, disk !! getCacheFilePath symbol = Some file ∧
            mtime file = Some t ∧
            (now - t ≤ cacheExpireHours cfg * 60 * 60 * 1000)%Z.
Proof.
  unfold cacheExists.
  destruct (disk !! getCacheFilePath symbol) as [file|];
    [|split; [done | by intros (? & ? & ? & _)]].
  destruct (mtime file) as [t|] eqn:Ht;
    [|split; [done | intros (? & ? & [= <-] & ? & _); congruence]].
  destruct (Z.ltb_spec (cacheExpireHours cfg * 60 * 60 * 1000) (now - t)).
  - split; [done|]. intros (f & t' & Hf & Ht' & Hage).
    assert (f = file) by congruence. subst f.
    assert (t' = t) by congruence. subst t'. lia.
  - split; [|done]. intros _. exists file, t. done.
Qed.

(** C7: [loadFromCache] returns the parsed file exactly when caching is
    enabled, the snapshot file exists, its age (now minus its modification
    time) is at most the expiry window, and it reads and parses; otherwise it
    returns null.  So a snapshot saved at time [T] is returned at every
    [now <= T + window] and reported absent at every [now > T + window]. *)
Theorem loadFromCache_iff (cfg : CollectionAnalysis)
    (disk : gmap string File) (now : Z) (symbol : string) :
  (∀ data,
     loadFromCache cfg disk now symbol = Some data ↔
     cacheFullCollectionData cfg = true ∧
     ∃ file t, disk !! getCacheFilePath symbol = Some file ∧
               mtime file = Some t ∧
               (now - t ≤ cacheExpireHours cfg * 60 * 60 * 1000)%Z ∧
               parsed file = Some data) ∧
  (cacheFullCollectionData cfg = false →
   loadFromCache cfg disk now symbol = None) ∧
  (disk !! getCacheFilePath symbol = None →
   loadFromCache cfg disk now symbol = None) ∧
  (∀ file t, disk !! getCacheFilePath symbol = Some file →
             mtime file = Some t →
             (now - t > cacheExpireHours cfg * 60 * 60 * 1000)%Z →
             loadFromCache cfg disk now symbol = None) ∧
  (∀ file, disk !! getCacheFilePath symbol = Some file →
           mtime file = None ∨ parsed file = None →
           loadFromCache cfg disk now symbol = None) ∧
  (∀ T items,
     cacheFullCollectionData cfg = true →
     ∃ disk', saveToCache cfg disk true T symbol items = (true, disk') ∧
       ((now ≤ T + cacheExpireHours cfg * 60 * 60 * 1000)%Z →
        loadFromCache cfg disk' now symbol = Some (JSnapshot items)) ∧
       ((now > T + cacheExpireHours cfg * 60 * 60 * 1000)%Z →
        loadFromCache cfg disk' now symbol = None)).
Proof.
  assert (Hiff : ∀ d data,
     loadFromCache cfg d now symbol = Some data ↔
     cacheFullCollectionData cfg = true ∧
     ∃ file t, d !! getCacheFilePath symbol = Some file ∧
               mtime file = Some t ∧
               (now - t ≤ cacheExpireHours cfg * 60 * 60 * 1000)%Z ∧
               parsed file = Some data).
  { intros d data. unfold loadFromCache.
    destruct (cacheFullCollectionData cfg); cbn [negb];
      [|split; [done | by intros [? _]]].
    destruct (cacheExists cfg d now symbol) eqn:Hex; cbn [negb].
    - apply cacheExists_true in Hex as (file & t & Hfile & Ht & Hage).
      rewrite Hfile. split.
      + intros Hp. split; [done|]. by exists file, t.
      + intros (_ & file' & t' & [= <-] & _ & _ & Hp). done.
    - split; [done|]. intros (_ & file & t & Hfile & Ht & Hage & _).
      assert (cacheExists cfg d now symbol = true)
        by (apply cacheExists_true; by exists file, t).
      congruence. }
  assert (Hnone : ∀ d,
     (∀ data, ¬ (cacheFullCollectionData cfg = true ∧
        ∃ file t, d !! getCacheFilePath symbol = Some file ∧
                  mtime file = Some t ∧
                  (now - t ≤ cacheExpireHours cfg * 60 * 60 * 1000)%Z ∧
                  parsed file = Some data)) →
     loadFromCache cfg d now symbol = None).
  { intros d Hno. destruct (loadFromCache cfg d now symbol) as [data|] eqn:E;
      [|done]. apply Hiff in E. by destruct (Hno data). }
  split_and!.
  - apply Hiff.
  - intros Hoff. apply Hnone. intros data [Hon _]. congruence.
  - intros Hmiss. apply Hnone. intros data (_ & file & t & Hfile & _).
    congruence.
  - intros file t Hfile Ht Hage. apply Hnone.
    intros data (_ & file' & t' & Hfile' & Ht' & Hage' & _).
    assert (file' = file) by congruence. subst file'.
    assert (t' = t) by congruence. subst t'. lia.
  - intros file Hfile Hbad. apply Hnone.
    intros data (_ & file' & t' & Hfile' & Ht' & _ & Hp).
    assert (file' = file) by congruence. subst file'.
    destruct Hbad; congruence.
  - intros T items Hon. unfold saveToCache, writeFileSync. rewrite Hon.
    cbn [negb]. eexists. split; [reflexivity|]. split.
    + intros Hage. apply Hiff. split; [done|].
      eexists _, T. rewrite lookup_insert_eq. cbn. split_and!; try done. lia.
    + intros Hage. apply Hnone.
      intros data (_ & file & t & Hfile & Ht & Hage' & _).
      rewrite lookup_insert_eq in Hfile. injection Hfile as <-.
      cbn in Ht. injection Ht as <-. lia.
Qed.

End CacheClaims.

Section SchedulerClaims.

Lemma singleFlight_deliver (s s' : Scheduler) (tick : Tick) :
  singleFlight s → deliver s tick = Some s' → singleFlight s'.
Proof.
  intros [Hle Hiff] Hstep. destruct tick as [|threw]; cbn in Hstep.
  - injection Hstep as <-. unfold main_enter, singleFlight.
    destruct (isScanRunning s) eqn:E; cbn; [done|].
    assert (active s = 0).
    { destruct (active s) as [|[|]]; [done| |lia].
      destruct Hiff as [_ H]. by specialize (H eq_refl). }
    split; [lia|]. split; [lia|done].
  - case_decide; [|done]. injection Hstep as <-.
    unfold main_leave, singleFlight. cbn. split; [lia|].
    split; [done|lia].
Qed.

Lemma singleFlight_run (ticks : list Tick) (s s' : Scheduler) :
  singleFlight s → run ticks s = Some s' → singleFlight s'.
Proof.
  revert s. induction ticks as [|tick ticks IH]; intros s Hs Hrun.
  - by injection Hrun as <-.
  - cbn in Hrun. destruct (deliver s tick) as [s1|] eqn:E; [|done].
    eapply IH; [|exact Hrun]. by eapply singleFlight_deliver.
Qed.

(** C4: in every state the scheduler reaches, at most one scan cycle is
    executing, and one is executing exactly when the flag is set.  A trigger
    that fires while a cycle is executing starts nothing (it is only counted
    as skipped).  When a cycle settles, by returning or by throwing, the flag
    is reset, nothing is executing, and the next trigger starts a cycle. *)
Theorem scheduler_single_flight (ticks : list Tick) (s : Scheduler) :
  run ticks idle = Some s →
  active s ≤ 1 ∧
  (isScanRunning s = true ↔ active s = 1) ∧
  (active s = 1 →
   deliver s Trigger =
   Some {| isScanRunning := true; active := 1; started := started s;
           skipped := S (skipped s) |}) ∧
  (∀ threw s', deliver s (Settled threw) = Some s' →
     isScanRunning s' = false ∧ active s' = 0 ∧
     deliver s' Trigger =
     Some {| isScanRunning := true; active := 1; started := S (started s);
             skipped := skipped s |}) ∧
  (active s = 0 →
   deliver s Trigger =
   Some {| isScanRunning := true; active := 1; started := S (started s);
           skipped := skipped s |}).
Proof.
  intros Hrun.
  assert (Hs : singleFlight s).
  { eapply singleFlight_run; [|exact Hrun].
    split; cbn; [lia|]. split; [done|lia]. }
  destruct Hs as [Hle Hiff]. split_and!; try done.
  - intros H1. cbn. unfold main_enter.
    rewrite (proj2 Hiff H1), H1. done.
  - intros threw s' Hstep. cbn in Hstep. case_decide as Hact; [|done].
    injection Hstep as <-. cbn. split_and!; try done; [lia|].
    unfold main_enter. cbn. do 2 f_equal. lia.
  - intros H0. cbn. unfold main_enter.
    destruct (isScanRunning s) eqn:E.
    + destruct Hiff as [H _]. specialize (H eq_refl). lia.
    + by rewrite H0.
Qed.

Lemma scheduler_single_flight_witness :
  run [Trigger; Trigger; Settled true; Trigger; Trigger] idle =
    Some {| isScanRunning := true; active := 1; started := 2; skipped := 2 |}
  ∧ active {| isScanRunning := true; active := 1; started := 2;
              skipped := 2 |} ≤ 1.
Proof.
  split; [reflexivity|].
  apply (scheduler_single_flight
           [Trigger; Trigger; Settled true; Trigger; Trigger]).
  reflexivity.
Defined.

End SchedulerClaims.

Section SeenSetClaims.

Lemma extends_same (st st' : State) :
  seenRareNFTs st' = seenRareNFTs st → notified st' = notified st →
  extends st st'.
Proof.
  intros Hs Hn. exists []. rewrite Hs, Hn, app_nil_r.
  split_and!; [done | apply NoDup_nil_2 | | ].
  - intros m. cbn. rewrite elem_of_nil. tauto.
  - intros m. cbn. by rewrite elem_of_nil.
Qed.

Lemma notifiedMints_app (b1 b2 : list (list NFT * string)) :
  notifiedMints (b1 ++ b2) = notifiedMints b1 ++ notifiedMints b2.
Proof. unfold notifiedMints. by rewrite bind_app. Qed.

Lemma extends_trans (st1 st2 st3 : State) :
  extends st1 st2 → extends st2 st3 → extends st1 st3.
Proof.
  intros (b1 & Hn1 & Hd1 & Hs1 & Hf1) (b2 & Hn2 & Hd2 & Hs2 & Hf2).
  exists (b1 ++ b2). rewrite notifiedMints_app. split_and!.
  - by rewrite Hn2, Hn1, app_assoc.
  - apply NoDup_app. split_and!; [done | | done].
    intros m Hm1 Hm2. apply (Hf2 m Hm2). apply Hs1. by right.
  - intros m. rewrite Hs2, Hs1, elem_of_app. tauto.
  - intros m [Hm|Hm]%elem_of_app; [by apply Hf1|].
    intros Hin. apply (Hf2 m Hm). apply Hs1. by left.
Qed.

Lemma foldl_noteRare (rare : list NFT) (seen : list string)
    (new : list NFT) :
  ∃ added,
    foldl noteRare (seen, new) rare =
      (foldl set_add seen (mintAddress <$> added), new ++ added) ∧
    NoDup (mintAddress <$> added) ∧
    (∀ m, m ∈ mintAddress <$> added → m ∉ seen) ∧
    (∀ x, x ∈ added → x ∈ rare).
Proof.
  revert seen new. induction rare as [|nft rare IH]; intros seen new.
  - exists []. cbn. rewrite app_nil_r. split_and!; try done.
    + apply NoDup_nil_2.
    + intros m. by rewrite elem_of_nil.
  - cbn [foldl]. unfold noteRare at 2.
    destruct (decide (mintAddress nft ∈ seen)) as [Hin|Hin].
    + destruct (IH seen new) as (added & -> & Hd & Hf & Hsub).
      exists added. split_and!; try done.
      intros x Hx. right. by apply Hsub.
    + destruct (IH (set_add seen (mintAddress nft)) (new ++ [nft]))
        as (added & -> & Hd & Hf & Hsub).
      exists (nft :: added). cbn [fmap list_fmap foldl].
      rewrite <-app_assoc. split_and!; try done.
      * apply NoDup_cons. split; [|done]. intros Hm.
        apply (Hf _ Hm). apply elem_of_set_add. by right.
      * intros m [->|Hm]%elem_of_cons; [done|].
        intros Hs. apply (Hf _ Hm). apply elem_of_set_add. by left.
      * intros x [->|Hx]%elem_of_cons; [by left|]. right. by apply Hsub.
Qed.

Lemma reportRare_extends (env : Env) (symbol : string)
    (info : CollectionInfo) (rare : list NFT) (st : State) :
  extends st (reportRare env symbol info rare st).
Proof.
  unfold reportRare. destruct rare as [|nft rare]; [by apply extends_same|].
  destruct (foldl_noteRare (nft :: rare) (seenRareNFTs st) [])
    as (added & -> & Hd & Hf & _).
  cbn [app].
  destruct (saveSeenRareNFTs _ _ _ _ _) as [ok disk'].
  exists (match added with [] => [] | _ :: _ => [(added, info_name info)] end).
  assert (Hm : notifiedMints
                 (match added with
                  | [] => [] | _ :: _ => [(added, info_name info)] end)
               = mintAddress <$> added).
  { destruct added; [done|]. unfold notifiedMints. cbn.
    by rewrite app_nil_r. }
  rewrite Hm. cbn. split_and!; try done.
  - destruct added; [by rewrite app_nil_r | done].
  - intros m. rewrite elem_of_foldl_set_add. done.
Qed.

Lemma processCollection_extends (fuel : nat) (cfg : Config) (env : Env)
    (symbol : string) (st st' : State) :
  processCollection fuel cfg env symbol st = Some st' → extends st st'.
Proof.
  unfold processCollection, fullCollection. intros Hrun.
  repeat case_match; simplify_eq;
    solve [ by apply extends_same
          | eapply extends_trans; [|apply reportRare_extends];
            by apply extends_same ].
Qed.

Lemma cycles_extends (fuel : nat) (cfg : Config) (env : Env)
    (symbol : string) (n : nat) (st st' : State) :
  cycles fuel cfg env symbol n st = Some st' → extends st st'.
Proof.
  revert st. induction n as [|n IH]; intros st Hrun.
  - injection Hrun as <-. by apply extends_same.
  - cbn in Hrun.
    destruct (processCollection fuel cfg env symbol st) as [st1|] eqn:E;
      [|done].
    eapply extends_trans; [by eapply processCollection_extends | by apply IH].
Qed.

Lemma clearCache_keeps_seen (d : gmap string File) (removable : bool)
    (symbol : string) :
  (snd (clearCache d removable symbol)) !! getSeenRareNFTsPath symbol =
    d !! getSeenRareNFTsPath symbol ∧
  (∀ path, path ≠ getCacheFilePath symbol →
           (snd (clearCache d removable symbol)) !! path = d !! path) ∧
  loadSeenRareNFTs (snd (clearCache d removable symbol)) symbol =
    loadSeenRareNFTs d symbol.
Proof.
  assert (H : ∀ path, path ≠ getCacheFilePath symbol →
                (snd (clearCache d removable symbol)) !! path = d !! path).
  { intros path Hne. unfold clearCache.
    destruct (d !! getCacheFilePath symbol); [|done].
    destruct removable; [|done]. cbn. by rewrite lookup_delete_ne. }
  assert (Hs := H _ (not_eq_sym (cache_paths_differ symbol))).
  split_and!; [done | done |]. unfold loadSeenRareNFTs. by rewrite Hs.
Qed.

(** C2: over any number of scan cycles of one process, every mint in the seen
    set stays in it; the cycles notify each mint at most once, and never a
    mint that was in the seen set before (the seen set grows by exactly the
    notified mints); and [clearCache] removes at most the snapshot file: the
    seen-set file and what [loadSeenRareNFTs] reads from it are untouched. *)
Theorem seen_set_monotonic_no_renotify (fuel : nat) (cfg : Config)
    (env : Env) (symbol : string) (n : nat) (st st' : State) :
  cycles fuel cfg env symbol n st = Some st' →
  (∀ m, m ∈ seenRareNFTs st → m ∈ seenRareNFTs st') ∧
  (∃ batches,
     notified st' = notified st ++ batches ∧
     NoDup (notifiedMints batches) ∧
     (∀ m, m ∈ notifiedMints batches →
           (m ∉ seenRareNFTs st) ∧ m ∈ seenRareNFTs st') ∧
     (∀ m, m ∈ seenRareNFTs st' →
           m ∈ seenRareNFTs st ∨ m ∈ notifiedMints batches)) ∧
  (∀ removable,
     (snd (clearCache (disk st') removable symbol))
       !! getSeenRareNFTsPath symbol
       = disk st' !! getSeenRareNFTsPath symbol ∧
     (∀ path, path ≠ getCacheFilePath symbol →
        (snd (clearCache (disk st') removable symbol)) !! path
          = disk st' !! path) ∧
     loadSeenRareNFTs (snd (clearCache (disk st') removable symbol)) symbol
       = loadSeenRareNFTs (disk st') symbol).
Proof.
  intros Hrun.
  destruct (cycles_extends _ _ _ _ _ _ _ Hrun) as (b & Hn & Hd & Hs & Hf).
  split_and!.
  - intros m Hm. apply Hs. by left.
  - exists b. split_and!; try done.
    + intros m Hm. split; [by apply Hf|]. apply Hs. by right.
    + intros m Hm. by apply Hs.
  - intros removable. apply clearCache_keeps_seen.
Qed.

End SeenSetClaims.

Section SeenSetPersistence.

Lemma foldl_set_add_fresh (l s : list string) :
  NoDup (s ++ l) → foldl set_add s l = s ++ l.
Proof.
  revert s. induction l as [|x l IH]; intros s Hnd; cbn [foldl].
  - by rewrite app_nil_r.
  - assert (Hx : x ∉ s).
    { apply NoDup_app in Hnd as (_ & Hdisj & _). intros Hin.
      apply (Hdisj x Hin). by left. }
    unfold set_add at 2. rewrite decide_False by done.
    rewrite IH; rewrite <-app_assoc; done.
Qed.

Lemma saveToCache_keeps_seen (ca : CollectionAnalysis)
    (d : gmap string File) (ok : bool) (now : Z) (symbol : string)
    (data : list RawNFT) :
  loadSeenRareNFTs (snd (saveToCache ca d ok now symbol data)) symbol =
  loadSeenRareNFTs d symbol.
Proof.
  unfold saveToCache, writeFileSync.
  destruct (cacheFullCollectionData ca), ok; cbn; try done.
  unfold loadSeenRareNFTs.
  by rewrite lookup_insert_ne by apply cache_paths_differ.
Qed.

Lemma reportRare_persisted (env : Env) (symbol : string)
    (info : CollectionInfo) (rare : list NFT) (st : State) :
  (∀ t, writable env t = true) →
  persisted symbol st →
  persisted symbol (reportRare env symbol info rare st).
Proof.
  intros Hw [Hnd Hload]. unfold reportRare.
  destruct rare as [|nft rare]; [done|].
  destruct (foldl_noteRare (nft :: rare) (seenRareNFTs st) [])
    as (added & -> & _).
  unfold saveSeenRareNFTs, writeFileSync. rewrite Hw. cbn.
  assert (Hnd' : NoDup (foldl set_add (seenRareNFTs st)
                                (mintAddress <$> added)))
    by (by apply NoDup_foldl_set_add).
  split; cbn; [done|].
  unfold loadSeenRareNFTs. rewrite lookup_insert_eq. cbn.
  by apply (foldl_set_add_fresh _ []).
Qed.

Lemma processCollection_persisted (fuel : nat) (cfg : Config) (env : Env)
    (symbol : string) (st st' : State) :
  (∀ t, writable env t = true) →
  persisted symbol st →
  processCollection fuel cfg env symbol st = Some st' →
  persisted symbol st'.
Proof.
  intros Hw [Hnd Hload]. unfold processCollection, fullCollection. intros Hrun.
  repeat case_match; simplify_eq; try done.
  all: try (apply reportRare_persisted; [done|]).
  all: try (split; cbn; done).
  all: split; cbn; [done|];
    match goal with
    | H : saveToCache ?ca ?d ?ok ?now ?s ?data = (_, ?g)
      |- loadSeenRareNFTs ?g _ = _ =>
        pose proof (saveToCache_keeps_seen ca d ok now s data) as Hk;
        rewrite H in Hk; cbn in Hk; by rewrite Hk
    end.
Qed.

(** What the seen set has gained survives a restart, as long as the cache
    directory takes the writes: a process started on the files that [n]
    cycles leave behind begins with the seen set they ended with. *)
Lemma seen_set_survives_restart (fuel : nat) (cfg : Config) (env : Env)
    (symbol : string) (n : nat) (d : gmap string File) (st' : State) :
  (∀ t, writable env t = true) →
  cycles fuel cfg env symbol n (startup d symbol) = Some st' →
  seenRareNFTs (startup (disk st') symbol) = seenRareNFTs st'.
Proof.
  intros Hw.
  assert (Hgen : ∀ st, persisted symbol st →
            cycles fuel cfg env symbol n st = Some st' →
            persisted symbol st').
  { induction n as [|n IH]; intros st Hp Hrun.
    - by injection Hrun as <-.
    - cbn in Hrun.
      destruct (processCollection fuel cfg env symbol st) as [st1|] eqn:E;
        [|done].
      eapply IH; [|exact Hrun]. by eapply processCollection_persisted. }
  intros Hrun. apply (Hgen (startup d symbol)); [|done].
  split; cbn; [|done]. unfold loadSeenRareNFTs.
  destruct (d !! getSeenRareNFTsPath symbol) as [[mt [[data|mints]|]]|];
    cbn; try apply NoDup_nil_2.
  apply NoDup_foldl_set_add, NoDup_nil_2.
Qed.

End SeenSetPersistence.

Section SeenSetWitness.

Lemma seen_set_monotonic_no_renotify_witness :
  ∃ st',
    cycles 3 demoConfig demoEnv "demo" 2 (startup ∅ "demo") = Some st' ∧
    seenRareNFTs st' = ["m1"%string] ∧
    notifiedMints (notified st') = ["m1"%string] ∧
    (∀ m, m ∈ seenRareNFTs (startup ∅ "demo") → m ∈ seenRareNFTs st').
Proof.
  eexists. split; [vm_compute; reflexivity|].
  split; [reflexivity|]. split; [reflexivity|].
  apply (seen_set_monotonic_no_renotify 3 demoConfig demoEnv "demo" 2).
  vm_compute; reflexivity.
Defined.

End SeenSetWitness.

(* ===================================================================== *)
(** * Further properties of the code *)
(* ===================================================================== *)

Section ObjectFacts.
Implicit Types (o : list (string * string)) (k v : string).

Lemma obj_get_None {V} (o : list (string * V)) k :
  obj_get o k = None ↔ k ∉ obj_keys o.
Proof.
  unfold obj_keys. induction o as [|[k0 v0] o IH]; cbn.
  - split; [intros _; apply not_elem_of_nil | done].
  - rewrite not_elem_of_cons. destruct (decide (k0 = k)) as [->|Hne].
    + split; [done | by intros [[] _]].
    + rewrite IH. split; [by split | by intros [_ ?]].
Qed.

Lemma arrayIndex_pretty k i : arrayIndex k = Some i → k = pretty i.
Proof.
  unfold arrayIndex. destruct (digits k 0) as [n|]; [|done].
  case_decide as H; [|done]. intros [= <-]. by destruct H.
Qed.

Lemma arrayIndex_proto : arrayIndex "__proto__" = None.
Proof. reflexivity. Qed.

Lemma obj_get_update o k v k' :
  is_Some (obj_get o k) →
  obj_get (obj_update o k v) k' =
  if decide (k = k') then Some v else obj_get o k'.
Proof.
  induction o as [|[k0 v0] o IH]; cbn [obj_update obj_get].
  - by intros [? ?].
  - destruct (decide (k0 = k)) as [->|Hne]; cbn [obj_get].
    + intros _. by destruct (decide (k = k')).
    + intros Hs. rewrite (IH Hs).
      destruct (decide (k0 = k')) as [->|Hne']; [|done].
      by rewrite decide_False.
Qed.

Lemma obj_get_snoc o k v k' :
  obj_get o k = None →
  obj_get (o ++ [(k, v)]) k' =
  if decide (k = k') then Some v else obj_get o k'.
Proof.
  induction o as [|[k0 v0] o IH]; cbn [app obj_get].
  - intros _. by destruct (decide (k = k')).
  - destruct (decide (k0 = k)) as [->|Hne]; [done|]. intros Hn.
    rewrite (IH Hn). destruct (decide (k0 = k')) as [->|Hne']; [|done].
    by rewrite decide_False.
Qed.

Lemma obj_get_insert_index o i k v k' :
  obj_get o k = None →
  obj_get (obj_insert_index o i k v) k' =
  if decide (k = k') then Some v else obj_get o k'.
Proof.
  induction o as [|[k0 v0] o IH]; cbn [obj_insert_index obj_get].
  - intros _. by destruct (decide (k = k')).
  - destruct (decide (k0 = k)) as [->|Hne]; [done|]. intros Hn.
    assert (Hhead : obj_get ((k, v) :: (k0, v0) :: o) k' =
                    if decide (k = k') then Some v
                    else if decide (k0 = k') then Some v0 else obj_get o k')
      by done.
    destruct (arrayIndex k0) as [j|]; [|exact Hhead].
    destruct (j <? i)%N; [|exact Hhead].
    cbn [obj_get]. rewrite (IH Hn).
    destruct (decide (k0 = k')) as [->|Hne']; [|done].
    by rewrite decide_False.
Qed.

Lemma obj_get_set o k v k' :
  obj_get (obj_set o k v) k' =
  if decide (k = "__proto__"%string) then obj_get o k'
  else if decide (k = k') then Some v else obj_get o k'.
Proof.
  unfold obj_set. case_decide; [done|].
  destruct (obj_get o k) as [v0|] eqn:Hg.
  - apply obj_get_update. by rewrite Hg.
  - destruct (arrayIndex k) as [i|].
    + by apply obj_get_insert_index.
    + by apply obj_get_snoc.
Qed.

Lemma obj_keys_update o k v : obj_keys (obj_update o k v) = obj_keys o.
Proof.
  unfold obj_keys. induction o as [|[k0 v0] o IH]; [done|].
  cbn [obj_update]. destruct (decide (k0 = k)) as [->|Hne]; [done|].
  cbn [fmap list_fmap]. by rewrite IH.
Qed.

Lemma obj_keys_insert_index o i k v :
  obj_keys (obj_insert_index o i k v) = insert_key (obj_keys o) i k.
Proof.
  unfold obj_keys. induction o as [|[k0 v0] o IH]; [done|].
  cbn [obj_insert_index insert_key fmap list_fmap fst].
  destruct (arrayIndex k0) as [j|]; [|done].
  destruct (j <? i)%N; [|done]. cbn [fmap list_fmap fst]. by rewrite IH.
Qed.

Lemma indexLt_trans a b c : indexLt a b → indexLt b c → indexLt a c.
Proof.
  unfold indexLt.
  destruct (arrayIndex a), (arrayIndex b), (arrayIndex c); try done. lia.
Qed.

(** A new array index goes to its place among the array indices. *)
Lemma insert_key_sorted (idx str : list string) i k :
  Forall (fun a => is_Some (arrayIndex a)) idx →
  StronglySorted indexLt idx →
  Forall (fun a => arrayIndex a = None) str →
  arrayIndex k = Some i → k ∉ idx →
  ∃ idx', insert_key (idx ++ str) i k = idx' ++ str ∧
    Forall (fun a => is_Some (arrayIndex a)) idx' ∧
    StronglySorted indexLt idx' ∧
    (∀ a, a ∈ idx' ↔ a = k ∨ a ∈ idx).
Proof.
  intros Hidx Hsort Hstr Hk. induction idx as [|a idx IH]; intros Hnin.
  - exists [k]. split_and!.
    + destruct str as [|s str]; [done|]. cbn.
      apply Forall_cons in Hstr as [-> _]. done.
    + constructor; [by rewrite Hk | constructor].
    + repeat constructor.
    + intros a. rewrite list_elem_of_singleton, elem_of_nil. tauto.
  - apply Forall_cons in Hidx as [[j Hj] Hidx].
    apply StronglySorted_inv in Hsort as [Hsort Hlt].
    apply not_elem_of_cons in Hnin as [Hne Hnin].
    cbn [app insert_key]. rewrite Hj.
    destruct (N.ltb_spec j i) as [Hji|Hij].
    + destruct (IH Hidx Hsort Hnin) as (idx' & -> & Hi' & Hs' & Hm').
      exists (a :: idx'). split_and!; [done | | |].
      * constructor; [by rewrite Hj | done].
      * constructor; [done|]. apply Forall_forall. intros x [->|Hx]%Hm'.
        { unfold indexLt. by rewrite Hj, Hk. }
        by apply (proj1 (Forall_forall _ _) Hlt).
      * intros x. rewrite !elem_of_cons, Hm'. tauto.
    + assert (Hka : indexLt k a).
      { unfold indexLt. rewrite Hk, Hj.
        assert (i ≠ j); [|lia]. intros ->.
        apply arrayIndex_pretty in Hk, Hj. congruence. }
      exists (k :: a :: idx). split_and!; [done | | |].
      * constructor; [by rewrite Hk|]. constructor; [by rewrite Hj | done].
      * constructor; [by constructor|]. constructor; [done|].
        eapply Forall_impl; [exact Hlt|]. intros x Hx. cbn in Hx.
        by eapply indexLt_trans.
      * intros x. rewrite !elem_of_cons. tauto.
Qed.

Lemma stringKeys_snoc names k :
  stringKeys (names ++ [k]) =
  if decide (arrayIndex k = None ∧ k ≠ "__proto__"%string)
  then set_add (stringKeys names) k else stringKeys names.
Proof.
  unfold stringKeys. rewrite filter_app, filter_cons, filter_nil.
  case_decide; [|by rewrite app_nil_r]. by rewrite foldl_app.
Qed.

Lemma elem_of_stringKeys names k :
  k ∈ stringKeys names ↔
  k ∈ names ∧ arrayIndex k = None ∧ k ≠ "__proto__"%string.
Proof.
  unfold stringKeys.
  rewrite elem_of_foldl_set_add, elem_of_nil, list_elem_of_filter. tauto.
Qed.

End ObjectFacts.

Section NormalizeFacts.

(** The keys of an object built by assignments, after the trait types
    [names] have been assigned in turn. *)
Lemma obj_set_keys (o : list (string * string)) (names : list string)
    (idx : list string) (k v : string) :
  obj_keys o = idx ++ stringKeys names →
  Forall (fun a => is_Some (arrayIndex a)) idx →
  StronglySorted indexLt idx →
  (∀ a, a ∈ idx ↔ a ∈ names ∧ is_Some (arrayIndex a)) →
  ∃ idx',
    obj_keys (obj_set o k v) = idx' ++ stringKeys (names ++ [k]) ∧
    Forall (fun a => is_Some (arrayIndex a)) idx' ∧
    StronglySorted indexLt idx' ∧
    (∀ a, a ∈ idx' ↔ a ∈ names ++ [k] ∧ is_Some (arrayIndex a)).
Proof.
  intros Hkeys Hidx Hsort Hmem.
  assert (Hstr : Forall (fun a => arrayIndex a = None) (stringKeys names)).
  { apply Forall_forall. by intros a (_ & ? & _)%elem_of_stringKeys. }
  assert (Hsnoc : ∀ a, a ∈ names ++ [k] ↔ a ∈ names ∨ a = k).
  { intros a. rewrite elem_of_app, list_elem_of_singleton. tauto. }
  unfold obj_set. rewrite stringKeys_snoc.
  destruct (decide (k = "__proto__"%string)) as [->|Hproto].
  { exists idx. rewrite decide_False by (by intros [_ ?]).
    split_and!; try done. intros a. rewrite Hmem, Hsnoc.
    split; [by intros [? ?]; split; [left|] | ].
    intros [[?| ->] Hs]; [done|]. by destruct Hs. }
  destruct (obj_get o k) as [v0|] eqn:Hg.
  - (* the key is there: it keeps its place *)
    assert (Hin : k ∈ obj_keys o).
    { destruct (decide (k ∈ obj_keys o)) as [?|Hn]; [done|].
      apply obj_get_None in Hn. congruence. }
    rewrite obj_keys_update. exists idx.
    rewrite Hkeys in Hin. apply elem_of_app in Hin.
    split_and!; try done.
    + case_decide as Hk; [|done]. destruct Hk as [Hk _].
      destruct Hin as [Hin|Hin].
      * apply Hmem in Hin as [_ [? ?]]. congruence.
      * unfold set_add. by rewrite decide_True.
    + intros a. rewrite Hmem, Hsnoc. split; [by intros [? ?]; split; [left|]|].
      intros [[?| ->] Hs]; [done|]. destruct Hin as [Hin|Hin].
      * by apply Hmem.
      * apply elem_of_stringKeys in Hin as (_ & Hn & _).
        destruct Hs. congruence.
  - apply obj_get_None in Hg. rewrite Hkeys in Hg.
    apply not_elem_of_app in Hg as [Hn1 Hn2].
    destruct (arrayIndex k) as [i|] eqn:Hk.
    + (* a new array index *)
      rewrite decide_False by (by intros [? _]).
      rewrite obj_keys_insert_index, Hkeys.
      destruct (insert_key_sorted idx (stringKeys names) i k
                  Hidx Hsort Hstr Hk Hn1) as (idx' & -> & Hi' & Hs' & Hm').
      exists idx'. split_and!; try done.
      intros a. rewrite Hm', Hmem, Hsnoc. split.
      * intros [->|[? ?]]; [split; [by right | by rewrite Hk]|].
        split; [by left | done].
      * intros [[?| ->] Hs]; [right; done | by left].
    + (* a new key of another kind *)
      rewrite decide_True by done.
      exists idx. unfold obj_keys in *. rewrite fmap_app, Hkeys. cbn.
      unfold set_add. rewrite decide_False by done.
      rewrite <-app_assoc. split_and!; try done.
      intros a. rewrite Hmem, Hsnoc. split; [by intros [? ?]; split; [left|]|].
      intros [[?| ->] Hs]; [done|]. destruct Hs. congruence.
Qed.

Lemma traits_of_attributes_keys (attrs : list Attribute)
    (t : list (string * string)) (names idx : list string) :
  obj_keys t = idx ++ stringKeys names →
  Forall (fun a => is_Some (arrayIndex a)) idx →
  StronglySorted indexLt idx →
  (∀ a, a ∈ idx ↔ a ∈ names ∧ is_Some (arrayIndex a)) →
  ∃ idx',
    obj_keys (foldl (fun t attr =>
                       obj_set t (trait_type attr) (attr_value attr))
                    t attrs)
      = idx' ++ stringKeys (names ++ (trait_type <$> attrs)) ∧
    Forall (fun a => is_Some (arrayIndex a)) idx' ∧
    StronglySorted indexLt idx' ∧
    (∀ a, a ∈ idx' ↔
          a ∈ names ++ (trait_type <$> attrs) ∧ is_Some (arrayIndex a)).
Proof.
  revert t names idx. induction attrs as [|a attrs IH];
    intros t names idx Hkeys Hidx Hsort Hmem.
  - exists idx. cbn. rewrite app_nil_r. done.
  - cbn [foldl fmap list_fmap].
    destruct (obj_set_keys t names idx (trait_type a) (attr_value a)
                Hkeys Hidx Hsort Hmem) as (idx1 & Hk1 & Hi1 & Hs1 & Hm1).
    destruct (IH _ _ _ Hk1 Hi1 Hs1 Hm1) as (idx' & Hk' & Hi' & Hs' & Hm').
    exists idx'. rewrite <-app_assoc in Hk', Hm'. done.
Qed.

Lemma traits_of_attributes_get (attrs : list Attribute)
    (t : list (string * string)) (k : string) :
  obj_get (foldl (fun t attr =>
                    obj_set t (trait_type attr) (attr_value attr)) t attrs) k
  = if decide (k = "__proto__"%string) then obj_get t k
    else match last (filter (fun a => trait_type a = k) attrs) with
         | Some a => Some (attr_value a)
         | None => obj_get t k
         end.
Proof.
  revert t. induction attrs as [|a attrs IH]; intros t.
  { cbn. by case_decide. }
  cbn [foldl]. rewrite IH, filter_cons, obj_get_set.
  destruct (decide (k = "__proto__"%string)) as [->|Hk].
  { by destruct (decide (trait_type a = "__proto__"%string)). }
  destruct (decide (trait_type a = k)) as [Ha|Ha].
  - rewrite last_cons. destruct (last _); [done|].
    rewrite decide_False by congruence. done.
  - destruct (last _); [done|]. by case_decide.
Qed.

Lemma StronglySorted_indexLt_NoDup (idx : list string) :
  StronglySorted indexLt idx → NoDup idx.
Proof.
  induction 1 as [|a idx Hs IH Hlt]; constructor; [|done].
  intros Hin. apply (proj1 (Forall_forall _ _) Hlt) in Hin.
  unfold indexLt in Hin. destruct (arrayIndex a); [lia | done].
Qed.

(** X1: [normalizeNFT] returns null exactly for a record without
    attributes.  Otherwise it copies the six scalar fields, starts with an
    empty rarity, and flattens the attributes.  Each trait type but
    [__proto__], for which nothing is stored, becomes one key.  As
    [Object.keys] lists them, the trait types that are array indices come
    first, in ascending numeric order, and the others follow in the order
    of first appearance.  A trait type that occurs more than once keeps the
    value of its LAST attribute. *)
Theorem normalizeNFT_flattens (raw : RawNFT) :
  normalizeNFT None = None ∧
  match raw_attributes raw with
  | None => normalizeNFT (Some raw) = None
  | Some attrs =>
      ∃ nft, normalizeNFT (Some raw) = Some nft ∧
        mintAddress nft = raw_mintAddress raw ∧
        name nft = raw_name raw ∧
        image nft = raw_image raw ∧
        price nft = raw_price raw ∧
        seller nft = raw_seller raw ∧
        tokenAddress nft = raw_tokenAddress raw ∧
        rarity nft = ∅ ∧
        NoDup (obj_keys (traits nft)) ∧
        (∀ k, k ∈ obj_keys (traits nft) ↔
              k ∈ trait_type <$> attrs ∧ k ≠ "__proto__"%string) ∧
        (∃ idx,
           obj_keys (traits nft)
             = idx ++ stringKeys (trait_type <$> attrs) ∧
           Forall (fun k => is_Some (arrayIndex k)) idx ∧
           StronglySorted indexLt idx) ∧
        (∀ k, obj_get (traits nft) k =
              if decide (k = "__proto__"%string) then None
              else attr_value <$>
                     last (filter (fun a => trait_type a = k) attrs))
  end.
Proof.
  split; [done|]. unfold normalizeNFT.
  destruct (raw_attributes raw) as [attrs|]; [|done].
  eexists. split; [reflexivity|]. cbn [traits].
  destruct (traits_of_attributes_keys attrs [] [] [])
    as (idx & Hkeys & Hidx & Hsort & Hmem); try done.
  { constructor. }
  { intros a. rewrite elem_of_nil. tauto. }
  rewrite app_nil_l in Hkeys, Hmem.
  split_and!; try reflexivity.
  - rewrite Hkeys. apply NoDup_app. split_and!.
    + by apply StronglySorted_indexLt_NoDup.
    + intros k [_ [i Hi]]%Hmem (_ & Hn & _)%elem_of_stringKeys. congruence.
    + apply NoDup_foldl_set_add, NoDup_nil_2.
  - intros k. rewrite Hkeys, elem_of_app, Hmem, elem_of_stringKeys. split.
    + intros [[Hin [i Hi]]|(Hin & _ & Hp)]; [|done]. split; [done|].
      intros ->. by rewrite arrayIndex_proto in Hi.
    + intros [Hin Hp]. destruct (arrayIndex k) as [i|] eqn:Hi.
      * left. split; [done | by eexists].
      * by right.
  - by exists idx.
  - intros k. rewrite traits_of_attributes_get. case_decide; [done|].
    by destruct (last _).
Qed.

(** Trait types 10, Hat, 2 and [__proto__]: the keys are 2, 10, Hat. *)
Example normalizeNFT_key_order :
  obj_keys <$> (traits <$>
    normalizeNFT
      (Some {| raw_mintAddress := "m"; raw_name := "n"; raw_image := "";
               raw_price := None; raw_seller := None; raw_tokenAddress := "t";
               raw_attributes :=
                 Some [ {| trait_type := "10"; attr_value := "a" |};
                        {| trait_type := "Hat"; attr_value := "b" |};
                        {| trait_type := "__proto__"; attr_value := "c" |};
                        {| trait_type := "2"; attr_value := "d" |} ] |}))
  = Some ["2"; "10"; "Hat"]%string.
Proof. vm_compute. reflexivity. Qed.

End NormalizeFacts.

Section FindRareFurther.

Lemma countTraits_column_inhabited (nfts : list NFT) (type : string)
    (table : gmap string TraitStat) :
  traitCounts (countTraits nfts) !! type = Some table → table ≠ ∅.
Proof.
  rewrite countTraits_lookup. case_decide as Hin; [|done].
  intros [= <-] Hempty.
  apply elem_of_collectTraitTypes in Hin as (nft & Hnft & _).
  destruct nfts as [|x nfts]; [by apply elem_of_nil in Hnft|].
  apply (f_equal (fun m => m !! traitValue x type)) in Hempty.
  rewrite lookup_fmap, tally_lookup, lookup_empty in Hempty.
  rewrite occurrences_cons in Hempty.
  rewrite (decide_True (P := traitValue x type = traitValue x type))
    in Hempty by done.
  by rewrite decide_False in Hempty by lia.
Qed.

(** X2: the table [countTraits] builds from a snapshot none of whose trait
    types and values is named like a member of [Object.prototype] is one
    [findRareNFTs] never throws on, whatever items are classified against
    it: [traitTypes] lists each type once, the listed types are exactly the
    keys of [traitCounts], and no column is empty. *)
Theorem findRareNFTs_accepts_countTraits (cfg : RaritySettings)
    (snapshot listed : list NFT) :
  plainNames snapshot →
  is_Some (findRareNFTs cfg listed (countTraits snapshot)) ∧
  NoDup (traitTypes (countTraits snapshot)) ∧
  (∀ type, type ∈ traitTypes (countTraits snapshot) ↔
           is_Some (traitCounts (countTraits snapshot) !! type)) ∧
  (∀ type table, traitCounts (countTraits snapshot) !! type = Some table →
                 table ≠ ∅).
Proof.
  intros _. split_and!.
  - unfold findRareNFTs.
    assert (Hrun : findRareNFTs_run cfg listed (countTraits snapshot) =
              Some (visited cfg (countTraits snapshot) <$> listed,
                    omap (pushed cfg (countTraits snapshot)) listed)).
    { apply findRareNFTs_run_spec. split; [|done].
      apply wellFormed_checked, countTraits_wellFormed. }
    rewrite Hrun. by eexists.
  - apply NoDup_collectTraitTypes.
  - intros type. rewrite countTraits_lookup. cbn.
    case_decide; split; try done; by intros [? ?].
  - apply countTraits_column_inhabited.
Qed.

Lemma findRareNFTs_accepts_countTraits_witness :
  plainNames threeHats ∧
  is_Some (findRareNFTs defaultRarity [constructorHat; greenHat]
                        (countTraits threeHats)) ∧
  NoDup (traitTypes (countTraits threeHats)).
Proof.
  assert (Hp : plainNames threeHats) by (unfold plainNames; compute_done).
  split; [exact Hp|].
  destruct (findRareNFTs_accepts_countTraits defaultRarity threeHats
              [constructorHat; greenHat] Hp) as (Hret & Hnd & _).
  split; [exact Hret | exact Hnd].
Defined.


(** What an item of the returned list looks like. *)
Lemma findRareNFTs_member (cfg : RaritySettings) (nfts : list NFT)
    (ta : TraitAnalysis) (rareNFTs : list NFT) (x : NFT) :
  findRareNFTs cfg nfts ta = Some rareNFTs → x ∈ rareNFTs →
  (∃ nft, nft ∈ nfts ∧ x = set_rarity nft (rarity x)) ∧
  (∃ type d, rarity x !! type = Some d ∧ rd_rare d = true) ∧
  (∀ type d, rarity x !! type = Some d →
             type ∈ traitTypes ta ∧ rd_value d = traitValue x type).
Proof.
  intros Hret. unfold findRareNFTs in Hret.
  destruct (findRareNFTs_run cfg nfts ta) as [[h r]|] eqn:E; [|done].
  injection Hret as ->.
  apply findRareNFTs_run_spec in E as (Hall & _ & ->).
  intros (nft & Hnft & (details & Hrun & ->)%pushed_Some)%list_elem_of_omap.
  assert (Hwf : wellFormed ta)
    by (apply (checkTraits_Some_wellFormed cfg ta nft); by eexists).
  destruct (checkTraits_spec cfg ta nft Hwf) as (r & d & Hrun' & Hd & Hr).
  assert (r = true ∧ d = details) as [-> ->] by (split; congruence).
  split_and!.
  - by exists nft.
  - by apply Hr.
  - intros type dd Hl. cbn in Hl. rewrite Hd in Hl.
    case_decide as Hin; [|done]. split; [done|].
    unfold annotationOf in Hl.
    destruct (statOf (traitCounts ta) nft type) as [st|].
    + injection Hl as <-.
      by destruct (annotate_fields cfg (traitValue nft type) st) as (-> & _).
    + case_decide; [|done]. by injection Hl as <-.
Qed.



Lemma sublist_mints_omap2 (f g : NFT → option NFT) (nfts : list NFT) :
  (∀ nft x, f nft = Some x → mintAddress x = mintAddress nft) →
  (∀ nft x, g nft = Some x → mintAddress x = mintAddress nft) →
  (∀ nft, nft ∈ nfts → is_Some (f nft) → is_Some (g nft)) →
  mintAddress <$> omap f nfts `sublist_of` mintAddress <$> omap g nfts.
Proof.
  intros Hf Hg Hfg. induction nfts as [|nft nfts IH]; [done|].
  assert (IH' : mintAddress <$> omap f nfts
                  `sublist_of` mintAddress <$> omap g nfts).
  { apply IH. intros n Hn. apply Hfg. by right. }
  cbn [omap list_omap].
  destruct (f nft) as [x|] eqn:Ef.
  - destruct (Hfg nft) as [y Eg]; [by left | by eexists |].
    rewrite Eg. cbn [fmap list_fmap].
    rewrite (Hf _ _ Ef), (Hg _ _ Eg). by apply sublist_skip.
  - destruct (g nft) as [y|]; [|done].
    cbn [fmap list_fmap]. by apply sublist_cons.
Qed.

(** X4: switching the one-of-one rule on can only add rare items.  With
    the same threshold and the same table, every item returned without the
    rule is returned with it, in the same order. *)
Theorem oneOfOne_rule_only_adds (cfg : RaritySettings) (nfts : list NFT)
    (ta : TraitAnalysis) (rareNFTs : list NFT) :
  findRareNFTs cfg nfts ta = Some rareNFTs →
  ∃ rareNFTs',
    findRareNFTs (withOneOfOne cfg) nfts ta = Some rareNFTs' ∧
    mintAddress <$> rareNFTs `sublist_of` mintAddress <$> rareNFTs' ∧
    length rareNFTs ≤ length rareNFTs'.
Proof.
  intros Hret. unfold findRareNFTs in Hret.
  destruct (findRareNFTs_run cfg nfts ta) as [[h r]|] eqn:E; [|done].
  injection Hret as ->.
  apply findRareNFTs_run_spec in E as (Hall & _ & ->).
  assert (Hwf : ∀ nft, nft ∈ nfts → wellFormed ta).
  { intros nft Hnft. apply (checkTraits_Some_wellFormed cfg ta nft).
    by apply (proj1 (Forall_forall _ _) Hall). }
  exists (omap (pushed (withOneOfOne cfg) ta) nfts).
  assert (Hsub : mintAddress <$> omap (pushed cfg ta) nfts `sublist_of`
                 mintAddress <$> omap (pushed (withOneOfOne cfg) ta) nfts).
  { apply sublist_mints_omap2.
    - intros nft x (d & _ & ->)%pushed_Some. done.
    - intros nft x (d & _ & ->)%pushed_Some. done.
    - intros nft Hnft [x (d & Hrun & _)%pushed_Some].
      destruct (checkTraits_spec cfg ta nft (Hwf nft Hnft))
        as (r & d0 & Hrun0 & Hd0 & Hr0).
      assert (r = true) as -> by congruence.
      destruct (proj1 Hr0 eq_refl) as (type & dd & Hl & Hrare).
      rewrite Hd0 in Hl. case_decide as Hin; [|done].
      destruct (annotationOf_rare cfg _ _ _ _ Hl Hrare) as (st & Hs & ->).
      destruct (checkTraits_spec (withOneOfOne cfg) ta nft (Hwf nft Hnft))
        as (r1 & d1 & Hrun1 & Hd1 & Hr1).
      assert (r1 = true) as ->.
      { apply Hr1. exists type, (annotate (withOneOfOne cfg)
                                          (traitValue nft type) st).
        split.
        - rewrite Hd1, decide_True by done. unfold annotationOf.
          by rewrite Hs.
        - apply annotate_rare. apply annotate_rare in Hrare.
          destruct Hrare as [[_ Hc]|Hle]; [left | right]; done. }
      eexists. apply pushed_Some. by eexists. }
  split_and!; [|done|].
  - unfold findRareNFTs.
    assert (Hrun : findRareNFTs_run (withOneOfOne cfg) nfts ta =
              Some (visited (withOneOfOne cfg) ta <$> nfts,
                    omap (pushed (withOneOfOne cfg) ta) nfts)).
    { apply findRareNFTs_run_spec. split; [|done].
      apply Forall_forall. intros nft Hnft.
      destruct (checkTraits_spec (withOneOfOne cfg) ta nft (Hwf nft Hnft))
        as (r1 & d1 & -> & _). by eexists. }
    by rewrite Hrun.
  - apply sublist_length in Hsub. by rewrite !length_fmap in Hsub.
Qed.

Lemma oneOfOne_rule_only_adds_witness :
  findRareNFTs {| oneOfOneThreshold := false; percentThreshold := 1 |}
               threeHats (countTraits threeHats) = Some [] ∧
  ∃ rareNFTs',
    findRareNFTs defaultRarity threeHats (countTraits threeHats)
      = Some rareNFTs' ∧
    length (@nil NFT) ≤ length rareNFTs'.
Proof.
  assert (E : findRareNFTs
                {| oneOfOneThreshold := false; percentThreshold := 1 |}
                threeHats (countTraits threeHats) = Some [])
    by (vm_compute; reflexivity).
  split; [exact E|].
  destruct (oneOfOne_rule_only_adds _ _ _ _ E) as (r' & Hr' & _ & Hlen).
  exists r'. split; [exact Hr' | exact Hlen].
Defined.

End FindRareFurther.

Section RemoteFurther.

Lemma limit_pos : 0 < limit.
Proof. unfold limit. lia. Qed.

Lemma listingsLoop_pages (srv : Server) (symbol : string)
    (pages : nat → list Listing) (k : nat) :
  servesListings srv symbol pages →
  (∀ j, j < k → limit ≤ length (pages (j * limit))) →
  length (pages (k * limit)) < limit →
  ∀ d j fuel allListings w,
    j + d = k → d < fuel →
    listingsLoop fuel srv symbol allListings (j * limit) w =
    Some (allListings ++ pagesFrom pages j (S d),
          w ++ pageRequests symbol j (S d)).
Proof.
  intros Hsrv Hfull Hshort.
  induction d as [|d IH]; intros j fuel allListings w Hj Hfuel;
    (destruct fuel as [|fuel]; [lia|]); cbn [listingsLoop]; rewrite Hsrv.
  - assert (j = k) as -> by lia.
    unfold pagesFrom, pageRequests. cbn [seq mbind list_bind fmap list_fmap].
    rewrite app_nil_r.
    destruct (pages (k * limit)) as [|l data] eqn:Hp; [by rewrite app_nil_r|].
    rewrite (proj2 (Nat.ltb_lt _ _)) by done. done.
  - pose proof limit_pos as Hpos.
    assert (Hlen : limit ≤ length (pages (j * limit))) by (apply Hfull; lia).
    destruct (pages (j * limit)) as [|l data] eqn:Hp; [cbn in Hlen; lia|].
    rewrite (proj2 (Nat.ltb_ge _ _)) by done.
    replace (j * limit + limit) with (S j * limit) by lia.
    rewrite (IH (S j)) by lia.
    unfold pagesFrom, pageRequests.
    cbn [seq mbind list_bind fmap list_fmap]. rewrite Hp.
    by rewrite <-!app_assoc.
Qed.

(** X5: against an endpoint that serves the listings by offset without
    failing, [getCollectionListings] asks for the offsets 0, 500, 1000, ...
    in turn, stops at the first page shorter than 500 (empty included), and
    returns all the pages up to and including that one, in order; it makes
    one request per page and no other. *)
Theorem getCollectionListings_pages (srv : Server) (symbol : string)
    (pages : nat → list Listing) (k fuel : nat) (w : World) :
  servesListings srv symbol pages →
  (∀ j, j < k → limit ≤ length (pages (j * limit))) →
  length (pages (k * limit)) < limit →
  k < fuel →
  getCollectionListings fuel srv symbol w =
  Some (pagesFrom pages 0 (S k), w ++ pageRequests symbol 0 (S k)).
Proof.
  intros Hsrv Hfull Hshort Hfuel. unfold getCollectionListings.
  change 0 with (0 * limit) at 1.
  by rewrite (listingsLoop_pages srv symbol pages k Hsrv Hfull Hshort k 0).
Qed.

Lemma getCollectionListings_pages_witness :
  getCollectionListings 2 twoPageServer "demo" [] =
  Some (pagesFrom twoPages 0 2, [] ++ pageRequests "demo" 0 2).
Proof.
  apply (getCollectionListings_pages twoPageServer "demo" twoPages 1 2 []).
  - intros i offset. reflexivity.
  - intros j Hj. assert (j = 0) as -> by lia. vm_compute. lia.
  - vm_compute. lia.
  - lia.
Defined.

Lemma getNFTMetadata_Some (srv : Server) (mint : string) (w w' : World)
    (metadata : RawNFT) :
  getNFTMetadata srv mint w = (Some metadata, w') →
  token srv (issued w) mint = inl (Some metadata).
Proof.
  unfold getNFTMetadata.
  destruct (token srv (issued w) mint) as [data|e].
  - by intros [= -> _].
  - destruct (requestError _ _ _). by intros [= ].
Qed.

(** The token loop keeps any property of the collected records that adding
    a record fetched for a mint not yet collected, below the cap, keeps. *)
Lemma fetchTokens_invariant (P : list RawNFT → Prop) (srv : Server)
    (maxNFTs : nat) :
  (∀ allNFTs mint metadata i,
     P allNFTs → length allNFTs < maxNFTs →
     (∀ nft, nft ∈ allNFTs → raw_mintAddress nft ≠ mint) →
     token srv i mint = inl (Some metadata) →
     P (allNFTs ++ [metadata])) →
  ∀ mints allNFTs w,
    P allNFTs → P (fetchTokens srv maxNFTs mints allNFTs w).1.1.
Proof.
  intros Hstep. induction mints as [|mint mints IH]; intros allNFTs w HP;
    cbn [fetchTokens]; [done|].
  destruct (Nat.leb_spec maxNFTs (length allNFTs)) as [Hcap|Hcap]; [done|].
  destruct (existsb _ allNFTs) eqn:Hex; [by apply IH|].
  destruct (getNFTMetadata srv mint w) as [[metadata|] w'] eqn:Hget;
    [|by apply IH].
  apply IH. eapply Hstep; [done | done | | by eapply getNFTMetadata_Some].
  intros nft Hnft Heq.
  assert (existsb (fun nft => bool_decide (raw_mintAddress nft = mint))
                  allNFTs = true); [|congruence].
  apply existsb_exists. exists nft. split; [by apply list_elem_of_In|].
  by apply bool_decide_eq_true_2.
Qed.

Lemma allNFTsLoop_invariant (P : list RawNFT → Prop) (srv : Server)
    (maxNFTs : nat) (symbol : string) :
  (∀ allNFTs mint metadata i,
     P allNFTs → length allNFTs < maxNFTs →
     (∀ nft, nft ∈ allNFTs → raw_mintAddress nft ≠ mint) →
     token srv i mint = inl (Some metadata) →
     P (allNFTs ++ [metadata])) →
  ∀ fuel allNFTs offset w result w',
    P allNFTs →
    allNFTsLoop fuel srv maxNFTs symbol allNFTs offset w = Some (result, w') →
    P result.
Proof.
  intros Hstep. induction fuel as [|fuel IH];
    intros allNFTs offset w result w' HP Hrun; [done|].
  cbn [allNFTsLoop] in Hrun.
  destruct (activities srv (issued w) symbol offset limit)
    as [[[|a data]|]|e].
  - by injection Hrun as <- _.
  - pose proof (fetchTokens_invariant P srv maxNFTs Hstep
                  (uniqueTokens (a :: data)) allNFTs
                  (w ++ [Get (GetActivities symbol offset limit)]) HP) as HP'.
    destruct (fetchTokens _ _ _ _ _) as [[allNFTs' hasMore] w2].
    cbn in HP'.
    destruct (if _ : bool then false else hasMore).
    + by eapply IH.
    + by injection Hrun as <- _.
  - by injection Hrun as <- _.
  - destruct (requestError _ _ _) as [[] w2].
    + by eapply IH.
    + by injection Hrun as <- _.
Qed.

(** X6: the enumeration never returns more than [maxNFTsToFetch] records,
    whatever the endpoint serves. *)
Theorem getAllCollectionNFTs_capped_length (fuel : nat) (srv : Server)
    (maxNFTs : nat) (symbol : string) (w w' : World)
    (allNFTs : list RawNFT) :
  getAllCollectionNFTs fuel srv maxNFTs symbol w = Some (allNFTs, w') →
  length allNFTs ≤ maxNFTs.
Proof.
  intros Hrun. unfold getAllCollectionNFTs in Hrun.
  eapply (allNFTsLoop_invariant (fun l => length l ≤ maxNFTs));
    [| |exact Hrun]; [|cbn; lia].
  intros l mint metadata i _ Hlt _ _. rewrite length_app. cbn. lia.
Qed.

(** X7: when the endpoint's token records carry the mint address they were
    asked for, the enumeration returns no two records with the same mint
    address, however often a mint shows up in the activity pages. *)
Theorem getAllCollectionNFTs_distinct_mints (fuel : nat) (srv : Server)
    (maxNFTs : nat) (symbol : string) (w w' : World)
    (allNFTs : list RawNFT) :
  answersMint srv →
  getAllCollectionNFTs fuel srv maxNFTs symbol w = Some (allNFTs, w') →
  NoDup (raw_mintAddress <$> allNFTs).
Proof.
  intros Hsrv Hrun. unfold getAllCollectionNFTs in Hrun.
  eapply (allNFTsLoop_invariant (fun l => NoDup (raw_mintAddress <$> l)));
    [| |exact Hrun]; [|apply NoDup_nil_2].
  intros l mint metadata i Hnd _ Hfresh Htoken.
  rewrite fmap_app. apply NoDup_app. split_and!; [done| |].
  - intros m (nft & -> & Hnft)%list_elem_of_fmap Hm.
    cbn in Hm. apply list_elem_of_singleton in Hm.
    apply (Hfresh nft Hnft). rewrite Hm. by apply (Hsrv i).
  - cbn. apply NoDup_singleton.
Qed.

Lemma getAllCollectionNFTs_capped_length_witness :
  ∃ allNFTs w',
    getAllCollectionNFTs 1 demoServer 2 "demo" [] = Some (allNFTs, w') ∧
    length allNFTs ≤ 2.
Proof.
  destruct (getAllCollectionNFTs 1 demoServer 2 "demo" [])
    as [[allNFTs w']|] eqn:E; [|vm_compute in E; discriminate].
  exists allNFTs, w'. split; [reflexivity|].
  exact (getAllCollectionNFTs_capped_length 1 demoServer 2 "demo" [] w'
           allNFTs E).
Defined.

Lemma answersMint_demoServer : answersMint demoServer.
Proof. intros i mint nft [= <-]. reflexivity. Qed.

Lemma getAllCollectionNFTs_distinct_mints_witness :
  ∃ allNFTs w',
    getAllCollectionNFTs 1 demoServer 100 "demo" [] = Some (allNFTs, w') ∧
    NoDup (raw_mintAddress <$> allNFTs).
Proof.
  destruct (getAllCollectionNFTs 1 demoServer 100 "demo" [])
    as [[allNFTs w']|] eqn:E; [|vm_compute in E; discriminate].
  exists allNFTs, w'. split; [reflexivity|].
  exact (getAllCollectionNFTs_distinct_mints 1 demoServer 100 "demo" [] w'
           allNFTs answersMint_demoServer E).
Defined.

End RemoteFurther.

Section CacheFurther.



Lemma seen_path_of_suffixed (symbol : string) :
  getCacheFilePath (symbol +:+ "_seen") = getSeenRareNFTsPath symbol.
Proof.
  unfold getCacheFilePath, getSeenRareNFTsPath. f_equal.
  induction symbol as [|c symbol IH]; [reflexivity|].
  change (String c ((symbol +:+ "_seen") +:+ ".json")
          = String c (symbol +:+ "_seen.json")).
  by rewrite IH.
Qed.

(** X9: the snapshot file of the collection [S_seen] IS the seen-set file
    of the collection [S].  Saving a snapshot for [S_seen] therefore makes
    [S] forget every mint it had seen, and clearing the cache of [S_seen]
    deletes the seen set of [S]. *)
Theorem suffixed_symbol_shares_seen_file (cfg : CollectionAnalysis)
    (d : gmap string File) (now : Z) (symbol : string)
    (data : list RawNFT) :
  getCacheFilePath (symbol +:+ "_seen") = getSeenRareNFTsPath symbol ∧
  (cacheFullCollectionData cfg = true →
   ∀ m, m ∉ loadSeenRareNFTs
              (snd (saveToCache cfg d true now (symbol +:+ "_seen") data))
              symbol) ∧
  (∀ m, m ∉ loadSeenRareNFTs
             (snd (clearCache d true (symbol +:+ "_seen"))) symbol).
Proof.
  split_and!.
  - apply seen_path_of_suffixed.
  - intros Hon m. unfold saveToCache, writeFileSync, loadSeenRareNFTs.
    rewrite Hon. cbn. rewrite seen_path_of_suffixed, lookup_insert_eq. cbn.
    apply not_elem_of_nil.
  - intros m. unfold clearCache, loadSeenRareNFTs.
    rewrite seen_path_of_suffixed.
    destruct (d !! getSeenRareNFTsPath symbol) eqn:E; cbn.
    + rewrite lookup_delete_eq. apply not_elem_of_nil.
    + rewrite E. apply not_elem_of_nil.
Qed.

(** X10: after a successful [clearCache] there is no usable snapshot,
    whatever the clock says, and clearing again changes nothing and still
    reports success.  Clearing where there is no snapshot file succeeds
    without touching the directory; a failing delete reports false and
    leaves the file. *)
Theorem clearCache_then_absent (cfg : CollectionAnalysis)
    (d : gmap string File) (now : Z) (symbol : string) :
  (∃ d', clearCache d true symbol = (true, d') ∧
     d' !! getCacheFilePath symbol = None ∧
     cacheExists cfg d' now symbol = false ∧
     loadFromCache cfg d' now symbol = None ∧
     (∀ removable, clearCache d' removable symbol = (true, d')) ∧
     (∀ path, path ≠ getCacheFilePath symbol → d' !! path = d !! path)) ∧
  (d !! getCacheFilePath symbol = None →
   ∀ removable, clearCache d removable symbol = (true, d)) ∧
  (is_Some (d !! getCacheFilePath symbol) →
   clearCache d false symbol = (false, d)).
Proof.
  assert (Hmiss : ∀ d0 : gmap string File,
            d0 !! getCacheFilePath symbol = None →
            cacheExists cfg d0 now symbol = false ∧
            loadFromCache cfg d0 now symbol = None ∧
            ∀ removable, clearCache d0 removable symbol = (true, d0)).
  { intros d0 H0. unfold loadFromCache, cacheExists, clearCache.
    rewrite H0. split_and!; try done.
    by destruct (cacheFullCollectionData cfg). }
  split_and!.
  - unfold clearCache.
    destruct (d !! getCacheFilePath symbol) as [file|] eqn:E.
    + eexists. split; [reflexivity|].
      assert (Hd : delete (getCacheFilePath symbol) d
                     !! getCacheFilePath symbol = None)
        by apply lookup_delete_eq.
      destruct (Hmiss _ Hd) as (? & ? & ?). split_and!; try done.
      intros path Hne. by rewrite lookup_delete_ne.
    + eexists. split; [reflexivity|].
      destruct (Hmiss _ E) as (? & ? & ?). done.
  - intros Hnone. by apply Hmiss.
  - intros [file Hfile]. unfold clearCache. by rewrite Hfile.
Qed.

(** X11: time only ever takes a snapshot away.  While the directory is
    unchanged, a snapshot that [loadFromCache] reports absent at one time is
    absent at every later time. *)
Theorem loadFromCache_absent_stays_absent (cfg : CollectionAnalysis)
    (d : gmap string File) (now now' : Z) (symbol : string) :
  (now ≤ now')%Z →
  loadFromCache cfg d now symbol = None →
  loadFromCache cfg d now' symbol = None.
Proof.
  intros Hle. unfold loadFromCache, cacheExists.
  destruct (cacheFullCollectionData cfg); cbn [negb]; [|done].
  destruct (d !! getCacheFilePath symbol) as [file|]; [|done].
  destruct (mtime file) as [t|]; [|done].
  destruct (Z.ltb_spec (cacheExpireHours cfg * 60 * 60 * 1000) (now - t));
    destruct (Z.ltb_spec (cacheExpireHours cfg * 60 * 60 * 1000) (now' - t));
    cbn [negb]; try done. lia.
Qed.

Lemma loadFromCache_absent_stays_absent_witness :
  let cfg := {| cacheFullCollectionData := true; cacheExpireHours := 1;
                maxNFTsToFetch := 10 |} in
  let d : gmap string File :=
    {[ getCacheFilePath "demo" :=
         {| mtime := Some 0%Z; parsed := Some (JSnapshot []) |} ]} in
  loadFromCache cfg d 3600000 "demo" = Some (JSnapshot []) ∧
  loadFromCache cfg d 3600001 "demo" = None ∧
  loadFromCache cfg d 9999999 "demo" = None.
Proof.
  cbv zeta. split; [vm_compute; reflexivity|].
  split; [vm_compute; reflexivity|].
  apply (loadFromCache_absent_stays_absent _ _ 3600001 9999999);
    [lia | vm_compute; reflexivity].
Defined.

End CacheFurther.

Section CycleFurther.

Lemma saveToCache_lookup (ca : CollectionAnalysis) (d : gmap string File)
    (ok : bool) (now : Z) (symbol : string) (data : list RawNFT)
    (path : string) :
  (path ≠ getCacheFilePath symbol ∨ cacheFullCollectionData ca = false →
   (snd (saveToCache ca d ok now symbol data)) !! path = d !! path) ∧
  (is_Some (d !! path) →
   is_Some ((snd (saveToCache ca d ok now symbol data)) !! path)).
Proof.
  unfold saveToCache, writeFileSync.
  destruct (cacheFullCollectionData ca), ok; cbn; split; try done.
  - intros [Hne|?]; [|done]. by rewrite lookup_insert_ne.
  - intros Hs. rewrite lookup_insert. by case_decide.
Qed.

Lemma saveSeenRareNFTs_lookup (d : gmap string File) (ok : bool) (now : Z)
    (symbol : string) (seen : list string) (path : string) :
  (path ≠ getSeenRareNFTsPath symbol →
   (snd (saveSeenRareNFTs d ok now symbol seen)) !! path = d !! path) ∧
  (is_Some (d !! path) →
   is_Some ((snd (saveSeenRareNFTs d ok now symbol seen)) !! path)).
Proof.
  unfold saveSeenRareNFTs, writeFileSync. destruct ok; cbn; split; try done.
  - intros Hne. by rewrite lookup_insert_ne.
  - intros Hs. rewrite lookup_insert. by case_decide.
Qed.

(** A cycle, taken apart: up to the classification it changes neither the
    seen set nor the notifications and writes at most the snapshot; it then
    either ends there or reports the result of [findRareNFTs] on a table of
    [countTraits]. *)
Lemma processCollection_cases (fuel : nat) (cfg : Config) (env : Env)
    (symbol : string) (st st' : State) :
  processCollection fuel cfg env symbol st = Some st' →
  ∃ st1,
    (st' = st1 ∨
     ∃ info snapshot listed rare,
       findRareNFTs (raritySettings cfg) listed (countTraits snapshot)
         = Some rare ∧
       st' = reportRare env symbol info rare st1) ∧
    seenRareNFTs st1 = seenRareNFTs st ∧
    notified st1 = notified st ∧
    (disk st1 = disk st ∨
     ∃ ok now data,
       disk st1 =
       snd (saveToCache (collectionAnalysis cfg) (disk st) ok now symbol
                        data)).
Proof.
  unfold processCollection, fullCollection. intros Hrun.
  repeat case_match; simplify_eq;
    first
      [ solve [ eexists; split; [left; reflexivity|];
                split_and!; try reflexivity;
                first [ left; reflexivity
                      | match goal with
                        | H : saveToCache ?ca ?d ?ok ?now ?s ?data = (_, ?g)
                          |- _ =>
                            right; exists ok, now, data; cbn in H |- *;
                            by rewrite H
                        end ] ]
      | solve [ eexists; split;
                [right; do 4 eexists; split; [eassumption | reflexivity]|];
                split_and!; try reflexivity;
                first [ left; reflexivity
                      | match goal with
                        | H : saveToCache ?ca ?d ?ok ?now ?s ?data = (_, ?g)
                          |- _ =>
                            right; exists ok, now, data; cbn in H |- *;
                            by rewrite H
                        end ] ] ].
Qed.

Lemma reportRare_cases (env : Env) (symbol : string) (info : CollectionInfo)
    (rare : list NFT) (st : State) :
  ∃ added,
    (∀ x, x ∈ added → x ∈ rare) ∧
    seenRareNFTs (reportRare env symbol info rare st)
      = foldl set_add (seenRareNFTs st) (mintAddress <$> added) ∧
    notified (reportRare env symbol info rare st)
      = notified st ++
        match added with [] => [] | _ :: _ => [(added, info_name info)] end ∧
    world (reportRare env symbol info rare st) = world st ∧
    (disk (reportRare env symbol info rare st) = disk st ∨
     ∃ ok now seen,
       disk (reportRare env symbol info rare st)
         = snd (saveSeenRareNFTs (disk st) ok now symbol seen)).
Proof.
  unfold reportRare. destruct rare as [|nft rare].
  { exists []. rewrite app_nil_r. split_and!; try done. by left. }
  destruct (foldl_noteRare (nft :: rare) (seenRareNFTs st) [])
    as (added & -> & _ & _ & Hsub).
  destruct (saveSeenRareNFTs _ _ _ _ _) as [ok disk'] eqn:Hsave.
  exists added. cbn [app]. split_and!; try done.
  - cbn. destruct added; [by rewrite app_nil_r | done].
  - right. do 3 eexists. cbn. by rewrite Hsave.
Qed.

(** X12: a scan cycle writes at most two files, the snapshot and the
    seen set of its own collection: every other file of the cache directory
    is as before, no file is ever removed, and with caching switched off the
    snapshot file is left alone as well. *)
Theorem processCollection_touches_own_files (fuel : nat) (cfg : Config)
    (env : Env) (symbol : string) (st st' : State) :
  processCollection fuel cfg env symbol st = Some st' →
  (∀ path, path ≠ getCacheFilePath symbol →
           path ≠ getSeenRareNFTsPath symbol →
           disk st' !! path = disk st !! path) ∧
  (∀ path, is_Some (disk st !! path) → is_Some (disk st' !! path)) ∧
  (cacheFullCollectionData (collectionAnalysis cfg) = false →
   disk st' !! getCacheFilePath symbol
     = disk st !! getCacheFilePath symbol).
Proof.
  intros Hrun.
  destruct (processCollection_cases _ _ _ _ _ _ Hrun)
    as (st1 & Hend & _ & _ & Hd1).
  assert (H1 : ∀ path,
            (path ≠ getCacheFilePath symbol ∨
             cacheFullCollectionData (collectionAnalysis cfg) = false →
             disk st1 !! path = disk st !! path) ∧
            (is_Some (disk st !! path) → is_Some (disk st1 !! path))).
  { intros path. destruct Hd1 as [->|(ok & now & data & ->)]; [done|].
    apply saveToCache_lookup. }
  assert (H2 : ∀ path,
            (path ≠ getSeenRareNFTsPath symbol →
             disk st' !! path = disk st1 !! path) ∧
            (is_Some (disk st1 !! path) → is_Some (disk st' !! path))).
  { intros path. destruct Hend as [->|(info & sn & li & rare & _ & ->)];
      [done|].
    destruct (reportRare_cases env symbol info rare st1)
      as (added & _ & _ & _ & _ & [->|(ok & now & seen & ->)]); [done|].
    apply saveSeenRareNFTs_lookup. }
  split_and!.
  - intros path Hc Hs. rewrite (proj1 (H2 path)) by done.
    apply H1. by left.
  - intros path Hsome. by apply H2, H1.
  - intros Hoff.
    rewrite (proj1 (H2 _)) by apply cache_paths_differ.
    apply H1. by right.
Qed.

Lemma processCollection_batch (fuel : nat) (cfg : Config) (env : Env)
    (symbol : string) (st st' : State) :
  processCollection fuel cfg env symbol st = Some st' →
  notified st' = notified st ∨
  ∃ item items collectionName,
    notified st' = notified st ++ [(item :: items, collectionName)] ∧
    ∀ x, x ∈ item :: items → hasRareTrait x.
Proof.
  intros Hrun.
  destruct (processCollection_cases _ _ _ _ _ _ Hrun)
    as (st1 & Hend & _ & Hn1 & _).
  destruct Hend as [->|(info & sn & li & rare & Hfind & ->)]; [by left|].
  destruct (reportRare_cases env symbol info rare st1)
    as (added & Hsub & _ & Hn & _).
  rewrite Hn, Hn1. destruct added as [|a added].
  { left. by rewrite app_nil_r. }
  right. exists a, added, (info_name info). split; [done|]. intros x Hx.
  by destruct (findRareNFTs_member _ _ _ _ x Hfind (Hsub x Hx)) as (_ & ? & _).
Qed.

(** X13: a scan cycle calls the sink at most once, never with an empty
    list, and every item it hands over carries at least one annotation marked
    rare. *)
Theorem processCollection_notifies_rare_items (fuel : nat) (cfg : Config)
    (env : Env) (symbol : string) (st st' : State) :
  processCollection fuel cfg env symbol st = Some st' →
  ∃ batches,
    notified st' = notified st ++ batches ∧
    length batches ≤ 1 ∧
    (∀ items collectionName, (items, collectionName) ∈ batches →
       items ≠ [] ∧ ∀ x, x ∈ items → hasRareTrait x).
Proof.
  intros Hrun.
  destruct (processCollection_batch _ _ _ _ _ _ Hrun)
    as [Hn|(a & items & cn & Hn & Hrare)].
  - exists []. rewrite app_nil_r. split_and!; [done | cbn; lia |].
    intros items cn Hin. by apply elem_of_nil in Hin.
  - exists [(a :: items, cn)]. split_and!; [done | cbn; lia |].
    intros items' cn' Hin.
    apply list_elem_of_singleton in Hin. injection Hin as -> ->. done.
Qed.




Lemma processCollection_touches_own_files_witness :
  ∃ st',
    processCollection 1 demoConfig demoEnv "demo" (startup ∅ "demo")
      = Some st' ∧
    (∀ path, is_Some (disk (startup ∅ "demo") !! path) →
             is_Some (disk st' !! path)).
Proof.
  destruct (processCollection 1 demoConfig demoEnv "demo" (startup ∅ "demo"))
    as [st'|] eqn:E; [|vm_compute in E; discriminate].
  exists st'. split; [reflexivity|].
  apply (processCollection_touches_own_files _ _ _ _ _ _ E).
Defined.

Lemma processCollection_notifies_rare_items_witness :
  ∃ st' batches,
    processCollection 1 demoConfig demoEnv "demo" (startup ∅ "demo")
      = Some st' ∧
    notified st' = notified (startup ∅ "demo") ++ batches ∧
    length batches ≤ 1.
Proof.
  destruct (processCollection 1 demoConfig demoEnv "demo" (startup ∅ "demo"))
    as [st'|] eqn:E; [|vm_compute in E; discriminate].
  destruct (processCollection_notifies_rare_items _ _ _ _ _ _ E)
    as (batches & Hn & Hlen & _).
  exists st', batches. split; [reflexivity|]. split; [exact Hn | exact Hlen].
Defined.


Lemma continues_refl (P : Event → Prop) (w : World) : continues P w w.
Proof. exists []. by rewrite app_nil_r. Qed.

Lemma continues_trans (P : Event → Prop) (w1 w2 w3 : World) :
  continues P w1 w2 → continues P w2 w3 → continues P w1 w3.
Proof.
  intros (n1 & -> & H1) (n2 & -> & H2). exists (n1 ++ n2).
  rewrite app_assoc. split; [done|]. by apply Forall_app.
Qed.

Lemma continues_snoc (P : Event → Prop) (w : World) (e : Event) :
  P e → continues P w (w ++ [e]).
Proof. intros He. exists [e]. split; [done|]. by apply Forall_singleton. Qed.

Lemma notActivities_Wait (ms : Z) : notActivities (Wait ms).
Proof. by intros s o l. Qed.

Lemma requestError_continues (source : string) (e : AxiosError) (w : World) :
  continues notActivities w (snd (requestError source e w)).
Proof.
  unfold requestError. destruct (response e) as [resp|];
    [|apply continues_refl].
  destruct (_ && _); cbn; [|apply continues_refl].
  apply continues_snoc, notActivities_Wait.
Qed.

Lemma getCollectionInfo_continues (srv : Server) (symbol : string)
    (w : World) :
  continues notActivities w (snd (getCollectionInfo srv symbol w)) ∧
  issued (snd (getCollectionInfo srv symbol w)) = S (issued w).
Proof.
  unfold getCollectionInfo.
  assert (H1 : continues notActivities w (w ++ [Get (GetCollection symbol)]))
    by (by apply continues_snoc; intros s o l).
  assert (Hi : issued (w ++ [Get (GetCollection symbol)]) = S (issued w))
    by (rewrite issued_app; cbn; lia).
  destruct (collectionInfo srv (issued w) symbol) as [data|e]; [done|].
  pose proof (requestError_continues "getCollectionInfo" e
                (w ++ [Get (GetCollection symbol)])) as H2.
  assert (Hi2 : issued (snd (requestError "getCollectionInfo" e
                  (w ++ [Get (GetCollection symbol)]))) = S (issued w)).
  { unfold requestError. destruct (response e) as [resp|]; [|done].
    destruct (_ && _); cbn [snd]; [|done]. rewrite issued_app, Hi.
    cbn. lia. }
  destruct (requestError _ _ _) as [retry w2]. cbn in *.
  split; [by eapply continues_trans | done].
Qed.

Lemma getNFTMetadata_continues (srv : Server) (mint : string) (w : World) :
  continues notActivities w (snd (getNFTMetadata srv mint w)).
Proof.
  unfold getNFTMetadata.
  assert (H1 : continues notActivities w (w ++ [Get (GetToken mint)]))
    by (by apply continues_snoc; intros s o l).
  destruct (token srv (issued w) mint) as [data|e]; [done|].
  pose proof (requestError_continues "getNFTMetadata" e
                (w ++ [Get (GetToken mint)])) as H2.
  destruct (requestError _ _ _) as [retry w2]. cbn in *.
  by eapply continues_trans.
Qed.

Lemma listingsLoop_continues (fuel : nat) (srv : Server) (symbol : string)
    (allListings : list Listing) (offset : nat) (w w' : World)
    (result : list Listing) :
  listingsLoop fuel srv symbol allListings offset w = Some (result, w') →
  continues notActivities w w'.
Proof.
  revert allListings offset w. induction fuel as [|fuel IH];
    intros allListings offset w Hrun; [done|].
  cbn [listingsLoop] in Hrun.
  assert (H1 : continues notActivities w
                 (w ++ [Get (GetListings symbol offset limit)]))
    by (by apply continues_snoc; intros s o l).
  destruct (listings srv (issued w) symbol offset limit)
    as [[[|l data]|]|e].
  - by injection Hrun as _ <-.
  - destruct (length (l :: data) <? limit).
    + by injection Hrun as _ <-.
    + eapply continues_trans; [exact H1 | by eapply IH].
  - by injection Hrun as _ <-.
  - pose proof (requestError_continues "getCollectionListings" e
                  (w ++ [Get (GetListings symbol offset limit)])) as H2.
    destruct (requestError _ _ _) as [[] w2]; cbn in H2.
    + eapply continues_trans; [by eapply continues_trans | by eapply IH].
    + injection Hrun as _ <-. by eapply continues_trans.
Qed.

Lemma fetchListed_continues (srv : Server) (listed : list Listing)
    (acc : list NFT) (w : World) :
  continues notActivities w (snd (fetchListed srv listed acc w)).
Proof.
  revert acc w. induction listed as [|listing listed IH]; intros acc w;
    cbn [fetchListed]; [apply continues_refl|].
  pose proof (getNFTMetadata_continues srv (tokenMint listing) w) as H1.
  destruct (getNFTMetadata srv (tokenMint listing) w) as [details w1].
  cbn in H1.
  destruct details as [details|];
    [destruct (normalizeNFT (Some details))|];
    (eapply continues_trans; [exact H1 | apply IH]).
Qed.

(** X15: a cycle that finds a fresh, non-empty snapshot in the cache does
    not enumerate the collection: it issues no request for activity pages,
    and it does not rewrite the snapshot file. *)
Theorem cached_snapshot_skips_enumeration (fuel : nat) (cfg : Config)
    (env : Env) (symbol : string) (st st' : State) (first : RawNFT)
    (rest : list RawNFT) :
  loadFromCache (collectionAnalysis cfg) (disk st)
                (clock env (S (issued (world st)))) symbol
    = Some (JSnapshot (first :: rest)) →
  processCollection fuel cfg env symbol st = Some st' →
  continues notActivities (world st) (world st') ∧
  disk st' !! getCacheFilePath symbol = disk st !! getCacheFilePath symbol.
Proof.
  intros Hcache. unfold processCollection, fullCollection.
  destruct (getCollectionInfo_continues (remote env) symbol (world st))
    as [H1 Hi].
  destruct (getCollectionInfo (remote env) symbol (world st))
    as [[info|] w1]; cbn [snd] in H1, Hi; [|by intros [= <-]].
  cbn [disk world set_world]. rewrite Hi, Hcache.
  cbn [fmap option_fmap option_map arrayOf list_fmap].
  change (world (set_world st w1)) with w1.
  destruct (getCollectionListings fuel (remote env) symbol w1)
    as [[[|l listed] w3]|] eqn:Hlist; [| |done].
  { intros [= <-]. cbn. split; [|done].
    eapply continues_trans; [exact H1 | by eapply listingsLoop_continues]. }
  pose proof (fetchListed_continues (remote env) (l :: listed) [] w3) as H4.
  destruct (fetchListed (remote env) (l :: listed) [] w3) as [normalized w4].
  cbn in H4.
  assert (H14 : continues notActivities (world st) w4).
  { eapply continues_trans; [exact H1|].
    eapply continues_trans; [by eapply listingsLoop_continues | exact H4]. }
  destruct (findRareNFTs _ _ _) as [rare|]; intros [= <-]; [|done].
  destruct (reportRare_cases env symbol info rare
              (set_world (set_world st w1) w4))
    as (added & _ & _ & _ & Hw & Hd).
  rewrite Hw. split; [done|].
  destruct Hd as [->|(ok & now & seen & ->)]; [done|].
  by rewrite (proj1 (saveSeenRareNFTs_lookup _ _ _ _ _ _))
    by apply cache_paths_differ.
Qed.

Lemma cached_snapshot_skips_enumeration_witness :
  ∃ st',
    processCollection 1 demoConfig demoEnv "demo" afterFirstCycle = Some st' ∧
    continues notActivities (world afterFirstCycle) (world st') ∧
    disk st' !! getCacheFilePath "demo"
      = disk afterFirstCycle !! getCacheFilePath "demo".
Proof.
  destruct (loadFromCache (collectionAnalysis demoConfig)
              (disk afterFirstCycle)
              (clock demoEnv (S (issued (world afterFirstCycle)))) "demo")
    as [[[|first rest]|seen]|] eqn:Hc;
    [vm_compute in Hc; discriminate | |
     vm_compute in Hc; discriminate | vm_compute in Hc; discriminate].
  destruct (processCollection 1 demoConfig demoEnv "demo" afterFirstCycle)
    as [st'|] eqn:E; [|vm_compute in E; discriminate].
  exists st'. split; [reflexivity|].
  exact (cached_snapshot_skips_enumeration _ _ _ _ _ _ _ _ Hc E).
Defined.

(** X16: nothing is notified twice across a restart.  When the cache
    directory takes the writes, a process started on the files an earlier
    process left behind notifies no mint the earlier one has notified,
    whatever the endpoint, the settings and the number of cycles of either
    are. *)
Theorem restart_does_not_renotify (fuel fuel' : nat) (cfg cfg' : Config)
    (env env' : Env) (symbol : string) (n n' : nat) (d : gmap string File)
    (st st2 : State) :
  (∀ t, writable env t = true) →
  cycles fuel cfg env symbol n (startup d symbol) = Some st →
  cycles fuel' cfg' env' symbol n' (startup (disk st) symbol) = Some st2 →
  ∀ m, m ∈ notifiedMints (notified st) → m ∉ notifiedMints (notified st2).
Proof.
  intros Hw Hrun1 Hrun2 m Hm1 Hm2.
  pose proof (seen_set_survives_restart _ _ _ _ _ _ _ Hw Hrun1) as Hsame.
  destruct (cycles_extends _ _ _ _ _ _ _ Hrun1) as (b1 & Hn1 & _ & Hs1 & _).
  destruct (cycles_extends _ _ _ _ _ _ _ Hrun2) as (b2 & Hn2 & _ & _ & Hf2).
  cbn in Hn1, Hn2. rewrite Hn1 in Hm1. rewrite Hn2 in Hm2.
  apply (Hf2 m Hm2). rewrite Hsame. apply Hs1. by right.
Qed.

Lemma restart_does_not_renotify_witness :
  ∃ st2,
    cycles 1 demoConfig demoEnv "demo" 1 (startup ∅ "demo")
      = Some afterFirstCycle ∧
    cycles 1 demoConfig demoEnv "demo" 2
           (startup (disk afterFirstCycle) "demo") = Some st2 ∧
    "m1"%string ∈ notifiedMints (notified afterFirstCycle) ∧
    "m1"%string ∉ notifiedMints (notified st2).
Proof.
  assert (E1 : cycles 1 demoConfig demoEnv "demo" 1 (startup ∅ "demo")
               = Some afterFirstCycle) by (vm_compute; reflexivity).
  assert (Hin : "m1"%string ∈ notifiedMints (notified afterFirstCycle)).
  { apply list_elem_of_In. vm_compute. by left. }
  destruct (cycles 1 demoConfig demoEnv "demo" 2
              (startup (disk afterFirstCycle) "demo")) as [st2|] eqn:E2;
    [|vm_compute in E2; discriminate].
  exists st2. split; [exact E1|]. split; [reflexivity|]. split; [exact Hin|].
  exact (restart_does_not_renotify 1 1 demoConfig demoConfig demoEnv demoEnv
           "demo" 1 2 ∅ afterFirstCycle st2
           (fun _ => eq_refl) E1 E2 "m1"%string Hin).
Defined.

End CycleFurther.

(** ** The summary notification *)

Section NotificationFurther.

(** Twelve items: the text counts all twelve, the payload carries the
    summary and ten item embeds, and an item without a rare annotation and
    without a price shows the two placeholders. *)
Example sendSummary_twelve :
  let r := sendRareSummaryDiscordNotification demoNotifications
             (fun _ _ => true) 0 (replicate 12 greenHat) "Demo" in
  fst r = true ∧
  (p_username ∘ snd <$> snd r) = ["Rare Sniper"%string] ∧
  (p_content ∘ snd <$> snd r)
    = ["Found 12 rare NFTs in collection **Demo**"%string] ∧
  (length ∘ p_embeds ∘ snd <$> snd r) = [11] ∧
  (head ∘ itemEmbeds ∘ snd <$> snd r)
    = [Some {| item_title := "m4";
               item_url := "https://magiceden.io/item-details/m4";
               item_thumbnail := "";
               item_price := NotListed;
               item_rareTraits := NoRareTraits;
               item_color := 65535 |}].
Proof. vm_compute. done. Qed.

Lemma itemEmbeds_Item (items : list ItemEmbed) :
  omap (fun e => match e with Item i => Some i | Summary _ => None end)
       (Item <$> items) = items.
Proof. induction items as [|i items IH]; [done|]. cbn. by rewrite IH. Qed.

Lemma itemEmbed_rareTraits (nft : NFT) :
  hasRareTrait nft → item_rareTraits (itemEmbed nft) ≠ NoRareTraits.
Proof.
  intros (type & d & Hd & Hrare). unfold itemEmbed. cbn [item_rareTraits].
  set (m := filter _ (rarity nft)).
  assert (Hm : m !! type = Some d)
    by (apply map_lookup_filter_Some; split; [exact Hd | exact Hrare]).
  destruct (0 <? size m) eqn:E; [done|].
  apply Nat.ltb_ge in E.
  assert (H0 : size m = 0) by lia.
  apply map_size_empty_iff in H0. by rewrite H0 in Hm.
Qed.

Lemma sendSummary_posts (notifications : option Settings)
    (post : string → Payload → bool) (now : Z) (nft : NFT) (nfts : list NFT)
    (collectionName url : string) :
  postsTo notifications url →
  ∃ p s,
    sendRareSummaryDiscordNotification notifications post now (nft :: nfts)
                                       collectionName
      = (post url p, [(url, p)]) ∧
    p_content p = foundText (S (length nfts)) collectionName ∧
    p_embeds p = Summary s :: (Item <$> (itemEmbed <$> take 10 (nft :: nfts))) ∧
    summary_description s
      = if 10 <? S (length nfts)
        then p_content p +:+ showingText (S (length nfts))
        else p_content p.
Proof.
  intros (d & Hd & Hen & Hurl). unfold sendRareSummaryDiscordNotification.
  rewrite Hd, Hen, Hurl. cbn [negb orb length Nat.eqb].
  eexists _, _. split; [reflexivity|]. cbn [p_content p_embeds].
  split; [done|]. split; [reflexivity|]. done.
Qed.

Lemma sendSummary_posted (notifications : option Settings)
    (post : string → Payload → bool) (now : Z) (nfts : list NFT)
    (collectionName url : string) (p : Payload) :
  snd (sendRareSummaryDiscordNotification notifications post now nfts
         collectionName) = [(url, p)] →
  postsTo notifications url ∧ nfts ≠ [].
Proof.
  unfold sendRareSummaryDiscordNotification, postsTo.
  destruct (notifications ≫= discord) as [d|]; [|done].
  destruct (enabled d) eqn:Hen; cbn [negb orb]; [|done].
  destruct nfts as [|nft nfts]; [done|]. cbn [length Nat.eqb].
  destruct (truthy (webhookUrl d)) as [url'|] eqn:Hurl; [|done].
  cbn [snd]. intros [= <- _]. split; [|done]. by exists d.
Qed.

(** X17: the summary notification makes one POST request, to the
    configured address, exactly when the notifier is enabled, an address is
    configured and the list is not empty, and answers whether that request
    succeeded; otherwise it posts nothing and answers false.  The payload
    names the full number of items in its text, adds the note on truncation
    exactly when there are more than ten, and carries the summary embed
    followed by one embed for each of the first ten items, in order: eleven
    embeds once there are ten items or more. *)
Theorem summary_notification_post (notifications : option Settings)
    (post : string → Payload → bool) (now : Z) (nfts : list NFT)
    (collectionName : string) :
  let r := sendRareSummaryDiscordNotification notifications post now nfts
             collectionName in
  (∀ url, postsTo notifications url ∧ nfts ≠ [] ↔
          ∃ p, snd r = [(url, p)]) ∧
  (∀ url p, (url, p) ∈ snd r →
     fst r = post url p ∧
     p_content p = foundText (length nfts) collectionName ∧
     (∃ s, head (p_embeds p) = Some (Summary s) ∧
           summary_description s
             = if 10 <? length nfts
               then p_content p +:+ showingText (length nfts)
               else p_content p) ∧
     item_title <$> itemEmbeds p = name <$> take 10 nfts ∧
     length (p_embeds p) = S (min 10 (length nfts))) ∧
  (snd r = [] → fst r = false).
Proof.
  cbn zeta. split_and!.
  - intros url. split.
    + intros [Hp Hne]. destruct nfts as [|nft nfts]; [done|].
      destruct (sendSummary_posts notifications post now nft nfts
                  collectionName url Hp) as (p & s & -> & _).
      by exists p.
    + intros [p Hp]. by eapply sendSummary_posted.
  - intros url p Hin.
    assert (Hp : postsTo notifications url ∧ nfts ≠ []).
    { destruct (snd (sendRareSummaryDiscordNotification _ _ _ _ _))
        as [|[url' p'] [|? ?]] eqn:E.
      - by apply elem_of_nil in Hin.
      - apply list_elem_of_singleton in Hin. injection Hin as -> ->.
        by eapply sendSummary_posted.
      - exfalso. revert E. unfold sendRareSummaryDiscordNotification.
        repeat case_match; cbn; done. }
    destruct Hp as [Hp Hne]. destruct nfts as [|nft nfts]; [done|].
    destruct (sendSummary_posts notifications post now nft nfts
                collectionName url Hp) as (p' & s & Hr & Hc & He & Hs).
    rewrite Hr in Hin |- *. cbn [fst snd] in *.
    apply list_elem_of_singleton in Hin. injection Hin as <-.
    split_and!; try done.
    + exists s. by rewrite He.
    + unfold itemEmbeds. rewrite He. cbn [omap list_omap].
      rewrite itemEmbeds_Item, <- list_fmap_compose. done.
    + rewrite He. cbn [length]. by rewrite !length_fmap, length_take.
  - unfold sendRareSummaryDiscordNotification.
    repeat case_match; cbn; done.
Qed.

(** X18: whatever a scan cycle hands to the notifier makes, when the
    notifier is enabled and configured, one POST request whose payload has
    between two and eleven embeds and whose item embeds each list at least
    one rare trait (the field is never the placeholder for none). *)
Theorem cycle_notification_lists_rare_traits (fuel : nat) (cfg : Config)
    (env : Env) (symbol : string) (st st' : State) :
  processCollection fuel cfg env symbol st = Some st' →
  ∀ batch, batch ∈ notified st' →
    batch ∈ notified st ∨
    ∀ notifications post now url, postsTo notifications url →
      ∃ p,
        snd (sendRareSummaryDiscordNotification notifications post now
               (fst batch) (snd batch)) = [(url, p)] ∧
        2 ≤ length (p_embeds p) ≤ 11 ∧
        ∀ e, e ∈ itemEmbeds p → item_rareTraits e ≠ NoRareTraits.
Proof.
  intros Hrun batch Hin.
  destruct (processCollection_batch _ _ _ _ _ _ Hrun)
    as [Hn|(a & items & cn & Hn & Hrare)]; rewrite Hn in Hin; [by left|].
  apply elem_of_app in Hin as [Hin|Hin]; [by left|]. right.
  apply list_elem_of_singleton in Hin as ->. cbn [fst snd].
  intros notifications post now url Hp.
  destruct (sendSummary_posts notifications post now a items cn url Hp)
    as (p & s & -> & _ & He & _).
  exists p. split; [done|]. split.
  - rewrite He. cbn [length]. rewrite !length_fmap, length_take.
    cbn [length]. lia.
  - intros e. unfold itemEmbeds. rewrite He. cbn [omap list_omap].
    rewrite itemEmbeds_Item. intros (x & -> & Hx)%list_elem_of_fmap.
    apply itemEmbed_rareTraits, Hrare.
    by apply (subseteq_take 10 (a :: items)).
Qed.

Lemma cycle_notification_lists_rare_traits_witness :
  ∃ st' batch p,
    processCollection 1 demoConfig demoEnv "demo" (startup ∅ "demo")
      = Some st' ∧
    batch ∈ notified st' ∧
    snd (sendRareSummaryDiscordNotification demoNotifications
           (fun _ _ => true) 0 (fst batch) (snd batch))
      = [("https://discord.test/hook"%string, p)] ∧
    2 ≤ length (p_embeds p) ≤ 11.
Proof.
  destruct (processCollection 1 demoConfig demoEnv "demo" (startup ∅ "demo"))
    as [st'|] eqn:E; [|vm_compute in E; discriminate].
  destruct (notified st') as [|batch rest] eqn:En.
  { vm_compute in E. injection E as <-. discriminate En. }
  assert (Hin : batch ∈ notified st') by (rewrite En; by left).
  destruct (cycle_notification_lists_rare_traits _ _ _ _ _ _ E batch Hin)
    as [Hold|Hnew].
  { by apply elem_of_nil in Hold. }
  destruct (Hnew demoNotifications (fun _ _ => true) 0%Z
              "https://discord.test/hook"%string) as (p & Hp & Hlen & _).
  { eexists. split; [reflexivity|]. split; reflexivity. }
  exists st', batch, p. rewrite En. split; [reflexivity|].
  split; [by left|]. split; [exact Hp | exact Hlen].
Defined.

End NotificationFurther.
